(** * btrfs-optimize: the range deduplicator and the extent walker

    A shallow embedding of package [fstools] (fideduperange_utils.go,
    fiemap.go, fiemap_utils.go) and the properties of its two engines.

    The two kernel primitives (FIDEDUPERANGE and FS_IOC_FIEMAP) are
    outside the program: they are taken as arbitrary reply functions,
    indexed by the number of calls issued before, so that a run of an
    engine is a pure function of the caller's input and of the kernel's
    replies.  Loops that the source writes as [for { ... }] take a fuel
    argument; a run that is out of fuel is reported as still running. *)

From Stdlib Require Import ZArith String Lia.
From stdpp Require Import base list pretty.

Local Open Scope Z_scope.

(** ** Machine integers

    Go's fixed-width integers on amd64, as [Z] with the wrap-around
    written out. *)

Definition wrap64 (z : Z) : Z := z mod 2 ^ 64.

Definition wrap32 (z : Z) : Z := z mod 2 ^ 32.

Definition wrap_int32 (z : Z) : Z := (z + 2 ^ 31) mod 2 ^ 32 - 2 ^ 31.

Definition wrap_int (z : Z) : Z := (z + 2 ^ 63) mod 2 ^ 64 - 2 ^ 63.

Definition is_uint64 (z : Z) : Prop := 0 <= z < 2 ^ 64.

(** ** The part of golang.org/x/sys/unix the package uses

    The record types are those of types_linux.go; the two status
    constants are those of zerrors_linux.go, which mirror
    include/uapi/linux/fs.h (FILE_DEDUPE_RANGE_SAME is 0 and
    FILE_DEDUPE_RANGE_DIFFERS is 1). *)

Module unix.

Definition Errno : Type := Z.

Definition FILE_DEDUPE_RANGE_SAME : Z := 0.

Definition FILE_DEDUPE_RANGE_DIFFERS : Z := 1.

Record FileDedupeRangeInfo : Type := mkInfo {
  Dest_fd : Z;
  Dest_offset : Z;
  Bytes_deduped : Z;
  Status : Z;
  Reserved : Z
}.

Record FileDedupeRange : Type := mkRange {
  Src_offset : Z;
  Src_length : Z;
  Reserved1 : Z;
  Reserved2 : Z;
  Info : list FileDedupeRangeInfo
}.

End unix.

Import unix.

(** Field updates, one per assignment form the source uses. *)

Definition set_result (bytes status : Z) (t : FileDedupeRangeInfo) : FileDedupeRangeInfo :=
  mkInfo (Dest_fd t) (Dest_offset t) bytes status (Reserved t).

Definition set_Dest_offset (off : Z) (t : FileDedupeRangeInfo) : FileDedupeRangeInfo :=
  mkInfo (Dest_fd t) off (Bytes_deduped t) (Status t) (Reserved t).

Definition set_Info (l : list FileDedupeRangeInfo) (r : FileDedupeRange) : FileDedupeRange :=
  mkRange (Src_offset r) (Src_length r) (Reserved1 r) (Reserved2 r) l.

Definition set_Src (off len : Z) (r : FileDedupeRange) : FileDedupeRange :=
  mkRange off len (Reserved1 r) (Reserved2 r) (Info r).

(** ** The FIDEDUPERANGE primitive

    [unix.IoctlFileDedupeRange] hands the request to the kernel and
    reads back, for every target record, the two output fields
    [Bytes_deduped] (a u64) and [Status] (an i32); the other fields of
    the request are left as they were.  A reply gives the output pair
    the kernel left in the record of the target at each position. *)

Record DedupeReply : Type := mkReply {
  reply_err : option Errno;
  reply_out : nat -> Z * Z
}.

Definition DedupeKernel : Type := nat -> Z -> FileDedupeRange -> DedupeReply.

Definition read_back (outs : nat -> Z * Z) (i : nat) (t : FileDedupeRangeInfo)
    : FileDedupeRangeInfo :=
  set_result (wrap64 (fst (outs i))) (wrap_int32 (snd (outs i))) t.

Definition IoctlFileDedupeRange (kernel : DedupeKernel) (nth_call : nat) (srcFd : Z)
    (value : FileDedupeRange) : FileDedupeRange * option Errno :=
  let reply := kernel nth_call srcFd value in
  (set_Info (imap (read_back (reply_out reply)) (Info value)) value, reply_err reply).

(** ** FileDedupeRangeFull *)

(** How a call ends: [return nil], [return err], one of the explicit
    [panic]s, or Go's run-time panic on an index out of range. *)

Inductive Exit : Type :=
  | ReturnNil
  | ReturnErr (err : Errno)
  | Panic (msg : string)
  | IndexOutOfRange.

(** One call of the progress callback: [(bytesDeduped, bytesLength, exit)]. *)

Definition ProgressCall : Type := Z * Z * bool.

(** The function's variables.  [req.Info] and [indices] are slices that
    [drop] shortens in place: each is kept as its visible part together
    with the rest of its backing array.  [st_ioctls] lists the requests
    handed to the primitive and [st_rounds] the byte count agreed in
    each completed round; both only record what happened. *)

Record State : Type := mkState {
  st_value : FileDedupeRange;
  st_req : FileDedupeRange;
  st_req_spare : list FileDedupeRangeInfo;
  st_indices : list nat;
  st_indices_spare : list nat;
  st_calls : list ProgressCall;
  st_ioctls : list FileDedupeRange;
  st_rounds : list Z
}.

Definition msg_nil : string := "value is nil".

Definition msg_empty : string := "value.Info array empty".

Definition msg_varying : string :=
  "found a successfully deduped file, but had varying dedupe bytes".

Definition msg_more : string := "deduped more bytes than requested".

(** Lines 97-109: the first target reporting "same" fixes [dedupeBytes];
    every target reporting "same" must agree with it.  [None] is the
    panic. *)

Fixpoint check_loop (infos : list FileDedupeRangeInfo) (dedupeBytes : Z)
    (dedupeBytesValid : bool) : option (Z * bool) :=
  match infos with
  | [] => Some (dedupeBytes, dedupeBytesValid)
  | info :: rest =>
    let same := Status info =? FILE_DEDUPE_RANGE_SAME in
    let '(bytes, valid) :=
      if negb dedupeBytesValid && same then (Bytes_deduped info, true)
      else (dedupeBytes, dedupeBytesValid) in
    if same && negb (Bytes_deduped info =? bytes) then None
    else check_loop rest bytes valid
  end.

(** Lines 122-131: the results of round [i]-th live target go to the
    caller's record at [indices[i]]; a "same" target advances its
    destination offset, any other is listed for dropping.  The boolean
    is false when an index was out of range. *)

Definition accumulate (info : FileDedupeRangeInfo) (t : FileDedupeRangeInfo) : FileDedupeRangeInfo :=
  set_result (wrap64 (Bytes_deduped t + Bytes_deduped info)) (Status info) t.

Definition advance (dedupeBytes : Z) (t : FileDedupeRangeInfo) : FileDedupeRangeInfo :=
  set_Dest_offset (wrap64 (Dest_offset t + dedupeBytes)) t.

Fixpoint record_loop (dedupeBytes : Z) (indices : list nat) (i : nat)
    (todo : list FileDedupeRangeInfo) (vinfo rinfo : list FileDedupeRangeInfo)
    (dropList : list nat)
    : list FileDedupeRangeInfo * list FileDedupeRangeInfo * list nat * bool :=
  match todo with
  | [] => (vinfo, rinfo, dropList, true)
  | info :: todo' =>
    match indices !! i with
    | None => (vinfo, rinfo, dropList, false)
    | Some idx =>
      match vinfo !! idx with
      | None => (vinfo, rinfo, dropList, false)
      | Some _ =>
        let vinfo' := alter (accumulate info) idx vinfo in
        if Status info =? FILE_DEDUPE_RANGE_SAME
        then record_loop dedupeBytes indices (S i) todo' vinfo'
               (alter (advance dedupeBytes) i rinfo) dropList
        else record_loop dedupeBytes indices (S i) todo' vinfo' rinfo
               (dropList ++ [i])
      end
    end
  end.

(** Lines 60-79, the closure [drop].  Its loop ranges over
    [value.Info], the caller's slice, whose length never changes. *)

Fixpoint drop_loop (dropList : list nat) (srcs : list nat) (dropIndex dstIndex : nat)
    (rinfo : list FileDedupeRangeInfo) (indices : list nat)
    : nat * list FileDedupeRangeInfo * list nat * bool :=
  match srcs with
  | [] => (dstIndex, rinfo, indices, true)
  | srcIndex :: srcs' =>
    match dropList !! dropIndex with
    | None => (dstIndex, rinfo, indices, false)
    | Some d =>
      if (srcIndex =? d)%nat
      then drop_loop dropList srcs' (S dropIndex) dstIndex rinfo indices
      else if (srcIndex =? dstIndex)%nat
      then drop_loop dropList srcs' dropIndex (S dstIndex) rinfo indices
      else
        match rinfo !! srcIndex with
        | None => (dstIndex, rinfo, indices, false)
        | Some x =>
          if (dstIndex <? length rinfo)%nat then
            let rinfo' := <[dstIndex := x]> rinfo in
            match indices !! srcIndex with
            | None => (dstIndex, rinfo', indices, false)
            | Some y =>
              if (dstIndex <? length indices)%nat
              then drop_loop dropList srcs' dropIndex (S dstIndex) rinfo'
                     (<[dstIndex := y]> indices)
              else (dstIndex, rinfo', indices, false)
            end
          else (dstIndex, rinfo, indices, false)
        end
    end
  end.

(** [s[:k]] on a slice with visible part [vis] and the rest of its
    backing array [spare]: legal up to the capacity. *)

Definition reslice {A : Type} (k : nat) (vis spare : list A) : option (list A * list A) :=
  if (k <=? length vis + length spare)%nat
  then Some (take k (vis ++ spare), drop k (vis ++ spare))
  else None.

Definition drop_targets (n : nat) (dropList : list nat)
    (rinfo spare : list FileDedupeRangeInfo) (indices ispare : list nat)
    : list FileDedupeRangeInfo * list FileDedupeRangeInfo * list nat * list nat * bool :=
  if (length dropList =? 0)%nat then (rinfo, spare, indices, ispare, true)
  else
    let '(dstIndex, rinfo', indices', ok) :=
      drop_loop dropList (seq 0 n) 0 0 rinfo indices in
    if ok then
      match reslice dstIndex rinfo' spare, reslice dstIndex indices' ispare with
      | Some (a, b), Some (c, d) => (a, b, c, d, true)
      | _, _ => (rinfo', spare, indices', ispare, false)
      end
    else (rinfo', spare, indices', ispare, false).

(** The progress callback may be nil: [progress] tells whether one was
    given, and a call is recorded only then. *)

Definition call_progress (progress : bool) (c : ProgressCall) (calls : list ProgressCall)
    : list ProgressCall :=
  if progress then calls ++ [c] else calls.

(** One iteration of the [for] loop, lines 85-139.  The result is the
    state the iteration leaves and, when it leaves the function, how. *)

Definition round (kernel : DedupeKernel) (srcFd : Z) (progress : bool) (s : State)
    : State * option Exit :=
  let '(req1, err) :=
    IoctlFileDedupeRange kernel (length (st_ioctls s)) srcFd (st_req s) in
  let ioctls := st_ioctls s ++ [st_req s] in
  let s1 := mkState (st_value s) req1 (st_req_spare s) (st_indices s)
              (st_indices_spare s) (st_calls s) ioctls (st_rounds s) in
  match err with
  | Some e => (s1, Some (ReturnErr e))
  | None =>
    match check_loop (Info req1) 0 false with
    | None => (s1, Some (Panic msg_varying))
    | Some (dedupeBytes, _) =>
      if Src_length req1 <? dedupeBytes then (s1, Some (Panic msg_more))
      else
        let req2 := set_Src (wrap64 (Src_offset req1 + dedupeBytes))
                            (wrap64 (Src_length req1 - dedupeBytes)) req1 in
        let calls := call_progress progress
                       (Src_offset req2, Src_length (st_value s), false) (st_calls s) in
        let rounds := st_rounds s ++ [dedupeBytes] in
        let '(vinfo, rinfo, dropList, ok) :=
          record_loop dedupeBytes (st_indices s) 0 (Info req2)
            (Info (st_value s)) (Info req2) [] in
        let s2 := mkState (set_Info vinfo (st_value s)) (set_Info rinfo req2)
                    (st_req_spare s) (st_indices s) (st_indices_spare s)
                    calls ioctls rounds in
        if negb ok then (s2, Some IndexOutOfRange)
        else if Src_length req2 =? 0 then (s2, Some ReturnNil)
        else
          let '(rinfo', spare', indices', ispare', ok') :=
            drop_targets (length (Info (st_value s))) dropList rinfo
              (st_req_spare s) (st_indices s) (st_indices_spare s) in
          let s3 := mkState (set_Info vinfo (st_value s)) (set_Info rinfo' req2)
                      spare' indices' ispare' calls ioctls rounds in
          if negb ok' then (s3, Some IndexOutOfRange)
          else if (length rinfo' =? 0)%nat then (s3, Some ReturnNil)
          else (s3, None)
    end
  end.

Fixpoint loop (kernel : DedupeKernel) (srcFd : Z) (progress : bool) (fuel : nat)
    (s : State) : State * option Exit :=
  match fuel with
  | O => (s, None)
  | S fuel' =>
    match round kernel srcFd progress s with
    | (s', None) => loop kernel srcFd progress fuel' s'
    | done => done
    end
  end.

(** Lines 40-55 and 81-83: the private copy of the request, the
    identity index map and the first progress call. *)

Definition init (value : FileDedupeRange) (progress : bool) : State :=
  mkState value
    (mkRange (Src_offset value) (Src_length value) (Reserved1 value)
       (Reserved2 value) (Info value))
    [] (seq 0 (length (Info value))) []
    (call_progress progress (0, Src_length value, false) [])
    [] [].

(** What the caller can observe of a call: how it ended ([None] while
    it is still running), the caller's request object afterwards, the
    progress calls delivered and the requests handed to the primitive. *)

Record Outcome : Type := mkOutcome {
  out_exit : option Exit;
  out_value : option FileDedupeRange;
  out_calls : list ProgressCall;
  out_ioctls : list FileDedupeRange
}.

(** The deferred [progress(0, 0, true)] of lines 26-28 runs when the
    function is left, by return or by panic. *)

Definition deferred (progress : bool) (exit : option Exit) (calls : list ProgressCall)
    : list ProgressCall :=
  match exit with
  | Some _ => call_progress progress (0, 0, true) calls
  | None => calls
  end.

Definition FileDedupeRangeFull (kernel : DedupeKernel) (fuel : nat) (srcFd : Z)
    (value : option FileDedupeRange) (progress : bool) : Outcome :=
  match value with
  | None =>
    mkOutcome (Some (Panic msg_nil)) None
      (deferred progress (Some (Panic msg_nil)) []) []
  | Some v =>
    if (length (Info v) =? 0)%nat then
      mkOutcome (Some (Panic msg_empty)) (Some v)
        (deferred progress (Some (Panic msg_empty)) []) []
    else
      let '(s, exit) := loop kernel srcFd progress fuel (init v progress) in
      mkOutcome exit (Some (st_value s)) (deferred progress exit (st_calls s))
        (st_ioctls s)
  end.

(** ** FileDedupeRangeStatusToString

    [unix.Errno.Error] belongs to the platform: it is a parameter.
    [unix.Errno] is a [uintptr], so [-status] is negated as an int32 and
    then converted. *)

Definition FileDedupeRangeStatusToString (Errno_Error : Errno -> string) (status : Z)
    : string :=
  if status <? 0 then
    String.append "errno " (Errno_Error (wrap64 (wrap_int32 (- status))))
  else if status =? FILE_DEDUPE_RANGE_SAME then "range same"
  else if status =? FILE_DEDUPE_RANGE_DIFFERS then "range differs"
  else String.append "unknown status(" (String.append (pretty status) ")").

(** ** fiemap.go *)

Definition FIEMAP_MAX_OFFSET : Z := 2 ^ 64 - 1.

Definition FIEMAP_EXTENT_LAST : Z := 1.

Definition SizeofRawFiemap : Z := 32.

Definition SizeofRawFiemapExtent : Z := 56.

Module FiemapExtent.

Record t : Type := mk {
  Logical : Z;
  Physical : Z;
  Length : Z;
  Reserved64 : Z * Z;
  Flags : Z;
  Reserved : Z * Z * Z
}.

Definition zero : t := mk 0 0 0 (0, 0) 0 (0, 0, 0).

End FiemapExtent.

Module Fiemap.

Record t : Type := mk {
  Start : Z;
  Length : Z;
  Flags : Z;
  Mapped_extents : Z;
  Reserved : Z;
  Extents : list FiemapExtent.t
}.

End Fiemap.

Module rawFiemap.

Record t : Type := mk {
  Start : Z;
  Length : Z;
  Flags : Z;
  Mapped_extents : Z;
  Extent_count : Z;
  Reserved : Z
}.

End rawFiemap.

(** The FS_IOC_FIEMAP primitive: given the request header it reports an
    error or not, the three output fields of the header and the extent
    records it wrote at the start of the array that follows the
    header. *)

Record FiemapReply : Type := mkFiemapReply {
  fr_err : option Errno;
  fr_Flags : Z;
  fr_Mapped_extents : Z;
  fr_Reserved : Z;
  fr_extents : list FiemapExtent.t
}.

Definition FiemapKernel : Type := nat -> Z -> rawFiemap.t -> FiemapReply.

Definition msg_unaligned : string := "buffer for fiemap ioctl is not 64 bit aligned".

(** The extent array of the buffer after the call: [n] records, zero
    where the kernel wrote nothing ([make] zeroes the buffer). *)

Definition buffer_extents (n : nat) (written : list FiemapExtent.t) : list FiemapExtent.t :=
  take n (written ++ replicate n FiemapExtent.zero).

(** [IoctlFiemap]: [bufPtr] is the address [make] gave the buffer.  The
    result is [None] for the panic, and otherwise the updated [*value]
    with the error; the list holds the request issued, if one was. *)

Definition IoctlFiemap (bufPtr : Z) (kernel : FiemapKernel) (nth_call : nat) (fd : Z)
    (value : Fiemap.t) : option (Fiemap.t * option Errno) * list rawFiemap.t :=
  if negb (bufPtr mod 8 =? 0) then (None, [])
  else
    let rawFm := rawFiemap.mk (Fiemap.Start value) (Fiemap.Length value)
                   (Fiemap.Flags value) (Fiemap.Mapped_extents value)
                   (wrap32 (Z.of_nat (length (Fiemap.Extents value))))
                   (Fiemap.Reserved value) in
    let reply := kernel nth_call fd rawFm in
    (Some (Fiemap.mk (Fiemap.Start value) (Fiemap.Length value)
             (wrap32 (fr_Flags reply)) (wrap32 (fr_Mapped_extents reply))
             (wrap32 (fr_Reserved reply))
             (buffer_extents (length (Fiemap.Extents value)) (fr_extents reply)),
           fr_err reply),
     [rawFm]).

(** ** fiemap_utils.go: FiemapWalk *)

Definition fiemapIoctlBufferSize : Z := 2048 * 8.

Definition numExtents : Z :=
  (fiemapIoctlBufferSize - SizeofRawFiemap) / SizeofRawFiemapExtent.

(** What a walk does, in order: a query handed to the primitive, or a
    call of the callback. *)

Inductive WalkEvent : Type :=
  | Query (raw : rawFiemap.t)
  | Visit (index : Z) (extent : FiemapExtent.t).

Definition FiemapWalkCallback : Type := Z -> FiemapExtent.t -> bool.

Record WalkState : Type := mkWalk {
  nextExtentIndexOffset : Z;
  nextLogicalStart : Z;
  fmExtents : list FiemapExtent.t;
  w_queries : nat;
  w_trace : list WalkEvent
}.

Definition is_last (extent : FiemapExtent.t) : bool :=
  negb (Z.land (FiemapExtent.Flags extent) FIEMAP_EXTENT_LAST =? 0).

(** The inner [for i := 0; i < int(fm.Mapped_extents); i++], with
    [todo] iterations left. *)

Fixpoint visit_loop (callback : FiemapWalkCallback) (offset : Z)
    (extents : list FiemapExtent.t) (todo i : nat) (trace : list WalkEvent)
    : list WalkEvent * option Exit :=
  match todo with
  | O => (trace, None)
  | S todo' =>
    let index := wrap_int (offset + Z.of_nat i) in
    match extents !! i with
    | None => (trace, Some IndexOutOfRange)
    | Some extent =>
      let trace' := trace ++ [Visit index extent] in
      if callback index extent then (trace', Some ReturnNil)
      else if is_last extent then (trace', Some ReturnNil)
      else visit_loop callback offset extents todo' (S i) trace'
    end
  end.

(** One iteration of the outer [for]; [alloc n] is the address of the
    buffer that the [n]-th call of [IoctlFiemap] allocates. *)

Definition walk_round (alloc : nat -> Z) (kernel : FiemapKernel) (fd flags : Z)
    (callback : FiemapWalkCallback) (s : WalkState) : WalkState * option Exit :=
  let fm := Fiemap.mk (nextLogicalStart s) FIEMAP_MAX_OFFSET flags 0 0 (fmExtents s) in
  match IoctlFiemap (alloc (w_queries s)) kernel (w_queries s) fd fm with
  | (None, _) => (s, Some (Panic msg_unaligned))
  | (Some (fm', err), issued) =>
    let trace := w_trace s ++ map Query issued in
    let s1 := mkWalk (nextExtentIndexOffset s) (nextLogicalStart s)
                (Fiemap.Extents fm') (S (w_queries s)) trace in
    match err with
    | Some e => (s1, Some (ReturnErr e))
    | None =>
      if Fiemap.Mapped_extents fm' =? 0 then (s1, Some ReturnNil)
      else
        let mapped := Z.to_nat (Fiemap.Mapped_extents fm') in
        match visit_loop callback (nextExtentIndexOffset s) (Fiemap.Extents fm')
                mapped 0 trace with
        | (trace', Some exit) =>
          (mkWalk (nextExtentIndexOffset s) (nextLogicalStart s)
             (Fiemap.Extents fm') (S (w_queries s)) trace', Some exit)
        | (trace', None) =>
          match Fiemap.Extents fm' !! Z.to_nat (Fiemap.Mapped_extents fm' - 1) with
          | None =>
            (mkWalk (wrap_int (nextExtentIndexOffset s + Fiemap.Mapped_extents fm'))
               (nextLogicalStart s) (Fiemap.Extents fm') (S (w_queries s)) trace',
             Some IndexOutOfRange)
          | Some e =>
            (mkWalk (wrap_int (nextExtentIndexOffset s + Fiemap.Mapped_extents fm'))
               (wrap64 (FiemapExtent.Logical e + FiemapExtent.Length e))
               (Fiemap.Extents fm') (S (w_queries s)) trace',
             None)
          end
        end
    end
  end.

Fixpoint walk_loop (alloc : nat -> Z) (kernel : FiemapKernel) (fd flags : Z)
    (callback : FiemapWalkCallback) (fuel : nat) (s : WalkState)
    : WalkState * option Exit :=
  match fuel with
  | O => (s, None)
  | S fuel' =>
    match walk_round alloc kernel fd flags callback s with
    | (s', None) => walk_loop alloc kernel fd flags callback fuel' s'
    | done => done
    end
  end.

(** [FiemapWalk] with the capacity of its extent buffer as a parameter;
    the source fixes it to [numExtents]. *)

Definition FiemapWalkSized (capacity : nat) (alloc : nat -> Z) (kernel : FiemapKernel)
    (fuel : nat) (fd flags : Z) (callback : FiemapWalkCallback)
    : WalkState * option Exit :=
  walk_loop alloc kernel fd flags callback fuel
    (mkWalk 0 0 (replicate capacity FiemapExtent.zero) 0 []).

Definition FiemapWalk : (nat -> Z) -> FiemapKernel -> nat -> Z -> Z ->
    FiemapWalkCallback -> WalkState * option Exit :=
  FiemapWalkSized (Z.to_nat numExtents).

(** ** fiemap.go: the remaining constants *)

Definition FIEMAP_FLAG_SYNC : Z := 0x00000001.

Definition FIEMAP_FLAG_XATTR : Z := 0x00000002.

Definition FIEMAP_FLAG_CACHE : Z := 0x00000004.

Definition FIEMAP_FLAGS_COMPAT : Z := Z.lor FIEMAP_FLAG_SYNC FIEMAP_FLAG_XATTR.

Definition FIEMAP_EXTENT_UNKNOWN : Z := 0x00000002.

Definition FIEMAP_EXTENT_DELALLOC : Z := 0x00000004.

Definition FIEMAP_EXTENT_ENCODED : Z := 0x00000008.

Definition FIEMAP_EXTENT_DATA_ENCRYPTED : Z := 0x00000080.

Definition FIEMAP_EXTENT_NOT_ALIGNED : Z := 0x00000100.

Definition FIEMAP_EXTENT_DATA_INLINE : Z := 0x00000200.

Definition FIEMAP_EXTENT_DATA_TAIL : Z := 0x00000400.

Definition FIEMAP_EXTENT_UNWRITTEN : Z := 0x00000800.

Definition FIEMAP_EXTENT_MERGED : Z := 0x00001000.

Definition FIEMAP_EXTENT_SHARED : Z := 0x00002000.

(** ** fiemap_utils.go: FiemapExtentFlagsToStrings *)

Definition flagDefs : list (Z * string) :=
  [ (FIEMAP_EXTENT_LAST, "last");
    (FIEMAP_EXTENT_UNKNOWN, "unknown");
    (FIEMAP_EXTENT_DELALLOC, "delalloc");
    (FIEMAP_EXTENT_ENCODED, "encoded");
    (FIEMAP_EXTENT_DATA_ENCRYPTED, "data_encrypted");
    (FIEMAP_EXTENT_NOT_ALIGNED, "not_aligned");
    (FIEMAP_EXTENT_DATA_INLINE, "data_inline");
    (FIEMAP_EXTENT_DATA_TAIL, "data_tail");
    (FIEMAP_EXTENT_UNWRITTEN, "unwritten");
    (FIEMAP_EXTENT_MERGED, "merged");
    (FIEMAP_EXTENT_SHARED, "shared") ]%string.

(** [fmt.Sprintf("0x%X", flags)] for a uint32: the digits in upper
    case, most significant first, none for leading zeros. *)

Definition hex_digit (d : Z) : string :=
  match d with
  | 0 => "0" | 1 => "1" | 2 => "2" | 3 => "3" | 4 => "4" | 5 => "5" | 6 => "6"
  | 7 => "7" | 8 => "8" | 9 => "9" | 10 => "A" | 11 => "B" | 12 => "C" | 13 => "D"
  | 14 => "E" | _ => "F"
  end%string.

Fixpoint format_X (digits : nat) (n : Z) (acc : string) : string :=
  match digits with
  | O => acc
  | S digits' =>
    let acc' := String.append (hex_digit (n mod 16)) acc in
    if n / 16 =? 0 then acc' else format_X digits' (n / 16) acc'
  end.

Definition Sprintf_0xX (flags : Z) : string :=
  String.append "0x" (format_X 8 flags "").

(** The loop over [flagDefs]: [flags &= ^fd.flag] clears the bit in the
    32-bit word. *)

Fixpoint flags_loop (defs : list (Z * string)) (flags : Z) (result : list string)
    : list string * Z :=
  match defs with
  | [] => (result, flags)
  | (flag, name) :: defs' =>
    let result' := if negb (Z.land flags flag =? 0) then result ++ [name] else result in
    flags_loop defs' (Z.land flags (wrap32 (Z.lnot flag))) result'
  end.

Definition FiemapExtentFlagsToStrings (flags : Z) : list string :=
  let '(result, flags') := flags_loop flagDefs flags [] in
  if negb (flags' =? 0)
  then result ++ [Sprintf_0xX flags']   (* any undocumented flags *)
  else result.

(** ** fiemap_utils.go: FileFragDumpExtents

    What is printed is kept as a list of lines, in the order in which
    they are written: the deferred [Flush] delivers the lines written
    through [w] when the function is left, by return or by panic.  The
    results of [os.Open] and [syscall.Fstat] are inputs. *)

Inductive Line : Type :=
  | LineFile (path : string)
  | LineFileSize (size : Z)
  | LineBlockSize (blkSize : Z)
  | LineUnits (units : string)
  | LineHeader
  | LineExtent (index logical physical length : Z) (flags : option string).

(** How a call of FileFragDumpExtents ends: the two wrapped errors,
    [panic(err)] after a failed [Fstat], and Go's panic on a division
    by zero, besides the ways of [Exit]. *)

Inductive DumpExit : Type :=
  | DumpReturnNil
  | DumpOpenFailed (err : Errno)
  | DumpWalkFailed (err : Errno)
  | DumpPanicErr (err : Errno)
  | DumpPanic (msg : string)
  | DumpIndexOutOfRange
  | DumpDivideByZero.

Definition msg_not_block_aligned : string :=
  "logical start, pysical start, or length are not block size aligned".

Definition not_block_aligned (blkSize : Z) (extent : FiemapExtent.t) : bool :=
  negb (FiemapExtent.Logical extent mod blkSize =? 0) ||
  negb (FiemapExtent.Physical extent mod blkSize =? 0) ||
  negb (FiemapExtent.Length extent mod blkSize =? 0).

(** The callback of lines 152-168.  It returns false unless it panics:
    on a block size of zero before anything is written, and on an
    extent that is not aligned after the four numbers are written. *)

Definition dump_panics (blkSize : Z) (extent : FiemapExtent.t) : option DumpExit :=
  if blkSize =? 0 then Some DumpDivideByZero
  else if not_block_aligned blkSize extent then Some (DumpPanic msg_not_block_aligned)
  else None.

Definition dump_line (blkSize : Z) (index : Z) (extent : FiemapExtent.t) : list Line :=
  if blkSize =? 0 then []
  else
    [LineExtent index
       (FiemapExtent.Logical extent / blkSize)
       (FiemapExtent.Physical extent / blkSize)
       (FiemapExtent.Length extent / blkSize)
       (if not_block_aligned blkSize extent then None
        else Some (String.concat ","
                     (FiemapExtentFlagsToStrings (FiemapExtent.Flags extent))))].

(** A panic of the callback leaves FiemapWalk at once, as a result of
    true does: in the walk the callback is the test for a panic, and
    the panic is put back as the way the function ends. *)

Definition dump_callback (blkSize : Z) : FiemapWalkCallback :=
  fun _ extent => match dump_panics blkSize extent with Some _ => true | None => false end.

Fixpoint dump_lines (blkSize : Z) (trace : list WalkEvent) : list Line :=
  match trace with
  | [] => []
  | Query _ :: trace' => dump_lines blkSize trace'
  | Visit index extent :: trace' => dump_line blkSize index extent ++ dump_lines blkSize trace'
  end.

Definition last_visit_panics (blkSize : Z) (trace : list WalkEvent) : option DumpExit :=
  match last trace with
  | Some (Visit _ extent) => dump_panics blkSize extent
  | _ => None
  end.

Definition dump_exit (blkSize : Z) (trace : list WalkEvent) (exit : option Exit)
    : option DumpExit :=
  match last_visit_panics blkSize trace with
  | Some p => Some p
  | None =>
    match exit with
    | None => None
    | Some ReturnNil => Some DumpReturnNil
    | Some (ReturnErr err) => Some (DumpWalkFailed err)
    | Some (Panic msg) => Some (DumpPanic msg)
    | Some IndexOutOfRange => Some DumpIndexOutOfRange
    end
  end.

Definition FileFragDumpExtents (alloc : nat -> Z) (kernel : FiemapKernel) (fuel : nat)
    (open_result : Errno + Z) (fstat_result : Errno + Z * Z)
    (filePath : string) (syncFirst useBytes faster : bool)
    : list Line * option DumpExit :=
  match open_result with
  | inl err => ([LineFile filePath], Some (DumpOpenFailed err))
  | inr fd =>
    match fstat_result with
    | inl err => ([LineFile filePath], Some (DumpPanicErr err))
    | inr (size, blksize) =>
      let blkSize := if useBytes then 1 else wrap64 blksize in
      let units := (if useBytes then "Bytes" else "Blocks")%string in
      let flags := if syncFirst then Z.lor 0 FIEMAP_FLAG_SYNC else 0 in
      let '(s, exit) := FiemapWalk alloc kernel fuel fd flags (dump_callback blkSize) in
      ([LineFile filePath; LineFileSize size; LineBlockSize (wrap64 blksize);
        LineUnits units; LineHeader] ++ dump_lines blkSize (w_trace s),
       dump_exit blkSize (w_trace s) exit)
    end
  end.

(** ** main.go: runDedupe

    The results of opening and statting the files are inputs; what is
    printed is kept as a list of messages, and what the progress bar is
    told as a list of events. *)

Definition EINVAL : Errno := 0x16.

Definition EOPNOTSUPP : Errno := 0x5f.

Inductive Message : Type :=
  | MsgOpenSourceFailed (err : Errno)
  | MsgStatFailed (err : Errno)
  | MsgOpenDestinationFailed (destFile : string) (err : Errno)
  | MsgNotSupported
  | MsgIncompatible
  | MsgDedupeFailed (err : Errno)
  | MsgDestinationFailed (destFile : string) (status : string)
  | MsgCompleted.

Inductive BarEvent : Type :=
  | BarSet64 (value : Z)
  | BarExit.

(** The closure [progress] of lines 121-128. *)

Definition bar_event (c : ProgressCall) : BarEvent :=
  let '(bytesDeduped, _, exit) := c in
  if exit then BarExit else BarSet64 (wrap_int bytesDeduped).

(** Lines 103-115: the destinations are opened in order; the first
    that fails ends the command. *)

Fixpoint open_destinations (dests : list (string * (Errno + Z)))
    : string * Errno + list FileDedupeRangeInfo :=
  match dests with
  | [] => inr []
  | (destFile, inl err) :: _ => inl (destFile, err)
  | (_, inr destFd) :: dests' =>
    match open_destinations dests' with
    | inl failed => inl failed
    | inr infos => inr (mkInfo (wrap_int destFd) 0 0 0 0 :: infos)
    end
  end.

(** Lines 151-166. *)

Fixpoint report_loop (Errno_Error : Errno -> string) (destinationFiles : list string)
    (infos : list FileDedupeRangeInfo) : list Message :=
  match destinationFiles, infos with
  | destFile :: files', info :: infos' =>
    (if negb (Status info =? FILE_DEDUPE_RANGE_SAME)
     then [MsgDestinationFailed destFile
             (FileDedupeRangeStatusToString Errno_Error (Status info))]
     else []) ++ report_loop Errno_Error files' infos'
  | _, _ => []
  end.

Definition report (Errno_Error : Errno -> string) (destinationFiles : list string)
    (infos : list FileDedupeRangeInfo) : list Message :=
  let failed := report_loop Errno_Error destinationFiles infos in
  if (length failed =? 0)%nat then [MsgCompleted] else failed.

Record RunOutcome : Type := mkRun {
  run_messages : list Message;
  run_bar : list BarEvent;
  run_exit : option Exit;
  run_ioctls : list FileDedupeRange
}.

Definition runDedupe (Errno_Error : Errno -> string) (kernel : DedupeKernel) (fuel : nat)
    (open_source : Errno + Z) (stat_source : Errno + Z)
    (destinations : list (string * (Errno + Z))) : RunOutcome :=
  match open_source with
  | inl err => mkRun [MsgOpenSourceFailed err] [] (Some ReturnNil) []
  | inr srcFd =>
    match stat_source with
    | inl err => mkRun [MsgStatFailed err] [] (Some ReturnNil) []
    | inr size =>
      match open_destinations destinations with
      | inl (destFile, err) =>
        mkRun [MsgOpenDestinationFailed destFile err] [] (Some ReturnNil) []
      | inr infos =>
        let value := mkRange 0 (wrap64 size) 0 0 infos in
        let o := FileDedupeRangeFull kernel fuel srcFd (Some value) true in
        let bar := map bar_event (out_calls o) in
        match out_exit o, out_value o with
        | Some (ReturnErr err), _ =>
          mkRun [if err =? EOPNOTSUPP then MsgNotSupported
                 else if err =? EINVAL then MsgIncompatible
                 else MsgDedupeFailed err] bar (Some ReturnNil) (out_ioctls o)
        | Some ReturnNil, Some value' =>
          mkRun (report Errno_Error (map fst destinations) (Info value')) bar
            (Some ReturnNil) (out_ioctls o)
        | exit, _ => mkRun [] bar exit (out_ioctls o)
        end
      end
    end
  end.

(** ** Example inputs

    Requests, kernels and files on which the theorems below are
    instantiated. *)

Definition target (fd : Z) : FileDedupeRangeInfo := mkInfo fd 0 0 0 0.

Definition request (len : Z) (targets : list FileDedupeRangeInfo) : FileDedupeRange :=
  mkRange 0 len 0 0 targets.

(** A kernel that dedupes at most [cap] bytes per call and finds every
    target identical to the source. *)
Definition kernel_capped (cap : Z) : DedupeKernel :=
  fun _ _ r => mkReply None (fun _ => (Z.min cap (Src_length r), FILE_DEDUPE_RANGE_SAME)).

(** A kernel that finds the first target of every request different
    from the source and dedupes at most five bytes into the others. *)
Definition kernel_first_differs : DedupeKernel :=
  fun _ _ r =>
    mkReply None
      (fun i => if (i =? 0)%nat then (0, FILE_DEDUPE_RANGE_DIFFERS)
                else (Z.min 5 (Src_length r), FILE_DEDUPE_RANGE_SAME)).

(** A kernel that finds the second target of every request different
    from the source and dedupes at most five bytes into the others. *)
Definition kernel_second_differs : DedupeKernel :=
  fun _ _ r =>
    mkReply None
      (fun i => if (i =? 1)%nat then (0, FILE_DEDUPE_RANGE_DIFFERS)
                else (Z.min 5 (Src_length r), FILE_DEDUPE_RANGE_SAME)).

(** A kernel that, in its first answer, finds the third target
    different from the source and dedupes at most five bytes into the
    others, and from then on finds every target different. *)
Definition kernel_then_all_differ : DedupeKernel :=
  fun nth_call _ r =>
    mkReply None
      (fun i => if (nth_call =? 0)%nat && negb (i =? 2)%nat
                then (Z.min 5 (Src_length r), FILE_DEDUPE_RANGE_SAME)
                else (0, FILE_DEDUPE_RANGE_DIFFERS)).

(** A kernel whose targets all report "same", each with a byte count
    of its own. *)
Definition kernel_varying : DedupeKernel :=
  fun _ _ _ => mkReply None (fun i => (Z.of_nat i + 1, FILE_DEDUPE_RANGE_SAME)).

(** A kernel that claims to have deduped one byte more than asked. *)
Definition kernel_greedy : DedupeKernel :=
  fun _ _ r => mkReply None (fun _ => (Src_length r + 1, FILE_DEDUPE_RANGE_SAME)).

(** [unix.Errno.Error] replaced by the number in decimal. *)
Definition Errno_decimal : Errno -> string := fun e => pretty e.

(** The [k]-th extent of a file laid out in blocks of 4096 bytes. *)
Definition extent_at (last : nat) (k : nat) : FiemapExtent.t :=
  FiemapExtent.mk (4096 * Z.of_nat k) (1048576 + 4096 * Z.of_nat k) 4096 (0, 0)
    (if (k =? last)%nat then FIEMAP_EXTENT_LAST else 0) (0, 0, 0).

(** A file of ten extents, the tenth flagged "last". *)
Definition file10 : list FiemapExtent.t := map (extent_at 9) (seq 0 10).

Definition visit_all : FiemapWalkCallback := fun _ _ => false.

(** A primitive that answers every query with one more extent of 4096
    bytes at the start asked for, never flagged "last". *)
Definition kernel_endless : FiemapKernel :=
  fun _ _ raw =>
    mkFiemapReply None 0 1 0
      [FiemapExtent.mk (rawFiemap.Start raw) 0 4096 (0, 0) 0 (0, 0, 0)].

Definition alloc_aligned : nat -> Z := fun n => 8 * Z.of_nat n.

(** * Properties of the loop combinator *)

Section LoopFacts.

Variables (kernel : DedupeKernel) (srcFd : Z) (progress : bool).

Lemma loop_S (fuel : nat) (s : State) :
  loop kernel srcFd progress (S fuel) s =
  match round kernel srcFd progress s with
  | (s', None) => loop kernel srcFd progress fuel s'
  | done => done
  end.
Proof. reflexivity. Qed.

Lemma loop_running_split (n m : nat) (s s' : State) :
  loop kernel srcFd progress n s = (s', None) ->
  loop kernel srcFd progress (n + m) s = loop kernel srcFd progress m s'.
Proof.
  revert s. induction n as [|n IH]; intros s H; simpl in *.
  - by inversion H.
  - destruct (round kernel srcFd progress s) as [s1 [x|]]; [discriminate|].
    by apply IH.
Qed.

Lemma loop_exited_stable (n m : nat) (s s' : State) (x : Exit) :
  loop kernel srcFd progress n s = (s', Some x) ->
  (n <= m)%nat ->
  loop kernel srcFd progress m s = (s', Some x).
Proof.
  revert m s. induction n as [|n IH]; intros m s H Hle; simpl in *.
  - discriminate.
  - destruct m as [|m]; [lia|]. simpl.
    destruct (round kernel srcFd progress s) as [s1 [y|]]; [done|].
    apply IH; [done|lia].
Qed.

(** A property kept by every iteration holds of every state a run
    passes through. *)
Lemma loop_invariant (P : State -> Prop) :
  (forall s s' e, P s -> round kernel srcFd progress s = (s', e) -> P s') ->
  forall fuel s, P s -> P (fst (loop kernel srcFd progress fuel s)).
Proof.
  intros Hstep fuel. induction fuel as [|fuel IH]; intros s Hs; simpl; [done|].
  destruct (round kernel srcFd progress s) as [s1 [y|]] eqn:E.
  - simpl. eapply Hstep; eauto.
  - apply IH. eapply Hstep; eauto.
Qed.

End LoopFacts.

(** Unfolds one iteration into its exit paths. *)
Ltac round_cases H :=
  unfold round, IoctlFileDedupeRange in H; simpl in H;
  repeat match type of H with
  | context [match ?x with _ => _ end] => destruct x eqn:?
  end;
  inversion H; subst; clear H.

(** * The caller's request object *)

Definition frame_info (t t' : FileDedupeRangeInfo) : Prop :=
  Dest_fd t' = Dest_fd t /\ Dest_offset t' = Dest_offset t /\ Reserved t' = Reserved t.

Definition frame (v v' : FileDedupeRange) : Prop :=
  Src_offset v' = Src_offset v /\ Src_length v' = Src_length v /\
  Reserved1 v' = Reserved1 v /\ Reserved2 v' = Reserved2 v /\
  Forall2 frame_info (Info v) (Info v').

Lemma frame_info_refl (l : list FileDedupeRangeInfo) : Forall2 frame_info l l.
Proof. induction l; constructor; auto. by unfold frame_info. Qed.

Lemma record_loop_frame (d : Z) (indices : list nat) (todo : list FileDedupeRangeInfo) :
  forall i base vinfo rinfo dl vinfo' rinfo' dl' ok,
    record_loop d indices i todo vinfo rinfo dl = (vinfo', rinfo', dl', ok) ->
    Forall2 frame_info base vinfo -> Forall2 frame_info base vinfo'.
Proof.
  induction todo as [|info todo IH]; intros i base vinfo rinfo dl vinfo' rinfo' dl' ok H Hb;
    simpl in H.
  - by inversion H; subst.
  - destruct (indices !! i) as [idx|]; [|by inversion H; subst].
    destruct (vinfo !! idx) as [t|]; [|by inversion H; subst].
    assert (Forall2 frame_info base (alter (accumulate info) idx vinfo)) as Hb'.
    { apply Forall2_alter_r; [done|]. intros x y _ _ (?&?&?). by unfold frame_info. }
    destruct (Status info =? FILE_DEDUPE_RANGE_SAME); eapply IH; eauto.
Qed.

Lemma round_frame kernel srcFd progress (v : FileDedupeRange) (s s' : State) e :
  frame v (st_value s) ->
  round kernel srcFd progress s = (s', e) ->
  frame v (st_value s').
Proof.
  intros Hf H. round_cases H; simpl; try done.
  all: destruct Hf as (?&?&?&?&Hi); repeat split; simpl; try done.
  all: eapply record_loop_frame; eauto.
Qed.

Lemma init_frame (v : FileDedupeRange) progress : frame v (st_value (init v progress)).
Proof. repeat split. apply frame_info_refl. Qed.

(** C9: on every exit path, and at every point of a run, the caller's
    request has the source offset, source length and reserved fields it
    had at entry, and every target record has the destination
    descriptor, destination offset and reserved field it had at entry:
    only [Bytes_deduped] and [Status] are written. *)
Theorem FileDedupeRangeFull_frame kernel fuel srcFd progress (value : option FileDedupeRange) :
  match value, out_value (FileDedupeRangeFull kernel fuel srcFd value progress) with
  | Some v, Some v' => frame v v'
  | None, None => True
  | _, _ => False
  end.
Proof.
  destruct value as [v|]; simpl; [|done].
  destruct (length (Info v) =? 0)%nat; simpl.
  - repeat split. apply frame_info_refl.
  - pose proof (loop_invariant kernel srcFd progress (fun s => frame v (st_value s))
      (fun s s' e Hs Hr => round_frame kernel srcFd progress v s s' e Hs Hr)
      fuel (init v progress) (init_frame v progress)) as H.
    destruct (loop kernel srcFd progress fuel (init v progress)) as [s e]. done.
Qed.

(** * The agreement check *)

Definition is_same (info : FileDedupeRangeInfo) : Prop :=
  Status info = FILE_DEDUPE_RANGE_SAME.

Definition agrees (d : Z) (info : FileDedupeRangeInfo) : Prop :=
  is_same info -> Bytes_deduped info = d.

Lemma check_loop_valid (infos : list FileDedupeRangeInfo) (d : Z) :
  forall d' v', check_loop infos d true = Some (d', v') ->
    d' = d /\ v' = true /\ Forall (agrees d) infos.
Proof.
  induction infos as [|info infos IH]; intros d' v' H; simpl in H.
  - by inversion H.
  - destruct (Status info =? FILE_DEDUPE_RANGE_SAME) eqn:Es; simpl in H.
    + destruct (Bytes_deduped info =? d) eqn:Eb; simpl in H; [|discriminate].
      destruct (IH _ _ H) as (?&?&?). repeat split; [done..|].
      constructor; [|done]. intros _. lia.
    + destruct (IH _ _ H) as (?&?&?). repeat split; [done..|].
      constructor; [|done]. unfold agrees, is_same. lia.
Qed.

Lemma check_loop_spec (infos : list FileDedupeRangeInfo) (d : Z) :
  forall d' v', check_loop infos d false = Some (d', v') ->
    Forall (agrees d') infos /\
    ((v' = false /\ d' = d /\ Forall (fun info => ~ is_same info) infos) \/
     (v' = true /\ exists info, info ∈ infos /\ is_same info /\ Bytes_deduped info = d')).
Proof.
  induction infos as [|info infos IH]; intros d' v' H; simpl in H.
  - inversion H; subst. split; [constructor|]. left. repeat split. constructor.
  - destruct (Status info =? FILE_DEDUPE_RANGE_SAME) eqn:Es; simpl in H.
    + rewrite Z.eqb_refl in H. simpl in H.
      apply check_loop_valid in H as (->&->&Hall).
      split; [constructor; [by intros _|done]|].
      right. split; [done|]. exists info. split; [left|]. split; [|done].
      unfold is_same. lia.
    + destruct (IH _ _ H) as [Hall Hor]. split.
      { constructor; [|done]. unfold agrees, is_same. lia. }
      destruct Hor as [(?&?&?)|(?&info'&?&?&?)].
      * left. repeat split; [done..|]. constructor; [|done]. unfold is_same. lia.
      * right. split; [done|]. exists info'. split; [by right|done].
Qed.

(** Two targets that report "same" with different byte counts make the
    check panic. *)
Lemma check_loop_mismatch (infos : list FileDedupeRangeInfo) (a b : FileDedupeRangeInfo) :
  a ∈ infos -> b ∈ infos -> is_same a -> is_same b ->
  Bytes_deduped a <> Bytes_deduped b ->
  check_loop infos 0 false = None.
Proof.
  intros Ha Hb Sa Sb Hne.
  destruct (check_loop infos 0 false) as [[d v]|] eqn:E; [|done].
  apply check_loop_spec in E as [Hall _].
  rewrite Forall_forall in Hall.
  pose proof (Hall a Ha Sa). pose proof (Hall b Hb Sb). congruence.
Qed.

(** * Byte accounting *)

Definition total (l : list Z) : Z := foldr Z.add 0 l.

Lemma total_snoc (l : list Z) (x : Z) : total (l ++ [x]) = total l + x.
Proof. induction l as [|y l IH]; simpl; lia. Qed.

Lemma wrap64_small (z : Z) : 0 <= z < 2 ^ 64 -> wrap64 z = z.
Proof. intros H. unfold wrap64. by apply Z.mod_small. Qed.

Lemma wrap64_range (z : Z) : 0 <= wrap64 z < 2 ^ 64.
Proof. unfold wrap64. apply Z.mod_pos_bound. lia. Qed.

Lemma read_back_bytes (outs : nat -> Z * Z) (l : list FileDedupeRangeInfo) info :
  info ∈ imap (read_back outs) l -> 0 <= Bytes_deduped info < 2 ^ 64.
Proof.
  intros [i Hi]%list_elem_of_lookup.
  apply list_lookup_imap_Some in Hi as (t & _ & ->). simpl. apply wrap64_range.
Qed.

Lemma agreed_range (outs : nat -> Z * Z) (l : list FileDedupeRangeInfo) d v :
  check_loop (imap (read_back outs) l) 0 false = Some (d, v) -> 0 <= d < 2 ^ 64.
Proof.
  intros [_ [(_&->&_)|(_&info&Hin&_&<-)]]%check_loop_spec; [lia|].
  by eapply read_back_bytes.
Qed.

Definition accounting (v : FileDedupeRange) (s : State) : Prop :=
  Forall (fun d => 0 <= d) (st_rounds s) /\
  Src_offset (st_req s) = wrap64 (Src_offset v + total (st_rounds s)) /\
  Src_length (st_req s) = Src_length v - total (st_rounds s) /\
  0 <= Src_length (st_req s) /\
  Src_length (st_value s) = Src_length v.

Lemma total_nonneg (l : list Z) : Forall (fun d => 0 <= d) l -> 0 <= total l.
Proof. intros H. induction H; simpl; lia. Qed.

Lemma wrap64_add_l (a b : Z) : wrap64 (wrap64 a + b) = wrap64 (a + b).
Proof. unfold wrap64. by rewrite Zplus_mod_idemp_l. Qed.

Lemma init_accounting (v : FileDedupeRange) progress :
  is_uint64 (Src_offset v) -> is_uint64 (Src_length v) ->
  accounting v (init v progress).
Proof.
  intros Ho Hl. unfold is_uint64 in *. repeat split; simpl; try lia.
  - constructor.
  - by rewrite Z.add_0_r, wrap64_small.
Qed.

Lemma round_accounting kernel srcFd progress (v : FileDedupeRange) (s s' : State) e :
  is_uint64 (Src_length v) -> accounting v s ->
  round kernel srcFd progress s = (s', e) ->
  accounting v s'.
Proof.
  intros Hl (Hr&Hoff&Hlen&Hpos&Hv) H. unfold is_uint64 in Hl.
  pose proof (total_nonneg _ Hr) as Ht.
  round_cases H; try (repeat split; simpl; done).
  all: match goal with Hc : check_loop _ _ _ = Some (?d, _) |- _ =>
         pose proof (agreed_range _ _ _ _ Hc) as Hd end.
  all: match goal with Hc : (_ <? _) = false |- _ => apply Z.ltb_ge in Hc end.
  all: simpl in *.
  all: repeat split; simpl;
         rewrite ?total_snoc, ?Hoff, ?wrap64_add_l, ?Z.add_assoc; try done;
         rewrite ?wrap64_small; try lia.
  all: try (apply Forall_app; split; [done|constructor; [lia|constructor]]).
Qed.

(** The caller's offset and length are uint64 values whose sum does not
    wrap. *)
Definition no_wrap (v : FileDedupeRange) : Prop :=
  0 <= Src_offset v /\ 0 <= Src_length v /\ Src_offset v + Src_length v < 2 ^ 64.

Lemma no_wrap_uint64 (v : FileDedupeRange) :
  no_wrap v -> is_uint64 (Src_offset v) /\ is_uint64 (Src_length v).
Proof. unfold no_wrap, is_uint64. lia. Qed.

(** * The progress callback *)

Definition call_bytes (c : ProgressCall) : Z := c.1.1.

Definition call_final (c : ProgressCall) : bool := c.2.

Definition nondecreasing (l : list Z) : Prop :=
  forall i j a b, (i <= j)%nat -> l !! i = Some a -> l !! j = Some b -> a <= b.

Lemma nondecreasing_snoc (l : list Z) (x : Z) :
  nondecreasing l -> Forall (fun a => a <= x) l -> nondecreasing (l ++ [x]).
Proof.
  intros Hl Hx i j a b Hij Ha Hb.
  destruct (decide (j < length l)%nat) as [Hj|Hj].
  - rewrite lookup_app_l in Ha, Hb by lia. eauto.
  - assert (b = x) as ->.
    { rewrite lookup_app_r in Hb by lia.
      destruct (j - length l)%nat; simpl in Hb; [congruence|done]. }
    destruct (decide (i < length l)%nat) as [Hi|Hi].
    + rewrite lookup_app_l in Ha by lia.
      rewrite Forall_forall in Hx. apply Hx. by eapply list_elem_of_lookup_2.
    + rewrite lookup_app_r in Ha by lia.
      destruct (i - length l)%nat; simpl in Ha; [|done]. inversion Ha. lia.
Qed.

Definition calls_so_far (s : State) : Prop :=
  Forall (fun c => call_final c = false /\ call_bytes c <= Src_offset (st_req s))
    (st_calls s) /\
  nondecreasing (map call_bytes (st_calls s)).

Lemma call_progress_bound progress (bound bound' x total : Z) calls :
  bound <= bound' -> x <= bound' ->
  Forall (fun c => call_final c = false /\ call_bytes c <= bound) calls ->
  Forall (fun c => call_final c = false /\ call_bytes c <= bound')
    (call_progress progress (x, total, false) calls).
Proof.
  intros Hb Hx Hc.
  assert (Forall (fun c => call_final c = false /\ call_bytes c <= bound') calls) as Hc'.
  { eapply Forall_impl; [exact Hc|]. intros c [? ?]. split; [done|lia]. }
  destruct progress; simpl; [|done].
  apply Forall_app. split; [done|]. constructor; [|constructor]. by split.
Qed.

Lemma call_progress_nondecreasing progress (bound x total : Z) calls :
  bound <= x ->
  Forall (fun c => call_final c = false /\ call_bytes c <= bound) calls ->
  nondecreasing (map call_bytes calls) ->
  nondecreasing (map call_bytes (call_progress progress (x, total, false) calls)).
Proof.
  intros Hb Hc Hn. destruct progress; simpl; [|done].
  rewrite map_app. simpl. apply nondecreasing_snoc; [done|].
  apply Forall_map. eapply Forall_impl; [exact Hc|]. intros c [_ ?]. simpl.
  unfold call_bytes in *. simpl. lia.
Qed.

Lemma init_calls (v : FileDedupeRange) progress :
  no_wrap v -> calls_so_far (init v progress).
Proof.
  intros (?&?&?). split; simpl.
  - eapply (call_progress_bound progress 0); try done.
  - eapply (call_progress_nondecreasing progress 0); try done.
Qed.

Lemma round_calls kernel srcFd progress (v : FileDedupeRange) (s s' : State) e :
  no_wrap v -> accounting v s -> calls_so_far s ->
  round kernel srcFd progress s = (s', e) ->
  calls_so_far s'.
Proof.
  intros (Ho&Hl&Hw) (Hr&Hoff&Hlen&Hpos&Hv) [Hc Hn] H.
  pose proof (total_nonneg _ Hr) as Ht.
  rewrite wrap64_small in Hoff by lia.
  round_cases H; try (split; simpl; done).
  all: match goal with Hc : check_loop _ _ _ = Some (?d, _) |- _ =>
         pose proof (agreed_range _ _ _ _ Hc) as Hd end.
  all: match goal with Hc : (_ <? _) = false |- _ => apply Z.ltb_ge in Hc end.
  all: simpl in *.
  all: split; simpl; rewrite wrap64_small by lia.
  all: first [ eapply call_progress_bound; [| |exact Hc]; lia
             | eapply call_progress_nondecreasing; [|exact Hc|exact Hn]; lia ].
Qed.

Definition final_call (exit : option Exit) : list ProgressCall :=
  match exit with Some _ => [(0, 0, true)] | None => [] end.

Definition uint64_request (value : option FileDedupeRange) : Prop :=
  match value with Some v => no_wrap v | None => True end.

Lemma loop_calls kernel srcFd progress (v : FileDedupeRange) fuel :
  no_wrap v ->
  calls_so_far (fst (loop kernel srcFd progress fuel (init v progress))).
Proof.
  intros Hv.
  pose proof (loop_invariant kernel srcFd progress
    (fun s => accounting v s /\ calls_so_far s)) as H.
  destruct (no_wrap_uint64 v Hv) as [Ho Hl].
  apply H; [|split; [by apply init_accounting|by apply init_calls]].
  intros s s' e [Ha Hc] Hr. split.
  - eapply round_accounting; eauto.
  - eapply round_calls; eauto.
Qed.

(** What a round adds to the calls of the callback: nothing when it
    leaves the function before line 117, and otherwise one call that
    carries the source offset of the request as the round leaves it. *)
Lemma round_calls_step kernel srcFd (s s' : State) e :
  round kernel srcFd true s = (s', e) ->
  Src_length (st_value s') = Src_length (st_value s) /\
  ((st_calls s' = st_calls s /\ e <> None) \/
   st_calls s' =
     st_calls s ++ [(Src_offset (st_req s'), Src_length (st_value s), false)]).
Proof.
  intros H. round_cases H; simpl; (split; [done|]);
    first [by left | by right].
Qed.

(** The calls made in the first [n] rounds: the call of line 82, then
    one call for each round that got to line 118. *)
Lemma loop_calls_by_round kernel srcFd (v : FileDedupeRange) (n : nat) :
  Src_length (st_value (loop kernel srcFd true n (init v true)).1) = Src_length v /\
  (length (st_calls (loop kernel srcFd true n (init v true)).1) <= S n)%nat /\
  ((loop kernel srcFd true n (init v true)).2 = None ->
   length (st_calls (loop kernel srcFd true n (init v true)).1) = S n) /\
  st_calls (loop kernel srcFd true n (init v true)).1 !! 0%nat =
    Some (0, Src_length v, false) /\
  forall j c, st_calls (loop kernel srcFd true n (init v true)).1 !! S j = Some c ->
    c = (Src_offset (st_req (loop kernel srcFd true (S j) (init v true)).1),
         Src_length v, false).
Proof.
  induction n as [|n (Hv & Hle & Hlen & H0 & HS)].
  - simpl. split; [done|]. split; [lia|]. split; [done|]. split; [done|].
    by intros j c Hj.
  - destruct (loop kernel srcFd true n (init v true)) as [s0 [x|]] eqn:E0.
    + rewrite (loop_exited_stable _ _ _ n (S n) _ _ _ E0) by lia.
      cbn [fst snd] in *.
      split; [done|]. split; [lia|]. split; [done|]. by split.
    + cbn [fst snd] in Hv, Hle, Hlen, H0, HS. specialize (Hlen eq_refl).
      destruct (round kernel srcFd true s0) as [s' e'] eqn:Er.
      assert (loop kernel srcFd true (S n) (init v true) = (s', e')) as Hs'.
      { replace (S n) with (n + 1)%nat by lia.
        rewrite (loop_running_split _ _ _ n 1 _ _ E0). simpl. rewrite Er.
        by destruct e'. }
      rewrite Hs'. cbn [fst snd].
      destruct (round_calls_step _ _ _ _ _ Er) as [Hv' [[Hc He]|Hc]]; rewrite Hc.
      * split; [congruence|]. split; [lia|]. split; [done|]. by split.
      * split; [congruence|]. rewrite length_app. cbn [length]. split; [lia|].
        split; [intros _; lia|]. split.
        { by apply lookup_app_l_Some. }
        intros j c Hj. apply lookup_app_Some in Hj as [Hj|[Hge Hj]]; [by apply HS|].
        unfold ProgressCall in *. rewrite Hlen in Hge, Hj.
        destruct (S j - S n)%nat eqn:Ed; simpl in Hj; [|done].
        assert (j = n) as -> by lia. inversion Hj; subst c. by rewrite Hs', Hv.
Qed.

(** C2 (amended): for a request whose offset plus length fits in 64
    bits, the calls of the progress callback are a sequence of calls
    with [exit] false, whose byte counts never decrease, followed, as
    soon as the function is left by return or panic, by exactly one
    call [(0, 0, true)].  For a request with a target, the first call
    is [(0, Src_length, false)], and the one after it at position
    [j + 1] carries the source offset of [req] as it stands after
    [j + 1] rounds, with the caller's [Src_length] as the total. *)
Theorem progress_calls_shape kernel fuel srcFd (value : option FileDedupeRange) :
  uint64_request value ->
  let o := FileDedupeRangeFull kernel fuel srcFd value true in
  exists pre,
    out_calls o = pre ++ final_call (out_exit o) /\
    Forall (fun c => call_final c = false) pre /\
    nondecreasing (map call_bytes pre) /\
    (forall v, value = Some v -> Info v <> [] ->
       pre !! 0%nat = Some (0, Src_length v, false) /\
       forall j c, pre !! S j = Some c ->
         c = (Src_offset (st_req (loop kernel srcFd true (S j) (init v true)).1),
              Src_length v, false)).
Proof.
  intros Hv. destruct value as [v|]; simpl.
  - destruct (length (Info v) =? 0)%nat eqn:E; simpl.
    + exists []. split_and!; [done|constructor|by intros i j a b _ Ha|].
      intros v' Hv' Hne. inversion Hv'; subst v'. apply Nat.eqb_eq in E.
      by destruct (Info v).
    + pose proof (loop_calls kernel srcFd true v fuel Hv) as [Hc Hn].
      pose proof (loop_calls_by_round kernel srcFd v fuel) as (_ & _ & _ & H0 & HS).
      destruct (loop kernel srcFd true fuel (init v true)) as [s e]. simpl in *.
      exists (st_calls s).
      split; [destruct e; simpl; [done|by rewrite app_nil_r]|]. split; [|split; [done|]].
      * eapply Forall_impl; [exact Hc|]. by intros c [? _].
      * intros v' Hv' _. by inversion Hv'; subst v'.
  - exists []. split_and!; [done|constructor|by intros i j a b _ Ha|done].
Qed.

Lemma progress_calls_shape_witness :
  let o := FileDedupeRangeFull (kernel_capped 4) 5 3
             (Some (request 10 [target 7; target 8])) true in
  exists pre,
    out_calls o = pre ++ final_call (out_exit o) /\
    Forall (fun c => call_final c = false) pre /\
    nondecreasing (map call_bytes pre) /\
    (forall v, Some (request 10 [target 7; target 8]) = Some v -> Info v <> [] ->
       pre !! 0%nat = Some (0, Src_length v, false) /\
       forall j c, pre !! S j = Some c ->
         c = (Src_offset (st_req (loop (kernel_capped 4) 3 true (S j) (init v true)).1),
              Src_length v, false)).
Proof.
  apply (progress_calls_shape (kernel_capped 4) 5 3
           (Some (request 10 [target 7; target 8]))).
  vm_compute. repeat split; discriminate.
Defined.

(** C2, as stated, fails.  The final call carries a byte count of zero,
    below the counts delivered before it.  And when offset plus length
    does not fit in 64 bits, a primitive that accepts the request makes
    the source offset wrap around, so that the counts of the calls
    before the final one decrease as well. *)
Lemma progress_final_call_resets :
  (map call_bytes
     (out_calls (FileDedupeRangeFull (kernel_capped 4) 5 3
                   (Some (request 10 [target 7; target 8])) true)) = [0; 4; 8; 10; 0] /\
   ~ nondecreasing [0; 4; 8; 10; 0]) /\
  (out_calls (FileDedupeRangeFull (kernel_capped 4) 5 3
                (Some (mkRange (2 ^ 64 - 6) 10 0 0 [target 7])) true) =
     [(0, 10, false); (2 ^ 64 - 2, 10, false); (2, 10, false); (4, 10, false);
      (0, 0, true)] /\
   ~ nondecreasing [0; 2 ^ 64 - 2; 2; 4]).
Proof.
  split; split; [reflexivity| |reflexivity|].
  - intros H. specialize (H 3%nat 4%nat 10 0). simpl in H.
    assert (10 <= 0) by (apply H; [lia|done|done]). lia.
  - intros H. specialize (H 1%nat 2%nat (2 ^ 64 - 2) 2). simpl in H.
    assert (2 ^ 64 - 2 <= 2) by (apply H; [lia|done|done]). lia.
Qed.

(** * Recording the results of a round *)

Lemma record_loop_length (d : Z) (indices : list nat) (todo : list FileDedupeRangeInfo) :
  forall i vinfo rinfo dl vinfo' rinfo' dl' ok,
    record_loop d indices i todo vinfo rinfo dl = (vinfo', rinfo', dl', ok) ->
    length vinfo' = length vinfo /\ length rinfo' = length rinfo.
Proof.
  induction todo as [|info todo IH]; intros i vinfo rinfo dl vinfo' rinfo' dl' ok H;
    simpl in H.
  - by inversion H.
  - destruct (indices !! i) as [idx|]; [|by inversion H].
    destruct (vinfo !! idx) as [t|]; [|by inversion H].
    destruct (Status info =? FILE_DEDUPE_RANGE_SAME);
      apply IH in H as [-> ->]; by rewrite !length_alter.
Qed.

(** A caller's record that no later position of [indices] names is
    left alone. *)
Lemma record_loop_untouched (d : Z) (indices : list nat) (todo : list FileDedupeRangeInfo) :
  forall i vinfo rinfo dl vinfo' rinfo' dl' ok idx,
    record_loop d indices i todo vinfo rinfo dl = (vinfo', rinfo', dl', ok) ->
    (forall k, (i <= k)%nat -> indices !! k <> Some idx) ->
    vinfo' !! idx = vinfo !! idx.
Proof.
  induction todo as [|info todo IH];
    intros i vinfo rinfo dl vinfo' rinfo' dl' ok idx H Hidx; simpl in H.
  - by inversion H.
  - destruct (indices !! i) as [idx0|] eqn:Ei; [|by inversion H].
    destruct (vinfo !! idx0) as [t|]; [|by inversion H].
    assert (idx0 <> idx) by (intros ->; by apply (Hidx i)).
    destruct (Status info =? FILE_DEDUPE_RANGE_SAME);
      (eapply IH in H; [rewrite H; by apply list_lookup_alter_ne|];
       intros k Hk; apply Hidx; lia).
Qed.

(** With no index repeated, the record of each live target receives
    exactly the results of that target. *)
Lemma record_loop_lookup (d : Z) (indices : list nat) (todo : list FileDedupeRangeInfo) :
  NoDup indices ->
  forall i vinfo rinfo dl vinfo' rinfo' dl' j info,
    record_loop d indices i todo vinfo rinfo dl = (vinfo', rinfo', dl', true) ->
    todo !! j = Some info ->
    exists idx t, indices !! (i + j)%nat = Some idx /\ vinfo !! idx = Some t /\
                  vinfo' !! idx = Some (accumulate info t).
Proof.
  intros Hnd. induction todo as [|info0 todo IH];
    intros i vinfo rinfo dl vinfo' rinfo' dl' j info H Hj; simpl in H; [done|].
  destruct (indices !! i) as [idx0|] eqn:Ei; [|by inversion H].
  destruct (vinfo !! idx0) as [t0|] eqn:Et; [|by inversion H].
  destruct j as [|j]; simpl in Hj.
  - inversion Hj; subst info0. exists idx0, t0. rewrite Nat.add_0_r.
    split; [done|]. split; [done|].
    assert (vinfo' !! idx0 = alter (accumulate info) idx0 vinfo !! idx0) as ->.
    { destruct (Status info =? FILE_DEDUPE_RANGE_SAME);
        (eapply record_loop_untouched; [exact H|]);
        intros k Hk Hk'; assert (i = k) by (eapply NoDup_lookup; eauto); lia. }
    by rewrite list_lookup_alter_eq, Et.
  - assert (exists idx t, indices !! (S i + j)%nat = Some idx /\
              alter (accumulate info0) idx0 vinfo !! idx = Some t /\
              vinfo' !! idx = Some (accumulate info t)) as (idx & t & Hi & Ht & Hv).
    { destruct (Status info0 =? FILE_DEDUPE_RANGE_SAME); eapply IH; eauto. }
    exists idx, t. replace (i + S j)%nat with (S i + j)%nat by lia.
    split; [done|]. split; [|done].
    rewrite list_lookup_alter_ne in Ht; [done|].
    intros ->. assert (i = S i + j)%nat by (eapply NoDup_lookup; eauto). lia.
Qed.

Lemma record_loop_ok (d : Z) (indices : list nat) (todo : list FileDedupeRangeInfo) :
  forall i vinfo rinfo dl,
    (forall j, (j < length todo)%nat ->
       exists idx, indices !! (i + j)%nat = Some idx /\ (idx < length vinfo)%nat) ->
    (record_loop d indices i todo vinfo rinfo dl).2 = true.
Proof.
  induction todo as [|info todo IH]; intros i vinfo rinfo dl Hin; simpl; [done|].
  destruct (Hin 0%nat) as (idx & Hi & Hlt); [simpl; lia|].
  rewrite Nat.add_0_r in Hi. rewrite Hi.
  destruct (lookup_lt_is_Some_2 vinfo idx Hlt) as [t ->].
  destruct (Status info =? FILE_DEDUPE_RANGE_SAME);
    (apply IH; intros j Hj; rewrite length_alter;
     replace (S i + j)%nat with (i + S j)%nat by lia; apply Hin; simpl; lia).
Qed.

(** The positions, counted from [i], of the targets that did not
    report "same". *)
Fixpoint non_same_from (i : nat) (todo : list FileDedupeRangeInfo) : list nat :=
  match todo with
  | [] => []
  | info :: todo' =>
    if Status info =? FILE_DEDUPE_RANGE_SAME then non_same_from (S i) todo'
    else i :: non_same_from (S i) todo'
  end.

Lemma record_loop_dropList (d : Z) (indices : list nat) (todo : list FileDedupeRangeInfo) :
  forall i vinfo rinfo dl vinfo' rinfo' dl',
    record_loop d indices i todo vinfo rinfo dl = (vinfo', rinfo', dl', true) ->
    dl' = dl ++ non_same_from i todo.
Proof.
  induction todo as [|info todo IH]; intros i vinfo rinfo dl vinfo' rinfo' dl' H;
    simpl in H |- *.
  - inversion H. by rewrite app_nil_r.
  - destruct (indices !! i) as [idx|]; [|by inversion H].
    destruct (vinfo !! idx) as [t|]; [|by inversion H].
    destruct (Status info =? FILE_DEDUPE_RANGE_SAME).
    + by eapply IH.
    + apply IH in H. by rewrite <- app_assoc in H.
Qed.

Lemma non_same_from_bound (todo : list FileDedupeRangeInfo) (i : nat) :
  Forall (fun k => (i <= k < i + length todo)%nat) (non_same_from i todo).
Proof.
  revert i. induction todo as [|info todo IH]; intros i; simpl; [constructor|].
  assert (Forall (fun k => (i <= k < i + S (length todo))%nat)
            (non_same_from (S i) todo)) as H.
  { eapply Forall_impl; [apply IH|]. simpl. lia. }
  destruct (Status info =? FILE_DEDUPE_RANGE_SAME); [done|].
  constructor; [lia|done].
Qed.

Lemma non_same_from_all (todo : list FileDedupeRangeInfo) (i : nat) :
  Forall (fun info => ~ is_same info) todo ->
  non_same_from i todo = seq i (length todo).
Proof.
  intros H. revert i. induction H as [|info todo Hn _ IH]; intros i; simpl; [done|].
  destruct (Status info =? FILE_DEDUPE_RANGE_SAME) eqn:E.
  - exfalso. apply Hn. unfold is_same. lia.
  - by rewrite IH.
Qed.

Lemma non_same_from_none (todo : list FileDedupeRangeInfo) (i : nat) :
  non_same_from i todo = [] -> Forall is_same todo.
Proof.
  revert i. induction todo as [|info todo IH]; intros i H; simpl in H; [constructor|].
  destruct (Status info =? FILE_DEDUPE_RANGE_SAME) eqn:E; [|done].
  constructor; [unfold is_same; lia|by eapply IH].
Qed.

(** * Dropping targets *)

(** What [drop] is meant to compute: [l], whose first element stands at
    position [k], without the positions listed in [dl]. *)
Fixpoint remove_at {A : Type} (dl : list nat) (k : nat) (l : list A) : list A :=
  match l with
  | [] => []
  | x :: l' =>
    match dl with
    | d :: dl' =>
      if (k =? d)%nat then remove_at dl' (S k) l' else x :: remove_at dl (S k) l'
    | [] => x :: remove_at [] (S k) l'
    end
  end.

Lemma remove_at_sublist {A : Type} (l : list A) :
  forall dl k, remove_at dl k l `sublist_of` l.
Proof.
  induction l as [|x l IH]; intros dl k; simpl; [done|].
  destruct dl as [|d dl]; [by constructor|].
  destruct (k =? d)%nat; by constructor.
Qed.

Lemma remove_at_length {A : Type} (l : list A) (dl : list nat) (k : nat) :
  (length (remove_at dl k l) <= length l)%nat.
Proof. apply sublist_length, remove_at_sublist. Qed.

Lemma compact_copy {A : Type} (l : list A) (dst k : nat) (y : A) :
  (dst < length l)%nat -> (dst < k)%nat ->
  take (S dst) (<[dst:=y]> l) = take dst l ++ [y] /\
  drop (S k) (<[dst:=y]> l) = drop (S k) l.
Proof.
  intros Hd Hk. split.
  - erewrite take_S_r; [|by apply list_lookup_insert_eq].
    by rewrite take_insert_ge by lia.
  - by rewrite drop_insert_lt by lia.
Qed.

Lemma take_drop_S {A : Type} (l : list A) (k m : nat) (y : A) :
  l !! k = Some y -> take (S m) (drop k l) = y :: take m (drop (S k) l).
Proof. intros H. by rewrite (drop_S l y k H). Qed.

Lemma take_drop_none {A : Type} (l : list A) (k m : nat) :
  l !! k = None -> take m (drop k l) = [].
Proof.
  intros H%lookup_ge_None. rewrite drop_ge by lia. apply take_nil.
Qed.

Lemma drop_loop_spec (dl : list nat) :
  forall m k di dst rinfo indices dst' rinfo' indices',
    drop_loop dl (seq k m) di dst rinfo indices = (dst', rinfo', indices', true) ->
    (dst + di = k)%nat ->
    (di = 0%nat -> exists d0, dl !! 0%nat = Some d0 /\ (k <= d0 < length rinfo)%nat) ->
    (dst <= length rinfo)%nat ->
    length indices = length rinfo ->
    (dst' <= length rinfo)%nat /\ length rinfo' = length rinfo /\
    length indices' = length indices /\
    take dst' rinfo' =
      take dst rinfo ++ remove_at (drop di dl) k (take m (drop k rinfo)) /\
    take dst' indices' =
      take dst indices ++ remove_at (drop di dl) k (take m (drop k indices)).
Proof.
  induction m as [|m IH]; intros k di dst rinfo indices dst' rinfo' indices' H Hk H0 Hd Hl;
    simpl in H.
  - inversion H; subst. simpl. by rewrite !app_nil_r.
  - destruct (dl !! di) as [d|] eqn:Ed; [|done].
    rewrite (drop_S dl d di Ed).
    destruct (k =? d)%nat eqn:Ekd.
    + apply IH in H; [|lia|lia|done..].
      destruct H as (?&?&?&Hr&Hi). repeat split; try done.
      * rewrite Hr. f_equal. destruct (rinfo !! k) as [x|] eqn:Ex.
        -- rewrite (take_drop_S _ _ _ _ Ex). simpl. by rewrite Ekd.
        -- rewrite (take_drop_none _ _ _ Ex).
           apply lookup_ge_None in Ex. by rewrite (drop_ge rinfo (S k)), take_nil by lia.
      * rewrite Hi. f_equal. destruct (indices !! k) as [x|] eqn:Ex.
        -- rewrite (take_drop_S _ _ _ _ Ex). simpl. by rewrite Ekd.
        -- rewrite (take_drop_none _ _ _ Ex).
           apply lookup_ge_None in Ex. by rewrite (drop_ge indices (S k)), take_nil by lia.
    + destruct (k =? dst)%nat eqn:Eks.
      * apply Nat.eqb_eq in Eks. subst dst. assert (di = 0%nat) as -> by lia.
        destruct (H0 eq_refl) as (d0 & Hd0 & Hr). rewrite Hd0 in Ed.
        inversion Ed; subst d0. apply Nat.eqb_neq in Ekd.
        destruct (lookup_lt_is_Some_2 rinfo k) as [x Ex]; [lia|].
        destruct (lookup_lt_is_Some_2 indices k) as [y Ey]; [lia|].
        apply IH in H; [|lia| |lia|done].
        2:{ intros _. exists d. split; [done|lia]. }
        destruct H as (?&?&?&Hr'&Hi'). repeat split; try done.
        -- rewrite Hr', (take_S_r _ _ _ Ex), (take_drop_S _ _ _ _ Ex). simpl.
           apply Nat.eqb_neq in Ekd. rewrite Ekd, <- app_assoc. simpl.
           by rewrite (drop_S dl d 0 Hd0).
        -- rewrite Hi', (take_S_r _ _ _ Ey), (take_drop_S _ _ _ _ Ey). simpl.
           apply Nat.eqb_neq in Ekd. rewrite Ekd, <- app_assoc. simpl.
           by rewrite (drop_S dl d 0 Hd0).
      * apply Nat.eqb_neq in Eks.
        destruct (rinfo !! k) as [x|] eqn:Ex; [|done].
        destruct (dst <? length rinfo)%nat eqn:Elt; [|done].
        apply Nat.ltb_lt in Elt.
        destruct (indices !! k) as [y|] eqn:Ey; [|done].
        destruct (dst <? length indices)%nat eqn:Elt'; [|done].
        apply Nat.ltb_lt in Elt'.
        apply IH in H; rewrite ?length_insert in *; [|lia|lia|lia|done].
        destruct H as (?&?&?&Hr'&Hi'). repeat split; try done.
        -- destruct (compact_copy rinfo dst k x) as [Ht Hdr]; [lia..|].
           rewrite Hr', Ht, Hdr, (take_drop_S _ _ _ _ Ex). simpl.
           rewrite Ekd, <- app_assoc. simpl. by rewrite (drop_S dl d di Ed).
        -- destruct (compact_copy indices dst k y) as [Ht Hdr]; [lia..|].
           rewrite Hi', Ht, Hdr, (take_drop_S _ _ _ _ Ey). simpl.
           rewrite Ekd, <- app_assoc. simpl. by rewrite (drop_S dl d di Ed).
Qed.

(** When every live position is listed, nothing is kept. *)
Lemma drop_loop_all (len : nat) :
  forall m k rinfo indices,
    (drop_loop (seq 0 len) (seq k m) k 0 rinfo indices).1.1.1 = 0%nat.
Proof.
  induction m as [|m IH]; intros k rinfo indices; simpl; [done|].
  destruct (seq 0 len !! k) as [d|] eqn:E; [|done].
  apply lookup_seq in E as [-> _]. simpl. rewrite Nat.eqb_refl. apply IH.
Qed.

Lemma reslice_within {A : Type} (k : nat) (vis spare : list A) :
  (k <= length vis)%nat ->
  reslice k vis spare = Some (take k vis, drop k (vis ++ spare)).
Proof.
  intros H. unfold reslice.
  destruct (k <=? length vis + length spare)%nat eqn:E.
  - by rewrite take_app_le.
  - apply Nat.leb_gt in E. lia.
Qed.

Lemma drop_targets_all (n : nat) rinfo spare indices ispare
    rinfo' spare' indices' ispare' :
  drop_targets n (seq 0 (length rinfo)) rinfo spare indices ispare =
    (rinfo', spare', indices', ispare', true) ->
  rinfo' = [].
Proof.
  unfold drop_targets. rewrite length_seq.
  destruct (length rinfo =? 0)%nat eqn:E0.
  { intros H. inversion H; subst. apply Nat.eqb_eq in E0. by destruct rinfo'. }
  pose proof (drop_loop_all (length rinfo) n 0 rinfo indices) as Hz.
  destruct (drop_loop (seq 0 (length rinfo)) (seq 0 n) 0 0 rinfo indices)
    as [[[dst r1] i1] ok]. simpl in Hz. subst dst.
  destruct ok; [|by intros H; inversion H].
  unfold reslice. simpl. intros H. by inversion H.
Qed.

(** Which elements stay when the targets that did not report "same"
    are dropped: [infos] holds the reports, [l] the slice. *)
Fixpoint survivors {A : Type} (infos : list FileDedupeRangeInfo) (l : list A) : list A :=
  match infos, l with
  | info :: infos', x :: l' =>
    if Status info =? FILE_DEDUPE_RANGE_SAME then x :: survivors infos' l'
    else survivors infos' l'
  | _, _ => []
  end.

Lemma remove_at_non_same {A : Type} (infos : list FileDedupeRangeInfo) :
  forall (l : list A) k, (length l <= length infos)%nat ->
    remove_at (non_same_from k infos) k l = survivors infos l.
Proof.
  induction infos as [|info infos IH]; intros l k Hl; simpl.
  - destruct l; [done|simpl in Hl; lia].
  - destruct l as [|x l]; [done|]. simpl in Hl |- *.
    destruct (Status info =? FILE_DEDUPE_RANGE_SAME).
    + pose proof (non_same_from_bound infos (S k)) as Hb.
      destruct (non_same_from (S k) infos) as [|d dl] eqn:E.
      * rewrite <- E, IH by lia. done.
      * apply Forall_cons in Hb as [Hd _].
        destruct (k =? d)%nat eqn:Ek; [apply Nat.eqb_eq in Ek; lia|].
        rewrite <- E, IH by lia. done.
    + rewrite Nat.eqb_refl. apply IH. lia.
Qed.

Lemma survivors_all_same {A : Type} (infos : list FileDedupeRangeInfo) :
  forall l : list A, Forall is_same infos -> (length l <= length infos)%nat ->
    survivors infos l = l.
Proof.
  intros l H. revert l. induction H as [|info infos Hs _ IH]; intros l Hl.
  - destruct l; [done|simpl in Hl; lia].
  - destruct l as [|x l]; [done|]. simpl in Hl |- *.
    unfold is_same in Hs. rewrite Hs, Z.eqb_refl, IH; [done|lia].
Qed.

Lemma survivors_sublist {A : Type} (infos : list FileDedupeRangeInfo) :
  forall l : list A, survivors infos l `sublist_of` l.
Proof.
  induction infos as [|info infos IH]; intros l; simpl.
  - destruct l; [done|]. apply sublist_nil_l.
  - destruct l as [|x l]; [done|].
    destruct (Status info =? FILE_DEDUPE_RANGE_SAME); by constructor.
Qed.

Lemma survivors_length {A B : Type} (infos : list FileDedupeRangeInfo) :
  forall (l : list A) (l' : list B), length l = length l' ->
    length (survivors infos l) = length (survivors infos l').
Proof.
  induction infos as [|info infos IH]; intros l l' H; simpl.
  - by destruct l, l'.
  - destruct l, l'; simpl in H; try done.
    destruct (Status info =? FILE_DEDUPE_RANGE_SAME); simpl; auto.
Qed.

(** A position whose target did not report "same" does not survive. *)
Lemma survivors_drops {A : Type} (infos : list FileDedupeRangeInfo) :
  forall (l : list A) j info x, NoDup l ->
    infos !! j = Some info -> l !! j = Some x -> ~ is_same info ->
    x ∉ survivors infos l.
Proof.
  induction infos as [|info0 infos IH]; intros l j info x Hnd Hi Hx Hs; [done|].
  destruct l as [|x0 l]; [done|]. apply NoDup_cons in Hnd as [Hx0 Hnd].
  destruct j as [|j]; simpl in Hi, Hx |- *.
  - inversion Hi; inversion Hx; subst.
    destruct (Status info =? FILE_DEDUPE_RANGE_SAME) eqn:E.
    { exfalso. apply Hs. unfold is_same. lia. }
    intros Hin. apply Hx0. eapply elem_of_sublist; [exact Hin|apply survivors_sublist].
  - assert (x ∉ survivors infos l) as Hn by (eapply IH; eauto).
    destruct (Status info0 =? FILE_DEDUPE_RANGE_SAME); [|done].
    apply not_elem_of_cons. split; [|done].
    intros ->. apply Hx0. by eapply list_elem_of_lookup_2.
Qed.

Lemma drop_targets_exact (n : nat) (infos : list FileDedupeRangeInfo)
    rinfo spare indices ispare rinfo' spare' indices' ispare' :
  drop_targets n (non_same_from 0 infos) rinfo spare indices ispare =
    (rinfo', spare', indices', ispare', true) ->
  length rinfo = length infos -> length indices = length infos ->
  (length infos <= n)%nat ->
  rinfo' = survivors infos rinfo /\ indices' = survivors infos indices.
Proof.
  intros H Hr Hi Hn. unfold drop_targets in H.
  destruct (length (non_same_from 0 infos) =? 0)%nat eqn:E0.
  { inversion H; subst. apply Nat.eqb_eq in E0.
    assert (non_same_from 0 infos = []) as E by (by destruct (non_same_from 0 infos)).
    apply non_same_from_none in E. by rewrite !survivors_all_same by (done || lia). }
  destruct (drop_loop (non_same_from 0 infos) (seq 0 n) 0 0 rinfo indices)
    as [[[dst r1] i1] ok] eqn:E.
  destruct ok; [|by inversion H].
  apply drop_loop_spec in E as (Hdst & Hlr & Hli & Er & Ei); [|done| |lia|lia].
  2:{ intros _. pose proof (non_same_from_bound infos 0) as Hb.
      destruct (non_same_from 0 infos) as [|d0 dl]; [done|].
      apply Forall_cons in Hb as [Hd _]. exists d0. split; [done|]. lia. }
  rewrite !reslice_within in H by lia. inversion H; subst.
  rewrite Er, Ei. simpl. rewrite !drop_0, !take_ge by lia.
  by rewrite !remove_at_non_same by lia.
Qed.

(** * The live targets *)

(** What the targets of the request in flight report back. *)
Definition reports (kernel : DedupeKernel) (srcFd : Z) (s : State)
    : list FileDedupeRangeInfo :=
  Info (IoctlFileDedupeRange kernel (length (st_ioctls s)) srcFd (st_req s)).1.

Lemma reports_length kernel srcFd (s : State) :
  length (reports kernel srcFd s) = length (Info (st_req s)).
Proof. unfold reports. simpl. apply length_imap. Qed.

Lemma reports_bytes kernel srcFd (s : State) info :
  info ∈ reports kernel srcFd s -> 0 <= Bytes_deduped info < 2 ^ 64.
Proof. apply read_back_bytes. Qed.

Definition live (s : State) : Prop :=
  NoDup (st_indices s) /\
  length (st_indices s) = length (Info (st_req s)) /\
  (length (Info (st_req s)) <= length (Info (st_value s)))%nat /\
  Forall (fun i => (i < length (Info (st_value s)))%nat) (st_indices s).

Lemma init_live (v : FileDedupeRange) progress : live (init v progress).
Proof.
  repeat split; simpl.
  - apply NoDup_seq.
  - by rewrite length_seq.
  - done.
  - apply Forall_seq. lia.
Qed.

(** An iteration after which the loop goes on: the checks passed, the
    results were recorded, and the live targets are those that
    reported "same". *)
Lemma round_running kernel srcFd progress (s s' : State) :
  live s ->
  round kernel srcFd progress s = (s', None) ->
  exists d valid vinfo rinfo,
    check_loop (reports kernel srcFd s) 0 false = Some (d, valid) /\
    d <= Src_length (st_req s) /\
    record_loop d (st_indices s) 0 (reports kernel srcFd s) (Info (st_value s))
      (reports kernel srcFd s) [] =
      (vinfo, rinfo, non_same_from 0 (reports kernel srcFd s), true) /\
    st_value s' = set_Info vinfo (st_value s) /\
    Info (st_req s') = survivors (reports kernel srcFd s) rinfo /\
    st_indices s' = survivors (reports kernel srcFd s) (st_indices s) /\
    Src_length (st_req s') = wrap64 (Src_length (st_req s) - d) /\
    Src_length (st_req s') <> 0 /\
    Info (st_req s') <> [] /\
    st_rounds s' = st_rounds s ++ [d].
Proof.
  intros (Hnd & Hlen & Hle & Hin) H. round_cases H.
  match goal with H : record_loop _ _ _ _ _ _ _ = (?v, ?r, ?l, ?b) |- _ =>
    rename H into Hrec; rename v into vinfo; rename r into rinfo;
    rename l into dl; destruct b; [|done] end.
  match goal with H : drop_targets _ _ _ _ _ _ = (_, _, _, _, ?b) |- _ =>
    rename H into Hdrop; destruct b; [|done] end.
  pose proof (record_loop_dropList _ _ _ _ _ _ _ _ _ _ Hrec) as Hdl.
  simpl in Hdl. subst dl.
  pose proof (record_loop_length _ _ _ _ _ _ _ _ _ _ _ Hrec) as [Hlv Hlr].
  apply drop_targets_exact in Hdrop as [-> ->];
    rewrite ?Hlr, ?length_imap; [|done|done|done].
  eexists _, _, vinfo, rinfo. unfold reports. simpl.
  split; [eassumption|]. split; [lia|]. split; [exact Hrec|].
  split; [done|]. split; [done|]. split; [done|]. split; [done|].
  split; [lia|]. split; [|done].
  match goal with H : (length ?l =? 0)%nat = false |- _ =>
    apply Nat.eqb_neq in H; by destruct l end.
Qed.

Lemma round_live kernel srcFd progress (s s' : State) :
  live s -> round kernel srcFd progress s = (s', None) -> live s'.
Proof.
  intros Hl H. pose proof Hl as (Hnd & Hlen & Hle & Hin).
  destruct (round_running _ _ _ _ _ Hl H)
    as (d & valid & vinfo & rinfo & _ & _ & Hrec & Hv & Hr & Hi & _).
  pose proof (record_loop_length _ _ _ _ _ _ _ _ _ _ _ Hrec) as [Hlv Hlr].
  rewrite reports_length in Hlr.
  unfold live. rewrite Hv, Hr, Hi. simpl. rewrite Hlv.
  split; [eapply sublist_NoDup; [exact Hnd|apply survivors_sublist]|].
  split; [apply survivors_length; lia|].
  split.
  - etrans; [apply sublist_length, survivors_sublist|]. lia.
  - rewrite Forall_forall in Hin |- *. intros x Hx. apply Hin.
    eapply elem_of_sublist; [exact Hx|apply survivors_sublist].
Qed.

(** * Runs *)

Section Runs.

Variables (kernel : DedupeKernel) (srcFd : Z) (progress : bool).

Local Abbreviation rnd := (round kernel srcFd progress).
Local Abbreviation run := (loop kernel srcFd progress).

(** A property kept by every iteration that does not leave the loop
    holds of every state at the head of the loop. *)
Lemma loop_running_invariant (R : State -> Prop) :
  (forall s s', R s -> rnd s = (s', None) -> R s') ->
  forall n s s', R s -> run n s = (s', None) -> R s'.
Proof.
  intros Hstep n. induction n as [|n IH]; intros s s' Hs H; simpl in H.
  - by inversion H; subst.
  - destruct (rnd s) as [s1 [x|]] eqn:E; [done|]. eauto.
Qed.

Lemma loop_invariant_with (R Q : State -> Prop) :
  (forall s s', R s -> rnd s = (s', None) -> R s') ->
  (forall s s' e, R s -> Q s -> rnd s = (s', e) -> Q s') ->
  forall n s, R s -> Q s -> Q (run n s).1.
Proof.
  intros HR HQ n. induction n as [|n IH]; intros s Hr Hq; simpl; [done|].
  destruct (rnd s) as [s1 [x|]] eqn:E; simpl; eauto.
Qed.

(** A relation that holds across every iteration holds between any
    two states of a run. *)
Lemma loop_relation (R : State -> Prop) (Rel : State -> State -> Prop) :
  (forall s, Rel s s) ->
  (forall s s' s'', R s -> rnd s = (s', None) -> Rel s' s'' -> Rel s s'') ->
  (forall s s' x, R s -> rnd s = (s', Some x) -> Rel s s') ->
  (forall s s', R s -> rnd s = (s', None) -> R s') ->
  forall n m s, R s -> (n <= m)%nat -> Rel (run n s).1 (run m s).1.
Proof.
  intros Hrefl Hpre Hfin HR.
  assert (forall m s, R s -> Rel s (run m s).1) as H0.
  { induction m as [|m IH]; intros s Hs; simpl; [done|].
    destruct (rnd s) as [s1 [x|]] eqn:E; simpl; eauto. }
  induction n as [|n IH]; intros m s Hs Hle; simpl; [by apply H0|].
  destruct m as [|m]; [lia|]. simpl.
  destruct (rnd s) as [s1 [x|]] eqn:E; simpl; [done|].
  apply IH; [eauto|lia].
Qed.

Lemma loop_step_running (n : nat) (s0 s s' : State) :
  run n s0 = (s, None) -> rnd s = (s', None) -> run (S n) s0 = (s', None).
Proof.
  intros H Hr. replace (S n) with (n + 1)%nat by lia.
  rewrite (loop_running_split _ _ _ _ _ _ _ H). simpl. by rewrite Hr.
Qed.

Lemma loop_step_exit (n : nat) (s0 s s' : State) (x : Exit) :
  run n s0 = (s, None) -> rnd s = (s', Some x) -> run (S n) s0 = (s', Some x).
Proof.
  intros H Hr. replace (S n) with (n + 1)%nat by lia.
  rewrite (loop_running_split _ _ _ _ _ _ _ H). simpl. by rewrite Hr.
Qed.

Variable v : FileDedupeRange.

(** The states at the head of the run in the run on [v]. *)
Definition reachable (s : State) : Prop :=
  exists n, run n (init v progress) = (s, None).

Definition sound (s : State) : Prop := live s /\ accounting v s.

Hypothesis Hoff : is_uint64 (Src_offset v).
Hypothesis Hlen : is_uint64 (Src_length v).

Lemma init_sound : sound (init v progress).
Proof. split; [apply init_live|by apply init_accounting]. Qed.

Lemma round_sound (s s' : State) :
  sound s -> rnd s = (s', None) -> sound s'.
Proof.
  intros [Hl Ha] H. split; [by eapply round_live|by eapply round_accounting].
Qed.

Lemma reachable_sound (s : State) : reachable s -> sound s.
Proof.
  intros [n Hn]. eapply (loop_running_invariant sound); [|apply init_sound|exact Hn].
  apply round_sound.
Qed.

Lemma sound_length_range (s : State) : sound s -> 0 <= Src_length (st_req s) < 2 ^ 64.
Proof.
  intros [_ (Hr & _ & Hl & Hp & _)]. pose proof (total_nonneg _ Hr).
  unfold is_uint64 in Hlen. lia.
Qed.


(** ** Termination *)

Lemma survivors_nonempty {A : Type} (infos : list FileDedupeRangeInfo) (l : list A) :
  survivors infos l <> [] -> exists info, info ∈ infos /\ is_same info.
Proof.
  revert l. induction infos as [|info infos IH]; intros l H; simpl in H.
  - by destruct l.
  - destruct l as [|x l]; [done|].
    destruct (Status info =? FILE_DEDUPE_RANGE_SAME) eqn:E.
    + exists info. split; [left|]. unfold is_same. lia.
    + destruct (IH _ H) as (info' & ? & ?). exists info'. split; [by right|done].
Qed.

(** The byte count of a round that the run survives is the count of
    some target that reported "same". *)
Lemma round_running_agreed (s s' : State) :
  live s -> rnd s = (s', None) ->
  exists d info,
    st_rounds s' = st_rounds s ++ [d] /\
    Src_length (st_req s') = wrap64 (Src_length (st_req s) - d) /\
    0 <= d <= Src_length (st_req s) /\
    info ∈ reports kernel srcFd s /\ is_same info /\ Bytes_deduped info = d.
Proof.
  intros Hl H.
  destruct (round_running _ _ _ _ _ Hl H)
    as (d & valid & vinfo & rinfo & Hc & Hd & _ & _ & Hr & _ & Hlen' & _ & Hne & Hrounds).
  rewrite Hr in Hne. apply survivors_nonempty in Hne as (info & Hin & Hs).
  exists d, info. split; [done|]. split; [done|].
  pose proof (agreed_range _ _ _ _ Hc).
  apply check_loop_spec in Hc as [Hall _].
  rewrite Forall_forall in Hall. split; [lia|]. split; [done|]. split; [done|].
  by apply Hall.
Qed.

(** No target reports "same" together with zero bytes. *)
Definition no_stalled_report (s : State) : Prop :=
  Forall (fun info => is_same info -> 0 < Bytes_deduped info) (reports kernel srcFd s).

Lemma loop_terminates (k : nat) :
  (forall s, reachable s -> no_stalled_report s) ->
  forall s, reachable s -> Src_length (st_req s) < Z.of_nat k ->
    exists s' x, run k s = (s', Some x).
Proof.
  intros Hns. induction k as [|k IH]; intros s Hs Hk.
  - pose proof (sound_length_range s (reachable_sound s Hs)). lia.
  - simpl. destruct (rnd s) as [s1 [x|]] eqn:E; [by eauto|].
    pose proof (reachable_sound s Hs) as [Hl Ha].
    destruct (round_running_agreed _ _ Hl E) as (d & info & _ & Hlen' & Hd & Hin & Hsame & Hb).
    pose proof (Hns s Hs) as Hpos. unfold no_stalled_report in Hpos.
    rewrite Forall_forall in Hpos. specialize (Hpos info Hin Hsame).
    pose proof (sound_length_range s (conj Hl Ha)).
    apply IH.
    + destruct Hs as [n Hn]. exists (S n). by eapply loop_step_running.
    + rewrite Hlen', wrap64_small; lia.
Qed.

(** An iteration that agrees on zero bytes and drops no target. *)
Definition stalled (a b : State) : Prop :=
  Src_length (st_req b) = Src_length (st_req a) /\
  length (Info (st_req b)) = length (Info (st_req a)).

Definition measure (s : State) : Z :=
  Src_length (st_req s) + Z.of_nat (length (Info (st_req s))).

Lemma round_measure (s s' : State) :
  sound s -> rnd s = (s', None) -> stalled s s' \/ measure s' + 1 <= measure s.
Proof.
  intros [Hl Ha] E.
  destruct (round_running_agreed _ _ Hl E) as (d & info & _ & Hlen' & Hd & _).
  destruct (round_running _ _ _ _ _ Hl E)
    as (d' & valid & vinfo & rinfo & _ & _ & Hrec & _ & Hr & _).
  pose proof (record_loop_length _ _ _ _ _ _ _ _ _ _ _ Hrec) as [_ Hlr].
  rewrite reports_length in Hlr.
  pose proof (sublist_length _ _ (survivors_sublist (reports kernel srcFd s) rinfo)) as Hsl.
  rewrite <- Hr, Hlr in Hsl.
  pose proof (sound_length_range s (conj Hl Ha)).
  rewrite wrap64_small in Hlen' by lia.
  unfold stalled, measure.
  destruct (decide (d = 0)) as [->|];
    destruct (decide (length (Info (st_req s')) = length (Info (st_req s)))); lia.
Qed.

Lemma loop_measure (k : nat) :
  forall s s', sound s -> run k s = (s', None) ->
    (exists j, (j < k)%nat /\ stalled (run j s).1 (run (S j) s).1) \/
    measure s' + Z.of_nat k <= measure s.
Proof.
  induction k as [|k IH]; intros s s' Hs H.
  - simpl in H. inversion H; subst. right. lia.
  - rewrite loop_S in H. destruct (rnd s) as [s1 [x|]] eqn:E; [done|].
    destruct (IH _ _ (round_sound _ _ Hs E) H) as [(j & Hj & Hst)|Hm].
    + left. exists (S j). split; [lia|]. by rewrite !loop_S, !E in *.
    + destruct (round_measure _ _ Hs E) as [Hst|Hdec].
      * left. exists 0%nat. split; [lia|]. simpl. by rewrite E.
      * right. lia.
Qed.

End Runs.

(** * When FileDedupeRangeFull returns *)

Lemma round_returns_nil kernel srcFd progress (s s' : State) :
  round kernel srcFd progress s = (s', Some ReturnNil) ->
  Src_length (st_req s') = 0 \/ Info (st_req s') = [].
Proof.
  intros H. round_cases H; simpl.
  - left. lia.
  - right. match goal with H : (length ?l =? 0)%nat = true |- _ =>
      apply Nat.eqb_eq in H; by destruct l end.
Qed.

Lemma round_goes_on kernel srcFd progress (s s' : State) :
  round kernel srcFd progress s = (s', None) ->
  Src_length (st_req s') <> 0 /\ Info (st_req s') <> [].
Proof.
  intros H. round_cases H; simpl. split; [lia|].
  match goal with H : (length ?l =? 0)%nat = false |- _ =>
    apply Nat.eqb_neq in H; by destruct l end.
Qed.

(** * The accumulated byte counts *)

(** With no index repeated, a record of the caller receives the
    results of at most one target. *)
Lemma record_loop_at_most_once (d : Z) (indices : list nat)
    (todo : list FileDedupeRangeInfo) :
  NoDup indices ->
  forall i vinfo rinfo dl vinfo' rinfo' dl' ok idx t,
    record_loop d indices i todo vinfo rinfo dl = (vinfo', rinfo', dl', ok) ->
    vinfo !! idx = Some t ->
    vinfo' !! idx = Some t \/
    exists info, info ∈ todo /\ vinfo' !! idx = Some (accumulate info t).
Proof.
  intros Hnd. induction todo as [|info0 todo IH];
    intros i vinfo rinfo dl vinfo' rinfo' dl' ok idx t H Ht; simpl in H.
  - inversion H; subst. by left.
  - destruct (indices !! i) as [idx0|] eqn:Ei; [|inversion H; subst; by left].
    destruct (vinfo !! idx0) as [t0|] eqn:Et; [|inversion H; subst; by left].
    destruct (decide (idx0 = idx)) as [->|Hne].
    + right. exists info0. split; [left|].
      assert (vinfo' !! idx = alter (accumulate info0) idx vinfo !! idx) as ->.
      { destruct (Status info0 =? FILE_DEDUPE_RANGE_SAME);
          (eapply record_loop_untouched; [exact H|]);
          intros k Hk Hk'; assert (i = k) by (eapply NoDup_lookup; eauto); lia. }
      by rewrite list_lookup_alter_eq, Ht.
    + assert (alter (accumulate info0) idx0 vinfo !! idx = Some t) as Ht'
        by (by rewrite list_lookup_alter_ne).
      assert (vinfo' !! idx = Some t \/
              exists info, info ∈ todo /\ vinfo' !! idx = Some (accumulate info t))
        as [?|(info & ? & ?)].
      { destruct (Status info0 =? FILE_DEDUPE_RANGE_SAME); eapply IH; eauto. }
      * by left.
      * right. exists info. split; [by right|done].
Qed.

(** What an iteration does to the caller's records and to the count of
    rounds: nothing, or one pass of the recording loop. *)
Lemma round_value kernel srcFd progress (s s' : State) e :
  round kernel srcFd progress s = (s', e) ->
  (st_value s' = st_value s /\ st_rounds s' = st_rounds s) \/
  exists d valid vinfo rinfo dl ok,
    check_loop (reports kernel srcFd s) 0 false = Some (d, valid) /\
    d <= Src_length (st_req s) /\
    record_loop d (st_indices s) 0 (reports kernel srcFd s) (Info (st_value s))
      (reports kernel srcFd s) [] = (vinfo, rinfo, dl, ok) /\
    st_value s' = set_Info vinfo (st_value s) /\
    st_rounds s' = st_rounds s ++ [d].
Proof.
  intros H. round_cases H; try (by left).
  all: right; unfold reports; simpl.
  all: match goal with Hc : (_ <? _) = false |- _ => apply Z.ltb_ge in Hc end.
  all: do 6 eexists; split; [eassumption|]; split; [done|];
       split; [eassumption|]; done.
Qed.

Section Accumulation.

Variables (kernel : DedupeKernel) (srcFd : Z) (progress : bool).
Variable v : FileDedupeRange.

Local Abbreviation rnd := (round kernel srcFd progress).
Local Abbreviation run := (loop kernel srcFd progress).

Definition bounded (s : State) : Prop :=
  forall i t, Info (st_value s) !! i = Some t ->
    0 <= Bytes_deduped t <= total (st_rounds s).

Definition grows (a b : State) : Prop :=
  forall i t, Info (st_value a) !! i = Some t ->
    exists t', Info (st_value b) !! i = Some t' /\
               Bytes_deduped t <= Bytes_deduped t'.

Definition frozen (a b : State) : Prop :=
  forall i, i ∉ st_indices a -> Info (st_value b) !! i = Info (st_value a) !! i.

(** A target that does not report "same" reports zero bytes. *)
Definition clean_report (s : State) : Prop :=
  Forall (fun info => ~ is_same info -> Bytes_deduped info = 0)
    (reports kernel srcFd s).

Lemma round_frozen (s s' : State) e : rnd s = (s', e) -> frozen s s'.
Proof.
  intros H i Hi. unfold frozen in *.
  destruct (round_value _ _ _ _ _ _ H)
    as [[-> _]|(d & valid & vinfo & rinfo & dl & ok & _ & _ & Hrec & -> & _)]; [done|].
  simpl. eapply record_loop_untouched; [exact Hrec|].
  intros k _ Hk. apply Hi. by eapply list_elem_of_lookup_2.
Qed.

Hypothesis Hoff : is_uint64 (Src_offset v).
Hypothesis Hlen : is_uint64 (Src_length v).

Lemma round_bytes (s s' : State) e :
  sound v s -> bounded s -> clean_report s ->
  rnd s = (s', e) ->
  bounded s' /\ grows s s'.
Proof.
  intros [(Hnd & _) (Hr & _ & Hl & Hp & _)] Hb Hc H. unfold bounded, grows in *.
  destruct (round_value _ _ _ _ _ _ H)
    as [[-> ->]|(d & valid & vinfo & rinfo & dl & ok & Hchk & Hd & Hrec & -> & ->)].
  { split; [done|]. intros i t Ht. exists t. split; [done|lia]. }
  pose proof (agreed_range _ _ _ _ Hchk) as Hd0.
  apply check_loop_spec in Hchk as [Hall _].
  unfold clean_report in Hc. rewrite Forall_forall in Hall, Hc.
  unfold is_uint64 in Hlen. pose proof (total_nonneg _ Hr) as Ht0.
  assert (forall info, info ∈ reports kernel srcFd s ->
            0 <= Bytes_deduped info <= d) as Hinfo.
  { intros info Hin. destruct (decide (is_same info)) as [Hs|Hs].
    - rewrite (Hall info Hin Hs). lia.
    - rewrite (Hc info Hin Hs). lia. }
  assert (forall i t, Info (st_value s) !! i = Some t ->
            exists t', vinfo !! i = Some t' /\
              Bytes_deduped t <= Bytes_deduped t' <= total (st_rounds s) + d) as Hstep.
  { intros i t Ht. pose proof (Hb i t Ht).
    destruct (record_loop_at_most_once _ _ _ Hnd _ _ _ _ _ _ _ _ _ _ Hrec Ht)
      as [?|(info & Hin & ?)].
    - exists t. split; [done|lia].
    - exists (accumulate info t). split; [done|]. simpl.
      pose proof (Hinfo info Hin). rewrite wrap64_small; lia. }
  split.
  - intros i t' Ht'. simpl in Ht'. rewrite total_snoc.
    pose proof (record_loop_length _ _ _ _ _ _ _ _ _ _ _ Hrec) as [Hlv _].
    destruct (lookup_lt_is_Some_2 (Info (st_value s)) i) as [t Ht].
    { rewrite <- Hlv. by eapply lookup_lt_Some. }
    destruct (Hstep i t Ht) as (t'' & Ht'' & ?). pose proof (Hb i t Ht).
    rewrite Ht' in Ht''. inversion Ht''; subst. lia.
  - intros i t Ht. simpl. destruct (Hstep i t Ht) as (t' & ? & ?).
    exists t'. split; [done|lia].
Qed.

Hypothesis Hclean : forall s, reachable kernel srcFd progress v s -> clean_report s.

Definition steady (s : State) : Prop :=
  reachable kernel srcFd progress v s /\ sound v s /\ bounded s.

Lemma round_steady (s s' : State) : steady s -> rnd s = (s', None) -> steady s'.
Proof.
  intros (Hr & Hs & Hb) H. split; [|split].
  - destruct Hr as [n Hn]. exists (S n). by eapply loop_step_running.
  - by eapply round_sound.
  - by eapply round_bytes; eauto.
Qed.

Hypothesis Hzero : Forall (fun t => Bytes_deduped t = 0) (Info v).

Lemma init_steady : steady (init v progress).
Proof.
  split; [by exists 0%nat|]. split; [by apply init_sound|].
  intros i t Ht. simpl in Ht. rewrite Forall_forall in Hzero.
  rewrite (Hzero t); [simpl; lia|]. by eapply list_elem_of_lookup_2.
Qed.

Lemma loop_bounded (n : nat) : bounded (run n (init v progress)).1.
Proof.
  apply (loop_invariant_with kernel srcFd progress steady bounded).
  - apply round_steady.
  - intros s s' e (Hr & Hs & _) Hb H. eapply round_bytes; eauto.
  - apply init_steady.
  - apply init_steady.
Qed.

Lemma loop_grows_frozen (n m : nat) :
  (n <= m)%nat ->
  grows (run n (init v progress)).1 (run m (init v progress)).1 /\
  frozen (run n (init v progress)).1 (run m (init v progress)).1.
Proof.
  apply (loop_relation kernel srcFd progress steady
           (fun a b => grows a b /\ frozen a b)).
  - intros s. split; [|done]. intros i t Ht. exists t. split; [done|lia].
  - intros s s' s'' (Hr & Hs & Hb) H [Hg Hf].
    pose proof (round_bytes _ _ _ Hs Hb (Hclean s Hr) H) as [_ Hg'].
    pose proof (round_frozen _ _ _ H) as Hf'.
    destruct Hs as [Hl _].
    destruct (round_running _ _ _ _ _ Hl H) as (d & valid & vinfo & rinfo & Hrun).
    destruct Hrun as (_ & _ & _ & _ & _ & Hi & _).
    split.
    + intros i t Ht. destruct (Hg' i t Ht) as (t' & Ht' & ?).
      destruct (Hg i t' Ht') as (t'' & ? & ?). exists t''. split; [done|lia].
    + intros i Hin. rewrite Hf, Hf'; [done..|].
      intros Hin'. apply Hin. rewrite Hi in Hin'.
      eapply elem_of_sublist; [exact Hin'|apply survivors_sublist].
  - intros s s' x (Hr & Hs & Hb) H. split.
    + by eapply round_bytes; eauto.
    + by eapply round_frozen.
  - apply round_steady.
  - apply init_steady.
Qed.

Lemma loop_accounting (n : nat) : accounting v (run n (init v progress)).1.
Proof.
  apply (loop_invariant kernel srcFd progress (accounting v)).
  - intros s s' e Ha H. by eapply round_accounting.
  - by apply init_accounting.
Qed.

End Accumulation.

(** * Exits *)

Lemma check_loop_agreed_valid (infos : list FileDedupeRangeInfo) (d : Z) :
  Forall (agrees d) infos -> check_loop infos d true = Some (d, true).
Proof.
  intros H. induction H as [|info infos Ha _ IH]; simpl; [done|].
  destruct (Status info =? FILE_DEDUPE_RANGE_SAME) eqn:E; simpl; [|done].
  rewrite Ha by (unfold is_same; lia). by rewrite Z.eqb_refl.
Qed.

Lemma check_loop_agreed (infos : list FileDedupeRangeInfo) (a : FileDedupeRangeInfo) d0 :
  Forall (agrees (Bytes_deduped a)) infos -> a ∈ infos -> is_same a ->
  check_loop infos d0 false = Some (Bytes_deduped a, true).
Proof.
  intros H. revert d0. induction H as [|info infos Ha Hall IH]; intros d0 Hin Hs.
  - by apply elem_of_nil in Hin.
  - simpl. destruct (Status info =? FILE_DEDUPE_RANGE_SAME) eqn:E; simpl.
    + rewrite Z.eqb_refl. simpl. rewrite <- (Ha ltac:(unfold is_same; lia)).
      apply check_loop_agreed_valid.
      rewrite (Ha ltac:(unfold is_same; lia)). exact Hall.
    + apply elem_of_cons in Hin as [->|Hin]; [|by apply IH].
      unfold is_same in Hs. lia.
Qed.

Section Exits.

Variables (kernel : DedupeKernel) (srcFd : Z) (progress : bool).

Local Abbreviation rnd := (round kernel srcFd progress).
Local Abbreviation run := (loop kernel srcFd progress).

Definition primitive_ok (s : State) : Prop :=
  reply_err (kernel (length (st_ioctls s)) srcFd (st_req s)) = None.

Lemma round_varying (s : State) (a b : FileDedupeRangeInfo) :
  primitive_ok s ->
  a ∈ reports kernel srcFd s -> b ∈ reports kernel srcFd s ->
  is_same a -> is_same b -> Bytes_deduped a <> Bytes_deduped b ->
  (rnd s).2 = Some (Panic msg_varying).
Proof.
  intros Hok Ha Hb Sa Sb Hne. unfold primitive_ok in Hok.
  pose proof (check_loop_mismatch _ _ _ Ha Hb Sa Sb Hne) as Hc.
  unfold reports in Hc. simpl in Hc.
  unfold round, IoctlFileDedupeRange. simpl. by rewrite Hok, Hc.
Qed.

Lemma round_more (s : State) (a : FileDedupeRangeInfo) :
  primitive_ok s ->
  a ∈ reports kernel srcFd s -> is_same a ->
  Forall (agrees (Bytes_deduped a)) (reports kernel srcFd s) ->
  Src_length (st_req s) < Bytes_deduped a ->
  (rnd s).2 = Some (Panic msg_more).
Proof.
  intros Hok Ha Sa Hall Hlt. unfold primitive_ok in Hok.
  pose proof (check_loop_agreed _ _ 0 Hall Ha Sa) as Hc.
  unfold reports in Hc. simpl in Hc.
  unfold round, IoctlFileDedupeRange. simpl. rewrite Hok, Hc.
  apply Z.ltb_lt in Hlt. by rewrite Hlt.
Qed.

(** An iteration that leaves the function decides how the call ends. *)
Lemma FileDedupeRangeFull_exit (v : FileDedupeRange) (n fuel : nat) (s : State) (x : Exit) :
  Info v <> [] ->
  run n (init v progress) = (s, None) ->
  (rnd s).2 = Some x ->
  (n < fuel)%nat ->
  out_exit (FileDedupeRangeFull kernel fuel srcFd (Some v) progress) = Some x.
Proof.
  intros Hne Hn Hr Hlt. unfold FileDedupeRangeFull.
  destruct (length (Info v) =? 0)%nat eqn:E.
  { apply Nat.eqb_eq in E. by destruct (Info v). }
  destruct (rnd s) as [s' e] eqn:Er. simpl in Hr. subst e.
  pose proof (loop_step_exit _ _ _ _ _ _ _ _ Hn Er) as Hs.
  by rewrite (loop_exited_stable _ _ _ _ _ _ _ _ Hs Hlt).
Qed.

End Exits.

(** * A request of length zero *)

Lemma copy_of_request (v : FileDedupeRange) : st_req (init v true) = v.
Proof. by destruct v. Qed.

Lemma st_req_init (v : FileDedupeRange) progress : st_req (init v progress) = v.
Proof. by destruct v. Qed.

(** The first iteration on a request of length zero leaves the
    function, whatever the primitive answers. *)
Lemma round_zero_length kernel srcFd progress (v : FileDedupeRange) (s' : State) e :
  Src_length v = 0 ->
  round kernel srcFd progress (init v progress) = (s', e) ->
  st_ioctls s' = [v] /\
  ((e = Some ReturnNil /\
    forall j t, Info v !! j = Some t ->
      Info (st_value s') !! j =
        Some (accumulate (read_back (reply_out (kernel 0%nat srcFd v)) j t) t)) \/
   (st_value s' = v /\
    exists x, e = Some x /\ x <> ReturnNil /\ x <> IndexOutOfRange)).
Proof.
  intros Hz H.
  assert (mkRange (Src_offset v) (Src_length v) (Reserved1 v) (Reserved2 v) (Info v) = v)
    as Hcopy by (by destruct v).
  assert (forall d vinfo rinfo dl ok,
            record_loop d (seq 0 (length (Info v))) 0
              (reports kernel srcFd (init v progress)) (Info v)
              (reports kernel srcFd (init v progress)) [] = (vinfo, rinfo, dl, ok) ->
            ok = true /\
            forall j t, Info v !! j = Some t ->
              vinfo !! j =
                Some (accumulate (read_back (reply_out (kernel 0%nat srcFd v)) j t) t))
    as Hrecord.
  { intros d vinfo rinfo dl ok Hrec.
    assert (ok = true) as ->.
    { pose proof (record_loop_ok d (seq 0 (length (Info v)))
        (reports kernel srcFd (init v progress)) 0 (Info v)
        (reports kernel srcFd (init v progress)) []) as Hok.
      rewrite Hrec in Hok. apply Hok. intros j Hj. exists j.
      rewrite reports_length, st_req_init in Hj.
      split; [by apply lookup_seq_lt|done]. }
    split; [done|]. intros j t Ht.
    assert (reports kernel srcFd (init v progress) !! j =
            Some (read_back (reply_out (kernel 0%nat srcFd v)) j t)) as Hj.
    { unfold reports. simpl. rewrite list_lookup_imap, Hcopy. by rewrite Ht. }
    destruct (record_loop_lookup _ _ _ (NoDup_seq 0 _) _ _ _ _ _ _ _ _ _ Hrec Hj)
      as (idx & t' & Hidx & Ht' & Hres).
    simpl in Hidx. apply lookup_seq in Hidx as [-> _]. simpl in Ht', Hres.
    rewrite Ht in Ht'. by inversion Ht'; subst. }
  unfold reports in Hrecord. simpl in Hrecord.
  round_cases H; simpl; rewrite ?Hcopy.
  all: (split; [done|]).
  all: try (right; split; [done|]; eexists; split; [done|]; split; discriminate).
  all: match goal with Hc : check_loop _ _ _ = Some (?d, _) |- _ =>
         pose proof (agreed_range _ _ _ _ Hc) as Hd end.
  all: match goal with Hc : (_ <? _) = false |- _ =>
         apply Z.ltb_ge in Hc; rewrite Hz in Hc end.
  all: match goal with Hr : record_loop _ _ _ _ _ _ _ = _ |- _ =>
         destruct (Hrecord _ _ _ _ _ Hr) as [-> Hres] end; try done.
  all: try (by left).
  all: exfalso; match goal with H : (wrap64 _ =? 0) = false |- _ =>
         rewrite Hz, wrap64_small in H by lia; lia end.
Qed.

(** * How a run of the loop ends *)

Section LoopEnds.

Variables (kernel : DedupeKernel) (srcFd : Z) (progress : bool).

(** A run that has left the loop did so in one iteration, reached
    through iterations that went on. *)
Lemma loop_exit_inv (fuel : nat) (s s' : State) (x : Exit) :
  loop kernel srcFd progress fuel s = (s', Some x) ->
  exists n s0, (n < fuel)%nat /\
    loop kernel srcFd progress n s = (s0, None) /\
    round kernel srcFd progress s0 = (s', Some x).
Proof.
  revert s. induction fuel as [|fuel IH]; intros s H; simpl in H; [done|].
  destruct (round kernel srcFd progress s) as [s1 [y|]] eqn:E.
  - inversion H; subst. exists 0%nat, s. split; [lia|]. by split.
  - destruct (IH _ H) as (n & s0 & Hn & Hl & Hr).
    exists (S n), s0. split; [lia|]. split; [|done]. simpl. by rewrite E.
Qed.

(** A run still in the loop after at least one iteration has just
    finished an iteration that went on. *)
Lemma loop_running_inv (fuel : nat) (s s' : State) :
  loop kernel srcFd progress (S fuel) s = (s', None) ->
  exists s0, loop kernel srcFd progress fuel s = (s0, None) /\
    round kernel srcFd progress s0 = (s', None).
Proof.
  revert s. induction fuel as [|fuel IH]; intros s H.
  - simpl in H. destruct (round kernel srcFd progress s) as [s1 [y|]] eqn:E; [done|].
    inversion H; subst. by exists s.
  - rewrite loop_S in H.
    destruct (round kernel srcFd progress s) as [s1 [y|]] eqn:E; [done|].
    destruct (IH _ H) as (s0 & Hl & Hr). exists s0. split; [|done].
    rewrite loop_S. by rewrite E.
Qed.

End LoopEnds.

(** The calls recorded while the function runs are not final. *)
Definition calls_not_final (s : State) : Prop :=
  Forall (fun c => call_final c = false) (st_calls s).

Lemma round_calls_not_final kernel srcFd progress (s s' : State) e :
  calls_not_final s -> round kernel srcFd progress s = (s', e) -> calls_not_final s'.
Proof.
  unfold calls_not_final. intros Hc H. round_cases H; simpl; try done.
  all: destruct progress; simpl; try done.
  all: apply Forall_app; split; [done|]; by repeat constructor.
Qed.

Lemma init_calls_not_final (v : FileDedupeRange) progress :
  calls_not_final (init v progress).
Proof.
  unfold calls_not_final. destruct progress; simpl; by repeat constructor.
Qed.

Lemma kernel_capped_clean (cap srcFd : Z) (s : State) :
  clean_report (kernel_capped cap) srcFd s.
Proof.
  unfold clean_report, reports. simpl. apply Forall_forall.
  intros info [i Hi]%list_elem_of_lookup.
  apply list_lookup_imap_Some in Hi as (t & _ & ->). intros Hn. by destruct Hn.
Qed.

Lemma reachable_goes_on kernel srcFd progress (v : FileDedupeRange) (s : State) :
  reachable kernel srcFd progress v s ->
  s = init v progress \/ (Src_length (st_req s) <> 0 /\ Info (st_req s) <> []).
Proof.
  intros [[|n] Hn].
  - simpl in Hn. inversion Hn. by left.
  - right. apply loop_running_inv in Hn as (s0 & _ & Hr). by eapply round_goes_on.
Qed.

Lemma kernel_capped_no_stall (cap srcFd : Z) (progress : bool) (v : FileDedupeRange) :
  0 < cap -> is_uint64 (Src_offset v) -> is_uint64 (Src_length v) ->
  0 < Src_length v ->
  forall s, reachable (kernel_capped cap) srcFd progress v s ->
    no_stalled_report (kernel_capped cap) srcFd s.
Proof.
  intros Hcap Hoff Hlen Hpos s Hs.
  pose proof (reachable_sound _ _ _ _ Hoff Hlen s Hs) as Hsound.
  pose proof (sound_length_range _ Hlen s Hsound) as Hrange.
  assert (Src_length (st_req s) <> 0) as Hne.
  { destruct (reachable_goes_on _ _ _ _ _ Hs) as [->|[? _]]; [simpl; lia|done]. }
  unfold no_stalled_report, reports. simpl. apply Forall_forall.
  intros info [i Hi]%list_elem_of_lookup.
  apply list_lookup_imap_Some in Hi as (t & _ & ->). intros _. simpl.
  rewrite wrap64_small; lia.
Qed.

(** * The claims about FileDedupeRangeFull *)

(** C1: a target that is dropped does not leave the run going with the
    remaining ones.  Two targets, ten bytes asked; in the first round
    the first target reports "differs" and the second "same" with five
    bytes: the results of the round are recorded at the original
    positions, and then [drop] indexes its drop list past its end. *)
Theorem drop_first_target_panics :
  let o := FileDedupeRangeFull kernel_first_differs 5 3
             (Some (request 10 [target 7; target 8])) true in
  out_exit o = Some IndexOutOfRange /\
  out_value o = Some (mkRange 0 10 0 0 [mkInfo 7 0 0 1 0; mkInfo 8 0 5 0 0]) /\
  out_ioctls o = [request 10 [target 7; target 8]] /\
  out_calls o = [(0, 10, false); (5, 10, false); (0, 0, true)].
Proof. vm_compute. done. Qed.

(** C3 (amended): a request of length zero with at least one target
    is handed to the primitive once, unchanged, and the first round
    leaves the function; the final progress call is delivered once, as
    the last call; on [return nil] every record holds the status the
    primitive reported and its initial byte count plus the reported
    one, and on any other exit the request is as the caller passed
    it. *)
Theorem zero_length_request kernel fuel srcFd (v : FileDedupeRange) :
  Src_length v = 0 -> Info v <> [] -> (0 < fuel)%nat ->
  let o := FileDedupeRangeFull kernel fuel srcFd (Some v) true in
  out_ioctls o = [v] /\
  (exists pre, out_calls o = pre ++ [(0, 0, true)] /\
     Forall (fun c => call_final c = false) pre) /\
  ((out_exit o = Some ReturnNil /\
    exists v', out_value o = Some v' /\
      forall j t, Info v !! j = Some t ->
        Info v' !! j =
          Some (accumulate (read_back (reply_out (kernel 0%nat srcFd v)) j t) t)) \/
   (out_value o = Some v /\
    exists x, out_exit o = Some x /\ x <> ReturnNil /\ x <> IndexOutOfRange)).
Proof.
  intros Hz Hne Hfuel. unfold FileDedupeRangeFull.
  destruct (length (Info v) =? 0)%nat eqn:E.
  { apply Nat.eqb_eq in E. by destruct (Info v). }
  destruct fuel as [|fuel]; [lia|]. rewrite loop_S.
  destruct (round kernel srcFd true (init v true)) as [s' e] eqn:Er.
  pose proof (round_calls_not_final _ _ _ _ _ _ (init_calls_not_final v true) Er) as Hc.
  destruct (round_zero_length _ _ _ _ _ _ Hz Er)
    as [Hio [[-> Hres]|(Hv & x & -> & Hx1 & Hx2)]]; simpl.
  - split; [done|]. split; [by exists (st_calls s')|].
    left. split; [done|]. by exists (st_value s').
  - split; [done|]. split; [by exists (st_calls s')|].
    right. split; [by rewrite Hv|]. by exists x.
Qed.

Lemma zero_length_request_witness :
  let o := FileDedupeRangeFull (kernel_capped 4) 1 3 (Some (request 0 [target 7])) true in
  out_ioctls o = [request 0 [target 7]] /\
  (exists pre, out_calls o = pre ++ [(0, 0, true)] /\
     Forall (fun c => call_final c = false) pre) /\
  ((out_exit o = Some ReturnNil /\
    exists v', out_value o = Some v' /\
      forall j t, Info (request 0 [target 7]) !! j = Some t ->
        Info v' !! j =
          Some (accumulate
                  (read_back (reply_out (kernel_capped 4 0%nat 3 (request 0 [target 7]))) j t)
                  t)) \/
   (out_value o = Some (request 0 [target 7]) /\
    exists x, out_exit o = Some x /\ x <> ReturnNil /\ x <> IndexOutOfRange)).
Proof.
  apply (zero_length_request (kernel_capped 4) 1 3 (request 0 [target 7]));
    [reflexivity|discriminate|lia].
Defined.

(** C3, as stated, fails: on a request of length zero the primitive
    is called, and the status it reports replaces the initial one. *)
Lemma zero_length_calls_primitive :
  let o := FileDedupeRangeFull kernel_first_differs 1 3 (Some (request 0 [target 7])) true in
  out_ioctls o = [request 0 [target 7]] /\
  out_value o = Some (request 0 [mkInfo 7 0 0 FILE_DEDUPE_RANGE_DIFFERS 0]) /\
  out_exit o = Some ReturnNil.
Proof. vm_compute. done. Qed.




(** How the loop is left.  The function returns nil only with the
    remaining length at zero or no target left, and goes round again
    only with neither; when no target ever reports "same" with zero
    bytes the loop is left within (requested length + 1) rounds; and a
    run still in the loop after more rounds than the requested length
    plus the number of targets has been through a round that agreed on
    zero bytes and dropped no target. *)
Lemma loop_leaves kernel srcFd progress (v : FileDedupeRange) :
  is_uint64 (Src_offset v) -> is_uint64 (Src_length v) ->
  let run := fun fuel => loop kernel srcFd progress fuel (init v progress) in
  (forall fuel s', run fuel = (s', Some ReturnNil) ->
     Src_length (st_req s') = 0 \/ Info (st_req s') = []) /\
  (forall fuel s', run (S fuel) = (s', None) ->
     Src_length (st_req s') <> 0 /\ Info (st_req s') <> []) /\
  ((forall s, reachable kernel srcFd progress v s -> no_stalled_report kernel srcFd s) ->
   exists s' x, run (S (Z.to_nat (Src_length v))) = (s', Some x)) /\
  (forall fuel s', run fuel = (s', None) ->
     Src_length v + Z.of_nat (length (Info v)) < Z.of_nat fuel ->
     exists j, (j < fuel)%nat /\ stalled (run j).1 (run (S j)).1).
Proof.
  intros Hoff Hlen run. unfold run. split; [|split; [|split]].
  - intros fuel s' H. apply loop_exit_inv in H as (n & s0 & _ & _ & Hr).
    by eapply round_returns_nil.
  - intros fuel s' H. apply loop_running_inv in H as (s0 & _ & Hr).
    by eapply round_goes_on.
  - intros Hns.
    apply (loop_terminates kernel srcFd progress v Hoff Hlen _ Hns).
    + by exists 0%nat.
    + simpl. unfold is_uint64 in Hlen. lia.
  - intros fuel s' H Hlt.
    destruct (loop_measure kernel srcFd progress v Hlen fuel _ _
                (init_sound progress v Hoff Hlen) H) as [Hst|Hm]; [done|].
    exfalso.
    assert (sound v s') as Hs'.
    { apply (reachable_sound kernel srcFd progress v Hoff Hlen). by exists fuel. }
    pose proof (sound_length_range v Hlen s' Hs').
    unfold measure in Hm. simpl in Hm. lia.
Qed.

(** C6: the function does not return nil whenever the set of live
    targets becomes empty.  Three targets, ten bytes asked.  In the
    first round the third target reports "differs" and the two others
    "same" with five bytes: the third is dropped and the run goes on
    with two targets.  In the second round both report "differs", so
    that no live target is left: [drop], whose loop still ranges over
    the three records of the caller, indexes its drop list of two past
    its end, and the function panics where line 137 was to return
    nil. *)
Theorem emptied_target_set_panics :
  let o := FileDedupeRangeFull kernel_then_all_differ 5 3
             (Some (request 10 [target 7; target 8; target 9])) true in
  out_exit o = Some IndexOutOfRange /\
  out_value o =
    Some (mkRange 0 10 0 0 [mkInfo 7 0 5 1 0; mkInfo 8 0 5 1 0; mkInfo 9 0 0 1 0]) /\
  out_ioctls o =
    [request 10 [target 7; target 8; target 9];
     mkRange 5 5 0 0 [mkInfo 7 5 5 0 0; mkInfo 8 5 5 0 0]] /\
  out_calls o = [(0, 10, false); (5, 10, false); (5, 10, false); (0, 0, true)].
Proof. vm_compute. done. Qed.

(** C8: a broken invariant ends the call in a panic.  At any point of
    a run where the primitive reports no error: two targets reporting
    "same" with different byte counts make FileDedupeRangeFull panic;
    so does an agreed byte count above the remaining length; and
    IoctlFiemap, given a buffer whose address is not a multiple of
    eight, panics without having issued a request. *)
Theorem invariant_violations_panic kernel srcFd progress (v : FileDedupeRange)
    (n fuel : nat) (s : State) :
  Info v <> [] ->
  loop kernel srcFd progress n (init v progress) = (s, None) ->
  (n < fuel)%nat ->
  primitive_ok kernel srcFd s ->
  let o := FileDedupeRangeFull kernel fuel srcFd (Some v) progress in
  (forall a b, a ∈ reports kernel srcFd s -> b ∈ reports kernel srcFd s ->
     is_same a -> is_same b -> Bytes_deduped a <> Bytes_deduped b ->
     out_exit o = Some (Panic msg_varying)) /\
  (forall a, a ∈ reports kernel srcFd s -> is_same a ->
     Forall (agrees (Bytes_deduped a)) (reports kernel srcFd s) ->
     Src_length (st_req s) < Bytes_deduped a ->
     out_exit o = Some (Panic msg_more)) /\
  (forall bufPtr fkernel nth_call fd value, bufPtr mod 8 <> 0 ->
     IoctlFiemap bufPtr fkernel nth_call fd value = (None, [])).
Proof.
  intros Hne Hn Hlt Hok o. subst o. split; [|split].
  - intros a b Ha Hb Sa Sb Hab.
    eapply FileDedupeRangeFull_exit; [done|exact Hn| |done].
    by apply (round_varying _ _ _ _ a b).
  - intros a Ha Sa Hall Hmore.
    eapply FileDedupeRangeFull_exit; [done|exact Hn| |done].
    by apply (round_more _ _ _ _ a).
  - intros bufPtr fkernel nth_call fd value Hb. unfold IoctlFiemap.
    apply Z.eqb_neq in Hb. by rewrite Hb.
Qed.

Lemma invariant_violations_panic_witness :
  out_exit (FileDedupeRangeFull kernel_varying 1 3
              (Some (request 10 [target 7; target 8])) true) =
    Some (Panic msg_varying) /\
  out_exit (FileDedupeRangeFull kernel_greedy 1 3
              (Some (request 10 [target 7; target 8])) true) =
    Some (Panic msg_more).
Proof.
  split.
  - destruct (invariant_violations_panic kernel_varying 3 true
                (request 10 [target 7; target 8]) 0 1
                (init (request 10 [target 7; target 8]) true)) as (H & _ & _);
      [discriminate|reflexivity|lia|reflexivity|].
    apply (H (mkInfo 7 0 1 0 0) (mkInfo 8 0 2 0 0)); vm_compute;
      [apply list_elem_of_here|apply list_elem_of_further, list_elem_of_here
      |reflexivity|reflexivity|discriminate].
  - destruct (invariant_violations_panic kernel_greedy 3 true
                (request 10 [target 7; target 8]) 0 1
                (init (request 10 [target 7; target 8]) true)) as (_ & H & _);
      [discriminate|reflexivity|lia|reflexivity|].
    apply (H (mkInfo 7 0 11 0 0)); vm_compute;
      [apply list_elem_of_here|reflexivity| |reflexivity].
    repeat constructor.
Defined.

(** C10: a nil request, and a request with no target, make
    FileDedupeRangeFull panic; nothing is handed to the primitive, and
    the deferred final progress call is the one call delivered when a
    callback was given. *)
Theorem FileDedupeRangeFull_preconditions kernel fuel srcFd progress
    (off len r1 r2 : Z) :
  let nil_call := FileDedupeRangeFull kernel fuel srcFd None progress in
  let empty := mkRange off len r1 r2 [] in
  let empty_call := FileDedupeRangeFull kernel fuel srcFd (Some empty) progress in
  out_exit nil_call = Some (Panic msg_nil) /\
  out_exit empty_call = Some (Panic msg_empty) /\
  out_calls nil_call = (if progress then [(0, 0, true)] else []) /\
  out_calls empty_call = (if progress then [(0, 0, true)] else []) /\
  out_ioctls nil_call = [] /\ out_ioctls empty_call = [] /\
  out_value empty_call = Some empty.
Proof. by destruct progress. Qed.

(** * FileDedupeRangeStatusToString *)

(** C4 (amended): status 0 is rendered as "range same" and status 1
    as "range differs"; a negative status is rendered as "errno "
    followed by the platform's message for the error number that is
    its negation. *)
Theorem StatusToString_outcomes (Errno_Error : Errno -> string) (status : Z) :
  - 2 ^ 31 < status < 2 ^ 31 ->
  (status = 0 -> FileDedupeRangeStatusToString Errno_Error status = "range same") /\
  (status = 1 -> FileDedupeRangeStatusToString Errno_Error status = "range differs") /\
  (status < 0 ->
     FileDedupeRangeStatusToString Errno_Error status =
       String.append "errno " (Errno_Error (- status))).
Proof.
  intros Hr. split; [by intros ->|]. split; [by intros ->|].
  intros Hneg. unfold FileDedupeRangeStatusToString.
  apply Z.ltb_lt in Hneg as Hb. rewrite Hb. do 2 f_equal.
  unfold wrap_int32, wrap64.
  rewrite (Z.mod_small (- status + 2 ^ 31)) by lia.
  rewrite Z.mod_small; lia.
Qed.

Lemma StatusToString_outcomes_witness :
  FileDedupeRangeStatusToString Errno_decimal (-22) = "errno 22"%string.
Proof.
  destruct (StatusToString_outcomes Errno_decimal (-22)) as (_ & _ & H); [lia|].
  rewrite H by lia. reflexivity.
Defined.

(** C4, as stated, fails: the two names are the other way round. *)
Lemma StatusToString_zero_is_same :
  FileDedupeRangeStatusToString Errno_decimal 0 = "range same"%string /\
  FileDedupeRangeStatusToString Errno_decimal 1 = "range differs"%string /\
  FileDedupeRangeStatusToString Errno_decimal 0 <> "range differs"%string /\
  FileDedupeRangeStatusToString Errno_decimal 1 <> "range same"%string.
Proof. repeat split; discriminate. Qed.

(** * FiemapWalk *)

Definition ext_end (e : FiemapExtent.t) : Z :=
  FiemapExtent.Logical e + FiemapExtent.Length e.

(** The calls of the callback in a trace, in order. *)
Fixpoint visits (trace : list WalkEvent) : list (Z * FiemapExtent.t) :=
  match trace with
  | [] => []
  | Query _ :: t => visits t
  | Visit i e :: t => (i, e) :: visits t
  end.

(** The requests handed to the primitive in a trace, in order. *)
Fixpoint queries (trace : list WalkEvent) : list rawFiemap.t :=
  match trace with
  | [] => []
  | Query q :: t => q :: queries t
  | Visit _ _ :: t => queries t
  end.

Lemma visits_app (t1 t2 : list WalkEvent) : visits (t1 ++ t2) = visits t1 ++ visits t2.
Proof. induction t1 as [|[q|i e] t1 IH]; simpl; [done|done|by rewrite IH]. Qed.

Lemma queries_app (t1 t2 : list WalkEvent) : queries (t1 ++ t2) = queries t1 ++ queries t2.
Proof. induction t1 as [|[q|i e] t1 IH]; simpl; [done|by rewrite IH|done]. Qed.

(** The visit that ends a walk: the callback returned true or the
    extent carries the "last" flag. *)
Definition stop_at (callback : FiemapWalkCallback) (index : Z) (e : FiemapExtent.t) : bool :=
  callback index e || is_last e.

(** The inner loop as a scan of the extents it is going to read. *)
Fixpoint scan (callback : FiemapWalkCallback) (offset : Z) (i : nat)
    (chunk : list FiemapExtent.t) : list WalkEvent * option Exit :=
  match chunk with
  | [] => ([], None)
  | e :: rest =>
    let index := wrap_int (offset + Z.of_nat i) in
    if stop_at callback index e then ([Visit index e], Some ReturnNil)
    else let r := scan callback offset (S i) rest in (Visit index e :: r.1, r.2)
  end.

Lemma visit_loop_scan callback offset (exts : list FiemapExtent.t) :
  forall todo i trace, (i <= length exts)%nat ->
    visit_loop callback offset exts todo i trace =
      let r := scan callback offset i (take todo (drop i exts)) in
      (trace ++ r.1,
       match r.2 with
       | Some x => Some x
       | None => if (i + todo <=? length exts)%nat then None else Some IndexOutOfRange
       end).
Proof.
  induction todo as [|todo IH]; intros i trace Hi; simpl.
  - rewrite app_nil_r. destruct (i + 0 <=? length exts)%nat eqn:E; [done|].
    apply Nat.leb_gt in E. lia.
  - destruct (exts !! i) as [e|] eqn:Ee.
    + rewrite (drop_S _ _ _ Ee). simpl. unfold stop_at.
      destruct (callback (wrap_int (offset + Z.of_nat i)) e); simpl; [done|].
      destruct (is_last e); simpl; [done|].
      rewrite IH by (apply lookup_lt_Some in Ee; lia). simpl.
      rewrite <- app_assoc. simpl. by replace (i + S todo)%nat with (S i + todo)%nat by lia.
    + apply lookup_ge_None in Ee. rewrite drop_ge by lia. simpl.
      rewrite app_nil_r. destruct (i + S todo <=? length exts)%nat eqn:E; [|done].
      apply Nat.leb_le in E. lia.
Qed.

(** ** A file as the list of its extents *)

(** The extents that end after [start]. *)
Fixpoint extents_from (start : Z) (file : list FiemapExtent.t) : list FiemapExtent.t :=
  match file with
  | [] => []
  | e :: rest =>
    if start <? ext_end e then e :: extents_from start rest
    else extents_from start rest
  end.

(** The primitive on a file with the extents [file]: a query is
    answered with the extents that end after its start, as many as the
    caller's array holds. *)
Definition file_kernel (file : list FiemapExtent.t) : FiemapKernel :=
  fun _ _ raw =>
    let out := take (Z.to_nat (rawFiemap.Extent_count raw))
                 (extents_from (rawFiemap.Start raw) file) in
    mkFiemapReply None (rawFiemap.Flags raw) (Z.of_nat (length out))
      (rawFiemap.Reserved raw) out.

(** Extents in ascending order that do not overlap, none empty, all
    below 2^64; the first starts at [lo] or later. *)
Fixpoint ascending (lo : Z) (file : list FiemapExtent.t) : Prop :=
  match file with
  | [] => True
  | e :: rest =>
    lo <= FiemapExtent.Logical e /\ 0 < FiemapExtent.Length e /\
    ext_end e < 2 ^ 64 /\ ascending (ext_end e) rest
  end.

Lemma ascending_weaken (file : list FiemapExtent.t) (lo lo' : Z) :
  lo' <= lo -> ascending lo file -> ascending lo' file.
Proof. destruct file as [|e rest]; simpl; [done|]. intros ? (?&?&?&?). repeat split; try done. lia. Qed.

Lemma ascending_ends (file : list FiemapExtent.t) :
  forall lo, ascending lo file -> Forall (fun e => lo < ext_end e < 2 ^ 64) file.
Proof.
  induction file as [|e rest IH]; intros lo H; simpl in H; [constructor|].
  destruct H as (Hlo & Hlen & Hend & Hrest). constructor; [unfold ext_end in *; lia|].
  eapply Forall_impl; [apply (IH _ Hrest)|]. simpl. unfold ext_end in *. lia.
Qed.

Lemma extents_from_all (file : list FiemapExtent.t) (lo start : Z) :
  ascending lo file -> start <= lo -> extents_from start file = file.
Proof.
  intros H%ascending_ends Hs. induction H as [|e rest He _ IH]; simpl; [done|].
  rewrite IH. destruct (start <? ext_end e) eqn:E; [done|]. apply Z.ltb_ge in E. lia.
Qed.

Lemma extents_from_drop (file : list FiemapExtent.t) :
  forall lo k e, ascending lo file -> file !! k = Some e ->
    extents_from (ext_end e) file = drop (S k) file.
Proof.
  induction file as [|e0 rest IH]; intros lo k e H Hk; [done|].
  simpl in H. destruct H as (Hlo & Hlen & Hend & Hrest).
  destruct k as [|k]; simpl in Hk |- *.
  - inversion Hk; subst e0. rewrite Z.ltb_irrefl, drop_0.
    eapply extents_from_all; [exact Hrest|lia].
  - pose proof (ascending_ends _ _ Hrest) as Hall. rewrite Forall_forall in Hall.
    assert (ext_end e0 < ext_end e) as Hlt.
    { apply Hall. by eapply list_elem_of_lookup_2. }
    destruct (ext_end e <? ext_end e0) eqn:E; [apply Z.ltb_lt in E; lia|].
    by eapply IH.
Qed.

(** ** What a walk over a file is to visit *)

Definition stops (callback : FiemapWalkCallback) (k : nat) (e : FiemapExtent.t) : bool :=
  stop_at callback (Z.of_nat k) e.

(** The extents up to and including the first one that stops the
    walk, each with its position; [k] is the position of the first. *)
Fixpoint visited (callback : FiemapWalkCallback) (k : nat) (file : list FiemapExtent.t)
    : list (Z * FiemapExtent.t) :=
  match file with
  | [] => []
  | e :: rest =>
    (Z.of_nat k, e) :: (if stops callback k e then [] else visited callback (S k) rest)
  end.

Fixpoint stopped (callback : FiemapWalkCallback) (k : nat) (file : list FiemapExtent.t)
    : bool :=
  match file with
  | [] => false
  | e :: rest => stops callback k e || stopped callback (S k) rest
  end.

(** The number of queries a walk needs: one for every full or partial
    buffer of visited extents, and one more, answered with no extent,
    when no extent stopped the walk. *)
Definition queries_needed (capacity : nat) (callback : FiemapWalkCallback) (k : nat)
    (file : list FiemapExtent.t) : nat :=
  ((length (visited callback k file) + capacity - 1) / capacity +
   (if stopped callback k file then 0 else 1))%nat.

Lemma visited_app callback (a b : list FiemapExtent.t) :
  forall k, visited callback k (a ++ b) =
    if stopped callback k a then visited callback k a
    else visited callback k a ++ visited callback (k + length a) b.
Proof.
  induction a as [|e a IH]; intros k; simpl.
  - by rewrite Nat.add_0_r.
  - destruct (stops callback k e); simpl; [done|]. rewrite IH.
    replace (S k + length a)%nat with (k + S (length a))%nat by lia.
    by destruct (stopped callback (S k) a).
Qed.

Lemma stopped_app callback (a b : list FiemapExtent.t) :
  forall k, stopped callback k (a ++ b) =
    stopped callback k a || stopped callback (k + length a) b.
Proof.
  induction a as [|e a IH]; intros k; simpl.
  - by rewrite Nat.add_0_r.
  - rewrite IH. replace (S k + length a)%nat with (k + S (length a))%nat by lia.
    by rewrite orb_assoc.
Qed.

Lemma visited_length callback (file : list FiemapExtent.t) :
  forall k, (length (visited callback k file) <= length file)%nat /\
    (stopped callback k file = false -> length (visited callback k file) = length file) /\
    (file <> [] -> (1 <= length (visited callback k file))%nat).
Proof.
  induction file as [|e rest IH]; intros k; simpl; [by repeat split|].
  destruct (IH (S k)) as (H1 & H2 & _).
  destruct (stops callback k e); simpl; repeat split; try lia; try done.
  intros Hs. by rewrite H2.
Qed.

Lemma wrap_int_small (z : Z) : - 2 ^ 63 <= z < 2 ^ 63 -> wrap_int z = z.
Proof. intros H. unfold wrap_int. rewrite Z.mod_small; lia. Qed.

(** The inner loop on a chunk of a file visits what [visited] says. *)
Lemma scan_visited callback (chunk : list FiemapExtent.t) :
  forall k i, Z.of_nat (k + i + length chunk) <= 2 ^ 63 ->
    visits (scan callback (Z.of_nat k) i chunk).1 = visited callback (k + i) chunk /\
    (scan callback (Z.of_nat k) i chunk).2 =
      (if stopped callback (k + i) chunk then Some ReturnNil else None).
Proof.
  induction chunk as [|e rest IH]; intros k i Hb; simpl; [done|].
  simpl in Hb. unfold stops.
  rewrite wrap_int_small by lia.
  replace (Z.of_nat k + Z.of_nat i) with (Z.of_nat (k + i)) by lia.
  destruct (stop_at callback (Z.of_nat (k + i)) e); simpl; [done|].
  destruct (IH k (S i)) as [H1 H2]; [lia|].
  replace (k + S i)%nat with (S (k + i)) in * by lia. by rewrite H1, H2.
Qed.

Lemma wrap32_small (z : Z) : 0 <= z < 2 ^ 32 -> wrap32 z = z.
Proof. intros H. unfold wrap32. by apply Z.mod_small. Qed.

Lemma buffer_extents_length (n : nat) (written : list FiemapExtent.t) :
  length (buffer_extents n written) = n.
Proof.
  unfold buffer_extents. rewrite length_take, length_app, length_replicate. lia.
Qed.

(** The records the primitive wrote are at the start of the array. *)
Lemma buffer_extents_written (n : nat) (written : list FiemapExtent.t) :
  (length written <= n)%nat ->
  take (length written) (buffer_extents n written) = written.
Proof.
  intros H. unfold buffer_extents. rewrite take_take.
  replace (length written `min` n)%nat with (length written) by lia.
  by rewrite take_app_length.
Qed.

Lemma drop_take_length {A : Type} (n : nat) (l : list A) :
  drop (length (take n l)) l = drop n l.
Proof.
  rewrite length_take. destruct (decide (n <= length l)%nat).
  - by replace (n `min` length l)%nat with n by lia.
  - replace (n `min` length l)%nat with (length l) by lia.
    by rewrite !drop_ge by lia.
Qed.

Lemma scan_queries callback offset (chunk : list FiemapExtent.t) :
  forall i, queries (scan callback offset i chunk).1 = [].
Proof.
  induction chunk as [|e rest IH]; intros i; simpl; [done|].
  destruct (stop_at callback (wrap_int (offset + Z.of_nat i)) e); simpl; [done|]. apply IH.
Qed.

Lemma queries_needed_step (capacity : nat) callback (k : nat) (rest : list FiemapExtent.t) :
  (0 < capacity)%nat -> rest <> [] ->
  stopped callback k (take capacity rest) = false ->
  queries_needed capacity callback k rest =
    S (queries_needed capacity callback (k + length (take capacity rest))
         (drop capacity rest)).
Proof.
  intros Hc Hne Hst. unfold queries_needed.
  rewrite <- (take_drop capacity rest) at 1 2.
  rewrite visited_app, stopped_app, Hst. simpl. rewrite length_app.
  destruct (visited_length callback (take capacity rest) k) as (_ & Hl & _).
  rewrite (Hl Hst), length_take.
  destruct (decide (capacity <= length rest)%nat) as [Hle|Hgt].
  - replace (capacity `min` length rest)%nat with capacity by lia.
    set (m := length (visited callback (k + capacity) (drop capacity rest))).
    replace (capacity + m + capacity - 1)%nat with (m + capacity - 1 + 1 * capacity)%nat by lia.
    rewrite Nat.div_add by lia. lia.
  - replace (capacity `min` length rest)%nat with (length rest) by lia.
    rewrite drop_ge by lia. simpl.
    assert (1 <= length rest)%nat by (destruct rest; [done|simpl; lia]).
    replace (length rest + 0 + capacity - 1)%nat
      with (length rest - 1 + 1 * capacity)%nat by lia.
    rewrite Nat.div_add by lia.
    rewrite (Nat.div_small (length rest - 1)) by lia.
    rewrite (Nat.div_small (0 + capacity - 1)) by lia. lia.
Qed.

Lemma queries_needed_once (capacity : nat) callback (k : nat) (rest : list FiemapExtent.t) :
  (0 < capacity)%nat -> rest <> [] ->
  stopped callback k (take capacity rest) = true ->
  queries_needed capacity callback k rest = 1%nat /\
  visited callback k rest = visited callback k (take capacity rest).
Proof.
  intros Hc Hne Hst. unfold queries_needed.
  rewrite <- (take_drop capacity rest) at 1 2 3.
  rewrite visited_app, stopped_app, Hst. simpl. split; [|done].
  destruct (visited_length callback (take capacity rest) k) as (Hle & _ & Hge).
  rewrite length_take in Hle.
  assert (1 <= length (visited callback k (take capacity rest)))%nat as H1.
  { apply Hge. destruct rest; [done|]. destruct capacity; [lia|done]. }
  set (m := length (visited callback k (take capacity rest))) in *.
  replace (m + capacity - 1)%nat with (m - 1 + 1 * capacity)%nat by lia.
  rewrite Nat.div_add by lia. rewrite Nat.div_small by lia. lia.
Qed.

Section FileWalk.

Variables (capacity : nat) (alloc : nat -> Z) (file : list FiemapExtent.t).
Variables (fd flags : Z) (callback : FiemapWalkCallback).

Hypothesis Hcap : (0 < capacity)%nat /\ Z.of_nat capacity < 2 ^ 32.
Hypothesis Halloc : forall n, alloc n mod 8 = 0.
Hypothesis Hasc : ascending 0 file.
Hypothesis Hlen : Z.of_nat (length file) < 2 ^ 63.

Lemma file_round (s : WalkState) (pre rest : list FiemapExtent.t) :
  file = pre ++ rest ->
  extents_from (nextLogicalStart s) file = rest ->
  nextExtentIndexOffset s = Z.of_nat (length pre) ->
  length (fmExtents s) = capacity ->
  exists s1 e1,
    walk_round alloc (file_kernel file) fd flags callback s = (s1, e1) /\
    length (queries (w_trace s1)) = S (length (queries (w_trace s))) /\
    length (fmExtents s1) = capacity /\
    visits (w_trace s1) =
      visits (w_trace s) ++ visited callback (length pre) (take capacity rest) /\
    if bool_decide (rest = []) || stopped callback (length pre) (take capacity rest)
    then e1 = Some ReturnNil
    else e1 = None /\
         nextExtentIndexOffset s1 = Z.of_nat (length pre + length (take capacity rest)) /\
         extents_from (nextLogicalStart s1) file = drop capacity rest.
Proof.
  intros Hfile Hrest Hoff Hbuf. destruct Hcap as [Hc0 Hc32].
  unfold walk_round, IoctlFiemap. simpl.
  rewrite Halloc. simpl. rewrite Hbuf, (wrap32_small (Z.of_nat capacity)) by lia.
  rewrite Nat2Z.id, Hrest.
  set (out := take capacity rest).
  assert (length out <= capacity)%nat as Hout by (unfold out; rewrite length_take; lia).
  rewrite (wrap32_small (Z.of_nat (length out))) by lia.
  destruct (decide (rest = [])) as [Erest|Erest].
  { subst out. rewrite Erest, take_nil. simpl. eexists _, _. split; [done|]. simpl.
    rewrite buffer_extents_length, visits_app, queries_app, length_app. simpl.
    rewrite app_nil_r. split; [lia|done]. }
  assert (out <> []) as Hne.
  { unfold out. destruct rest; [done|]. destruct capacity; [lia|done]. }
  assert (length out <> 0%nat) as Hlen0 by (by destruct out).
  destruct (Z.of_nat (length out) =? 0) eqn:E0; [apply Z.eqb_eq in E0; lia|].
  rewrite visit_loop_scan by lia. rewrite Nat2Z.id, drop_0.
  rewrite buffer_extents_written by done. rewrite buffer_extents_length.
  assert (Z.of_nat (length pre + length out) < 2 ^ 63) as Hlt.
  { assert (length out <= length rest)%nat by (unfold out; rewrite length_take; lia).
    rewrite Hfile, length_app in Hlen. lia. }
  assert (Z.of_nat (length pre + 0 + length out) <= 2 ^ 63) as Hidx by lia.
  rewrite Hoff. destruct (scan_visited callback out (length pre) 0 Hidx) as [Hv He].
  rewrite Nat.add_0_r in Hv, He.
  replace (bool_decide (rest = [])) with false
    by (symmetry; by apply bool_decide_eq_false).
  simpl. pose proof (scan_queries callback (Z.of_nat (length pre)) out 0) as Hq.
  destruct (scan callback (Z.of_nat (length pre)) 0 out) as [events ex] eqn:Es.
  simpl in Hv, He, Hq. subst ex.
  destruct (stopped callback (length pre) out) eqn:Est; simpl.
  { eexists _, _. split; [done|]. simpl.
    rewrite buffer_extents_length, !visits_app, !queries_app, Hv, Hq, !length_app. simpl.
    rewrite app_nil_r. split; [lia|done]. }
  replace (length out <=? capacity)%nat with true
    by (symmetry; apply Nat.leb_le; lia).
  assert (exists e, out !! (length out - 1)%nat = Some e) as [e Hlast].
  { apply lookup_lt_is_Some_2. lia. }
  assert (buffer_extents capacity out !! Z.to_nat (Z.of_nat (length out) - 1) = Some e)
    as Hbl.
  { replace (Z.to_nat (Z.of_nat (length out) - 1)) with (length out - 1)%nat by lia.
    rewrite <- (lookup_take_lt _ (length out)) by lia.
    by rewrite buffer_extents_written. }
  rewrite Hbl. eexists _, _. split; [done|]. simpl.
  rewrite buffer_extents_length, !visits_app, !queries_app, Hv, Hq, !length_app. simpl.
  rewrite app_nil_r.
  split; [lia|]. split; [done|]. split; [done|]. split; [done|].
  split.
  { fold out. rewrite wrap_int_small; lia. }
  assert (file !! (length pre + (length out - 1))%nat = Some e) as Hfe.
  { rewrite Hfile, lookup_app_r by lia.
    replace (length pre + (length out - 1) - length pre)%nat with (length out - 1)%nat by lia.
    unfold out in Hlast. rewrite lookup_take_lt in Hlast; [done|].
    fold out. lia. }
  pose proof (ascending_ends _ _ Hasc) as Hends. rewrite Forall_forall in Hends.
  pose proof (Hends e (list_elem_of_lookup_2 _ _ _ Hfe)) as He.
  fold (ext_end e). rewrite wrap64_small by lia.
  rewrite (extents_from_drop _ _ _ _ Hasc Hfe), Hfile.
  rewrite drop_app_ge by lia.
  replace (S (length pre + (length out - 1)) - length pre)%nat with (length out) by lia.
  unfold out. apply drop_take_length.
Qed.

Lemma file_walk_loop :
  forall fuel s pre rest,
    file = pre ++ rest ->
    extents_from (nextLogicalStart s) file = rest ->
    nextExtentIndexOffset s = Z.of_nat (length pre) ->
    length (fmExtents s) = capacity ->
    (length rest < fuel)%nat ->
    exists s',
      walk_loop alloc (file_kernel file) fd flags callback fuel s = (s', Some ReturnNil) /\
      visits (w_trace s') = visits (w_trace s) ++ visited callback (length pre) rest /\
      length (queries (w_trace s')) =
        (length (queries (w_trace s)) + queries_needed capacity callback (length pre) rest)%nat.
Proof.
  destruct Hcap as [Hc0 _].
  induction fuel as [|fuel IH]; intros s pre rest Hfile Hrest Hoff Hbuf Hfuel; [lia|].
  simpl.
  destruct (file_round s pre rest Hfile Hrest Hoff Hbuf)
    as (s1 & e1 & -> & Hq & Hb1 & Hv & Hcase).
  destruct (decide (rest = [])) as [->|Hne].
  { simpl in Hcase. subst e1. exists s1. split; [done|].
    rewrite take_nil in Hv. split; [done|]. rewrite Hq. unfold queries_needed. simpl.
    rewrite Nat.div_small by lia. lia. }
  replace (bool_decide (rest = [])) with false in Hcase
    by (symmetry; by apply bool_decide_eq_false).
  simpl in Hcase.
  destruct (stopped callback (length pre) (take capacity rest)) eqn:Est.
  { subst e1. exists s1. split; [done|].
    destruct (queries_needed_once capacity callback (length pre) rest Hc0 Hne Est)
      as [-> ->].
    split; [done|]. lia. }
  destruct Hcase as (-> & Hoff1 & Hrest1).
  destruct (IH s1 (pre ++ take capacity rest) (drop capacity rest)) as (s' & Hrun & Hv' & Hq').
  - by rewrite <- app_assoc, take_drop.
  - done.
  - by rewrite length_app.
  - done.
  - rewrite length_drop. destruct rest; [done|]. simpl in *. lia.
  - exists s'. split; [done|]. rewrite Hv', Hq', Hv, Hq, length_app. split.
    + pose proof (visited_app callback (take capacity rest) (drop capacity rest)
                    (length pre)) as Hva.
      rewrite take_drop, Est in Hva. by rewrite Hva, <- app_assoc.
    + rewrite (queries_needed_step capacity callback (length pre) rest Hc0 Hne Est). lia.
Qed.

End FileWalk.

(** ** Any primitive: what every walk does *)

(** The indices of the visits count up from [k]. *)
Fixpoint indices_from (k : nat) (vs : list (Z * FiemapExtent.t)) : Prop :=
  match vs with
  | [] => True
  | (i, _) :: r => i = wrap_int (Z.of_nat k) /\ indices_from (S k) r
  end.

(** Where the next query is to start: at the end of the extent
    visited last, or at [next] when none was. *)
Fixpoint next_start (next : Z) (trace : list WalkEvent) : Z :=
  match trace with
  | [] => next
  | Query _ :: t => next_start next t
  | Visit _ e :: t => next_start (wrap64 (ext_end e)) t
  end.

(** Every query of the trace starts where the visits before it say. *)
Fixpoint starts_ok (next : Z) (trace : list WalkEvent) : Prop :=
  match trace with
  | [] => True
  | Query q :: t => rawFiemap.Start q = next /\ starts_ok next t
  | Visit _ e :: t => starts_ok (wrap64 (ext_end e)) t
  end.

(** No visit of the trace is one that ends the walk. *)
Definition no_stop (callback : FiemapWalkCallback) (trace : list WalkEvent) : Prop :=
  forall k i e, trace !! k = Some (Visit i e) -> stop_at callback i e = false.

Lemma indices_from_app (a b : list (Z * FiemapExtent.t)) :
  forall k, indices_from k a -> indices_from (k + length a) b -> indices_from k (a ++ b).
Proof.
  induction a as [|[i e] a IH]; intros k Ha Hb; simpl in *.
  - by rewrite Nat.add_0_r in Hb.
  - destruct Ha as [-> Ha]. split; [done|]. apply IH; [done|].
    by replace (S k + length a)%nat with (k + S (length a))%nat by lia.
Qed.

Lemma next_start_app (t1 t2 : list WalkEvent) :
  forall next, next_start next (t1 ++ t2) = next_start (next_start next t1) t2.
Proof. induction t1 as [|[q|i e] t1 IH]; intros next; simpl; auto. Qed.

Lemma starts_ok_app (t1 t2 : list WalkEvent) :
  forall next, starts_ok next t1 -> starts_ok (next_start next t1) t2 ->
    starts_ok next (t1 ++ t2).
Proof.
  induction t1 as [|[q|i e] t1 IH]; intros next H1 H2; simpl in *; auto.
  destruct H1 as [-> H1]. split; [done|]. by apply IH.
Qed.

Lemma wrap_int_add_l (a b : Z) : wrap_int (wrap_int a + b) = wrap_int (a + b).
Proof.
  unfold wrap_int. f_equal.
  replace ((a + 2 ^ 63) mod 2 ^ 64 - 2 ^ 63 + b + 2 ^ 63)
    with ((a + 2 ^ 63) mod 2 ^ 64 + b) by lia.
  rewrite Zplus_mod_idemp_l. f_equal. lia.
Qed.

Lemma scan_indices callback (n : nat) (chunk : list FiemapExtent.t) :
  forall i, indices_from (n + i)
              (visits (scan callback (wrap_int (Z.of_nat n)) i chunk).1).
Proof.
  induction chunk as [|e rest IH]; intros i; simpl; [done|].
  assert (wrap_int (wrap_int (Z.of_nat n) + Z.of_nat i) = wrap_int (Z.of_nat (n + i))) as ->.
  { rewrite wrap_int_add_l. f_equal. lia. }
  destruct (stop_at callback (wrap_int (Z.of_nat (n + i))) e); simpl; [done|].
  split; [done|]. specialize (IH (S i)).
  by replace (n + S i)%nat with (S (n + i)) in IH by lia.
Qed.

Lemma scan_starts callback offset (chunk : list FiemapExtent.t) :
  forall i next, starts_ok next (scan callback offset i chunk).1.
Proof.
  induction chunk as [|e rest IH]; intros i next; simpl; [done|].
  destruct (stop_at callback (wrap_int (offset + Z.of_nat i)) e); simpl; [done|]. apply IH.
Qed.

(** A scan that goes through the whole chunk. *)
Lemma scan_through callback offset (chunk : list FiemapExtent.t) :
  forall i next, (scan callback offset i chunk).2 = None ->
    no_stop callback (scan callback offset i chunk).1 /\
    length (visits (scan callback offset i chunk).1) = length chunk /\
    next_start next (scan callback offset i chunk).1 =
      match last chunk with Some e => wrap64 (ext_end e) | None => next end.
Proof.
  induction chunk as [|e rest IH]; intros i next H; simpl in *.
  - split; [|by split]. intros k idx e Hk. by rewrite lookup_nil in Hk.
  - destruct (stop_at callback (wrap_int (offset + Z.of_nat i)) e) eqn:Es; simpl in *;
      [done|].
    destruct (IH (S i) (wrap64 (ext_end e)) H) as (Hn & Hl & Hs).
    split; [|split].
    + intros [|k] i' e' Hk; simpl in Hk; [by inversion Hk; subst|]. by eapply Hn.
    + by rewrite Hl.
    + rewrite Hs, last_cons. by destruct (last rest).
Qed.

(** In a scan, a visit that ends the walk is the last event, and the
    scan says to return nil. *)
Lemma scan_stop callback offset (chunk : list FiemapExtent.t) :
  forall i k idx e,
    (scan callback offset i chunk).1 !! k = Some (Visit idx e) ->
    stop_at callback idx e = true ->
    S k = length (scan callback offset i chunk).1 /\
    (scan callback offset i chunk).2 = Some ReturnNil.
Proof.
  induction chunk as [|e0 rest IH]; intros i k idx e Hk Hs; simpl in *; [done|].
  destruct (stop_at callback (wrap_int (offset + Z.of_nat i)) e0) eqn:Es; simpl in *.
  - destruct k; simpl in Hk; [done|done].
  - destruct k as [|k]; simpl in Hk.
    + inversion Hk; subst. congruence.
    + destruct (IH _ _ _ _ Hk Hs) as [H1 H2]. by rewrite H1.
Qed.

Lemma scan_exit callback offset (chunk : list FiemapExtent.t) :
  forall i x, (scan callback offset i chunk).2 = Some x -> x = ReturnNil.
Proof.
  induction chunk as [|e rest IH]; intros i x H; simpl in *; [done|].
  destruct (stop_at callback (wrap_int (offset + Z.of_nat i)) e); simpl in *.
  - by inversion H.
  - by eapply IH.
Qed.

Lemma wrap32_range (z : Z) : 0 <= wrap32 z < 2 ^ 32.
Proof. unfold wrap32. apply Z.mod_pos_bound. lia. Qed.

(** One iteration of the outer loop: it panics before anything else
    happened, or it issues one query, starting where the state says,
    and scans a chunk of the reply. *)
Lemma walk_round_shape alloc kernel fd flags callback (s s' : WalkState) exit :
  walk_round alloc kernel fd flags callback s = (s', exit) ->
  (s' = s /\ exit = Some (Panic msg_unaligned) /\ alloc (w_queries s) mod 8 <> 0) \/
  exists q chunk,
    alloc (w_queries s) mod 8 = 0 /\
    rawFiemap.Start q = nextLogicalStart s /\
    w_trace s' =
      w_trace s ++ Query q :: (scan callback (nextExtentIndexOffset s) 0 chunk).1 /\
    w_queries s' = S (w_queries s) /\
    length (fmExtents s') = length (fmExtents s) /\
    match exit with
    | None =>
      (scan callback (nextExtentIndexOffset s) 0 chunk).2 = None /\
      nextExtentIndexOffset s' =
        wrap_int (nextExtentIndexOffset s + Z.of_nat (length chunk)) /\
      exists e, last chunk = Some e /\ nextLogicalStart s' = wrap64 (ext_end e)
    | Some ReturnNil => True
    | Some _ => (scan callback (nextExtentIndexOffset s) 0 chunk).2 = None
    end.
Proof.
  unfold walk_round, IoctlFiemap. simpl.
  destruct (alloc (w_queries s) mod 8 =? 0) eqn:Ea; simpl.
  2:{ intros H. inversion H; subst. left. apply Z.eqb_neq in Ea. done. }
  apply Z.eqb_eq in Ea. intros H. right.
  set (q := rawFiemap.mk (nextLogicalStart s) FIEMAP_MAX_OFFSET flags 0
              (wrap32 (Z.of_nat (length (fmExtents s)))) 0) in *.
  set (reply := kernel (w_queries s) fd q) in *.
  set (exts := buffer_extents (length (fmExtents s)) (fr_extents reply)) in *.
  assert (length exts = length (fmExtents s)) as Hexts by apply buffer_extents_length.
  destruct (fr_err reply) as [err|].
  { inversion H; subst. exists q, []. simpl. by repeat split. }
  pose proof (wrap32_range (fr_Mapped_extents reply)) as Hm.
  destruct (wrap32 (fr_Mapped_extents reply) =? 0) eqn:E0.
  { inversion H; subst. exists q, []. simpl. by repeat split. }
  apply Z.eqb_neq in E0.
  rewrite visit_loop_scan in H by lia. rewrite drop_0 in H. simpl in H.
  set (todo := Z.to_nat (wrap32 (fr_Mapped_extents reply))) in *.
  exists q, (take todo exts).
  destruct (scan callback (nextExtentIndexOffset s) 0 (take todo exts)) as [events ex] eqn:Es.
  simpl in H |- *.
  destruct ex as [x|].
  { pose proof (scan_exit callback (nextExtentIndexOffset s) (take todo exts) 0 x) as Hx.
    rewrite Es in Hx. rewrite (Hx eq_refl) in *. inversion H; subst. simpl.
    by rewrite <- app_assoc. }
  destruct (todo <=? length exts)%nat eqn:Ele.
  2:{ inversion H; subst. simpl. by rewrite <- app_assoc. }
  apply Nat.leb_le in Ele.
  assert (exts !! Z.to_nat (wrap32 (fr_Mapped_extents reply) - 1) =
          last (take todo exts)) as Hlast.
  { rewrite last_lookup, length_take.
    replace (todo `min` length exts)%nat with todo by lia.
    rewrite lookup_take_lt by lia. f_equal. lia. }
  rewrite Hlast in H.
  destruct (last (take todo exts)) as [e|] eqn:El.
  - inversion H; subst. simpl. rewrite <- app_assoc. simpl.
    repeat split; try done.
    + rewrite length_take. f_equal. lia.
    + by exists e.
  - inversion H; subst. simpl. by rewrite <- app_assoc.
Qed.

(** What holds at the head of the outer loop. *)
Definition walk_inv (callback : FiemapWalkCallback) (s : WalkState) : Prop :=
  nextExtentIndexOffset s = wrap_int (Z.of_nat (length (visits (w_trace s)))) /\
  nextLogicalStart s = next_start 0 (w_trace s) /\
  starts_ok 0 (w_trace s) /\
  indices_from 0 (visits (w_trace s)) /\
  no_stop callback (w_trace s) /\
  w_queries s = length (queries (w_trace s)).

(** What holds of a walk wherever it stands. *)
Definition walk_post (callback : FiemapWalkCallback) (s : WalkState) (exit : option Exit)
    : Prop :=
  starts_ok 0 (w_trace s) /\
  indices_from 0 (visits (w_trace s)) /\
  w_queries s = length (queries (w_trace s)) /\
  forall k i e, w_trace s !! k = Some (Visit i e) -> stop_at callback i e = true ->
    S k = length (w_trace s) /\ exit = Some ReturnNil.

Lemma walk_inv_post callback (s : WalkState) exit :
  walk_inv callback s -> walk_post callback s exit.
Proof.
  intros (_ & _ & H3 & H4 & H5 & H6).
  split; [done|]. split; [done|]. split; [done|].
  intros k i e Hk Hstop. by rewrite (H5 _ _ _ Hk) in Hstop.
Qed.

Lemma walk_round_inv alloc kernel fd flags callback (s s' : WalkState) exit :
  walk_inv callback s ->
  walk_round alloc kernel fd flags callback s = (s', exit) ->
  walk_post callback s' exit /\ (exit = None -> walk_inv callback s').
Proof.
  intros Hinv H. pose proof Hinv as (H1 & H2 & H3 & H4 & H5 & H6).
  destruct (walk_round_shape _ _ _ _ _ _ _ _ H)
    as [(-> & -> & _)|(q & chunk & _ & Hq & Ht & Hn & _ & Hexit)].
  { split; [by apply walk_inv_post|done]. }
  assert (starts_ok 0 (w_trace s')) as Hs'.
  { rewrite Ht. apply starts_ok_app; [done|]. simpl. split; [congruence|].
    apply scan_starts. }
  assert (indices_from 0 (visits (w_trace s'))) as Hi'.
  { rewrite Ht, visits_app. simpl. apply indices_from_app; [done|]. simpl.
    rewrite H1.
    pose proof (scan_indices callback (length (visits (w_trace s))) chunk 0) as Hsi.
    by rewrite Nat.add_0_r in Hsi. }
  assert (w_queries s' = length (queries (w_trace s'))) as Hq'.
  { rewrite Ht, queries_app, length_app. simpl. rewrite scan_queries. simpl. lia. }
  split.
  - split; [done|]. split; [done|]. split; [done|].
    intros k i e Hk Hstop. rewrite Ht in Hk.
    destruct (decide (k < length (w_trace s))%nat) as [Hlt|Hge].
    { rewrite lookup_app_l in Hk by done. by rewrite (H5 _ _ _ Hk) in Hstop. }
    rewrite lookup_app_r in Hk by lia.
    destruct (k - length (w_trace s))%nat as [|j] eqn:Ej; simpl in Hk; [done|].
    destruct (scan_stop _ _ _ _ _ _ _ Hk Hstop) as [Hlen Hr].
    split.
    + rewrite Ht, length_app. simpl. lia.
    + destruct exit as [[]|]; try done; try congruence.
      destruct Hexit as [Hexit _]. congruence.
  - intros ->. destruct Hexit as (Hr & Hoff & e & Hl & Hstart).
    pose proof (scan_through callback (nextExtentIndexOffset s) chunk 0
                  (next_start 0 (w_trace s)) Hr) as (Hns & Hlen & Hnext).
    rewrite Hl in Hnext.
    split; [|split; [|split; [done|split; [done|split; [|done]]]]].
    + rewrite Hoff, Ht, visits_app, length_app. simpl.
      rewrite Hlen, H1, wrap_int_add_l. f_equal. lia.
    + rewrite Ht, next_start_app. simpl. by rewrite Hnext.
    + intros k i e' Hk. rewrite Ht in Hk.
      destruct (decide (k < length (w_trace s))%nat) as [Hlt|Hge].
      * rewrite lookup_app_l in Hk by done. by eapply H5.
      * rewrite lookup_app_r in Hk by lia.
        destruct (k - length (w_trace s))%nat as [|j]; simpl in Hk; [done|].
        by eapply Hns.
Qed.

Lemma walk_loop_post alloc kernel fd flags callback :
  forall fuel s, walk_inv callback s ->
    walk_post callback (walk_loop alloc kernel fd flags callback fuel s).1
      (walk_loop alloc kernel fd flags callback fuel s).2.
Proof.
  induction fuel as [|fuel IH]; intros s Hs; simpl.
  - by apply walk_inv_post.
  - destruct (walk_round alloc kernel fd flags callback s) as [s' [x|]] eqn:E.
    + simpl. by destruct (walk_round_inv _ _ _ _ _ _ _ _ Hs E).
    + apply IH. destruct (walk_round_inv _ _ _ _ _ _ _ _ Hs E) as [_ Hi]. by apply Hi.
Qed.

Lemma walk_inv_init callback (capacity : nat) :
  walk_inv callback (mkWalk 0 0 (replicate capacity FiemapExtent.zero) 0 []).
Proof.
  unfold walk_inv. simpl. repeat split. intros k i e Hk. simpl in Hk.
  by rewrite lookup_nil in Hk.
Qed.

Lemma visited_all callback (file : list FiemapExtent.t) :
  forall k,
    (forall j e, file !! j = Some e ->
       stops callback (k + j) e = true <-> S j = length file) ->
    visited callback k file = imap (fun j e => (Z.of_nat (k + j), e)) file /\
    (file <> [] -> stopped callback k file = true).
Proof.
  induction file as [|e rest IH]; intros k H; simpl; [done|].
  pose proof (H 0%nat e eq_refl) as H0. rewrite Nat.add_0_r in H0 |- *. simpl in H0.
  destruct (stops callback k e) eqn:Es.
  - assert (rest = []) as ->.
    { destruct H0 as [H0 _]. specialize (H0 eq_refl). by destruct rest. }
    done.
  - destruct (IH (S k)) as [Hv Hs].
    { intros j e' Hj. specialize (H (S j) e' Hj). simpl in H.
      replace (S k + j)%nat with (k + S j)%nat by lia. rewrite H. lia. }
    split.
    + f_equal. rewrite Hv. apply imap_ext. intros j e' _. simpl. f_equal. lia.
    + intros _. simpl. apply Hs. intros ->. destruct H0 as [_ H0]. by specialize (H0 eq_refl).
Qed.

(** The walk with an extent buffer of any capacity, on a file whose
    extents are in ascending order and do not overlap: it returns nil
    having called the callback on the extents in order, up to and
    including the first one that stops the walk; every query starts
    where the extent visited last ends; and the queries are one per
    full or partial buffer of visited extents, plus one answered with
    no extent when no extent stopped the walk. *)
Lemma FiemapWalkSized_over_file (capacity : nat) (alloc : nat -> Z)
    (file : list FiemapExtent.t) (fd flags : Z) (callback : FiemapWalkCallback)
    (fuel : nat) :
  (0 < capacity)%nat /\ Z.of_nat capacity < 2 ^ 32 ->
  (forall n, alloc n mod 8 = 0) ->
  ascending 0 file ->
  Z.of_nat (length file) < 2 ^ 63 ->
  (length file < fuel)%nat ->
  exists s,
    FiemapWalkSized capacity alloc (file_kernel file) fuel fd flags callback =
      (s, Some ReturnNil) /\
    visits (w_trace s) = visited callback 0 file /\
    starts_ok 0 (w_trace s) /\
    length (queries (w_trace s)) = queries_needed capacity callback 0 file /\
    (file <> [] ->
     (forall k e, file !! k = Some e ->
        stops callback k e = true <-> S k = length file) ->
     visits (w_trace s) = imap (fun k e => (Z.of_nat k, e)) file /\
     length (queries (w_trace s)) = ((length file + capacity - 1) / capacity)%nat).
Proof.
  intros Hcap Halloc Hasc Hlen Hfuel. unfold FiemapWalkSized.
  set (s0 := mkWalk 0 0 (replicate capacity FiemapExtent.zero) 0 []).
  destruct (file_walk_loop capacity alloc file fd flags callback Hcap Halloc Hasc Hlen
              fuel s0 [] file) as (s & Hrun & Hv & Hq); try done.
  { simpl. eapply extents_from_all; [exact Hasc|lia]. }
  { simpl. by rewrite length_replicate. }
  pose proof (walk_loop_post alloc (file_kernel file) fd flags callback fuel s0
                (walk_inv_init callback capacity)) as (Hst & _).
  rewrite Hrun in Hst. simpl in Hst, Hv, Hq.
  exists s. split; [done|]. split; [done|]. split; [done|]. split; [done|].
  intros Hne Hall. destruct (visited_all callback file 0 Hall) as [Hva Hsa].
  split; [by rewrite Hv, Hva|].
  rewrite Hq. unfold queries_needed. rewrite (Hsa Hne), Hva, length_imap. lia.
Qed.

(** C7 (amended): on a file whose extents are in ascending order and do
    not overlap, with every call of the primitive answered from a
    buffer aligned to eight bytes, FiemapWalk returns nil having called
    the callback on the extents in order, up to and including the first
    one for which the callback returns true or that carries the "last"
    flag, with the indices 0, 1, 2, ...; every query starts at the
    logical start plus the length of the extent visited last (the first
    at 0); and, the extent buffer of FiemapWalk holding 292 records,
    the number of queries is one per full or partial buffer of 292
    visited extents, plus one answered with no extent when no extent
    stopped the walk.  When only the final extent stops the walk, every
    extent is visited once and the queries are as many as buffers of
    292 are needed for the file: one for ten extents. *)
Theorem FiemapWalk_over_file (alloc : nat -> Z) (file : list FiemapExtent.t)
    (fd flags : Z) (callback : FiemapWalkCallback) (fuel : nat) :
  (forall n, alloc n mod 8 = 0) ->
  ascending 0 file ->
  Z.of_nat (length file) < 2 ^ 63 ->
  (length file < fuel)%nat ->
  exists s,
    FiemapWalk alloc (file_kernel file) fuel fd flags callback = (s, Some ReturnNil) /\
    visits (w_trace s) = visited callback 0 file /\
    starts_ok 0 (w_trace s) /\
    length (queries (w_trace s)) = queries_needed 292 callback 0 file /\
    (file <> [] ->
     (forall k e, file !! k = Some e ->
        stops callback k e = true <-> S k = length file) ->
     visits (w_trace s) = imap (fun k e => (Z.of_nat k, e)) file /\
     length (queries (w_trace s)) = ((length file + 291) / 292)%nat).
Proof.
  intros Halloc Hasc Hlen Hfuel. unfold FiemapWalk.
  change (Z.to_nat numExtents) with 292%nat.
  destruct (FiemapWalkSized_over_file 292 alloc file fd flags callback fuel)
    as (s & Hrun & Hv & Hst & Hq & Hall); try done.
  { split; [lia|]. simpl. lia. }
  exists s. split; [done|]. split; [done|]. split; [done|]. split; [done|].
  intros Hne Hstops. destruct (Hall Hne Hstops) as [Hva Hqa]. split; [done|].
  rewrite Hqa. by replace (length file + 292 - 1)%nat with (length file + 291)%nat by lia.
Qed.

Lemma FiemapWalk_over_file_witness :
  exists s,
    FiemapWalk alloc_aligned (file_kernel file10) 11 3 0 visit_all =
      (s, Some ReturnNil) /\
    map fst (visits (w_trace s)) = [0; 1; 2; 3; 4; 5; 6; 7; 8; 9] /\
    map snd (visits (w_trace s)) = file10 /\
    length (queries (w_trace s)) = 1%nat.
Proof.
  destruct (FiemapWalk_over_file alloc_aligned file10 3 0 visit_all 11)
    as (s & Hrun & Hv & _ & Hq & _).
  - intros n. unfold alloc_aligned. by rewrite Z.mul_comm, Z.mod_mul.
  - vm_compute. repeat split; congruence.
  - simpl. lia.
  - simpl. lia.
  - exists s. split; [exact Hrun|]. rewrite Hv, Hq. vm_compute. done.
Defined.

(** C7, as stated, fails: FiemapWalk has no buffer of four extents.
    Its buffer is the one of lines 65-66, of 292 records, so that the
    walk over a file of ten extents hands one query to the primitive,
    asking for up to 292 extents, and not three. *)
Lemma FiemapWalk_ten_extents_one_query :
  (FiemapWalk alloc_aligned (file_kernel file10) 11 3 0 visit_all).2 = Some ReturnNil /\
  map fst (visits (w_trace (FiemapWalk alloc_aligned (file_kernel file10) 11 3 0
                              visit_all).1)) = [0; 1; 2; 3; 4; 5; 6; 7; 8; 9] /\
  map rawFiemap.Extent_count
    (queries (w_trace (FiemapWalk alloc_aligned (file_kernel file10) 11 3 0
                         visit_all).1)) = [292] /\
  length (queries (w_trace (FiemapWalk alloc_aligned (file_kernel file10) 11 3 0
                              visit_all).1)) <> 3%nat.
Proof. vm_compute. repeat split; congruence. Qed.

(** * More on [drop] *)

(** A list of positions in strictly ascending order, all in [lo, hi). *)
Fixpoint ascending_within (lo hi : nat) (l : list nat) : Prop :=
  match l with
  | [] => True
  | d :: l' => (lo <= d < hi)%nat /\ ascending_within (S d) hi l'
  end.

Lemma ascending_within_weaken (l : list nat) :
  forall lo lo' hi hi', (lo' <= lo)%nat -> (hi <= hi')%nat ->
    ascending_within lo hi l -> ascending_within lo' hi' l.
Proof.
  induction l as [|d l IH]; intros lo lo' hi hi' Hlo Hhi H; simpl in *; [done|].
  destruct H as [Hd Hl]. split; [lia|]. eapply IH; [| |exact Hl]; lia.
Qed.

Lemma ascending_within_elem (l : list nat) :
  forall lo hi d, ascending_within lo hi l -> d ∈ l -> (lo <= d < hi)%nat.
Proof.
  induction l as [|d0 l IH]; intros lo hi d H Hd; simpl in *.
  - by apply elem_of_nil in Hd.
  - destruct H as [H0 Hl]. apply elem_of_cons in Hd as [->|Hd]; [done|].
    specialize (IH _ _ _ Hl Hd). lia.
Qed.

(** Lowering the upper bound to leave out a position that is not in
    the list. *)
Lemma ascending_within_without (l : list nat) :
  forall lo hi, ascending_within lo (S hi) l -> hi ∉ l -> ascending_within lo hi l.
Proof.
  induction l as [|d l IH]; intros lo hi H Hn; simpl in *; [done|].
  destruct H as [Hd Hl]. apply not_elem_of_cons in Hn as [Hne Hn].
  split; [lia|]. by apply IH.
Qed.

Lemma non_same_from_ascending (todo : list FileDedupeRangeInfo) :
  forall i, ascending_within i (i + length todo) (non_same_from i todo).
Proof.
  induction todo as [|info todo IH]; intros i; simpl; [done|].
  specialize (IH (S i)).
  replace (S i + length todo)%nat with (i + S (length todo))%nat in IH by lia.
  destruct (Status info =? FILE_DEDUPE_RANGE_SAME).
  - eapply ascending_within_weaken; [| |exact IH]; lia.
  - split; [lia|done].
Qed.

(** When the positions still to be dropped all come before the last
    position the loop ranges over, the loop indexes the drop list past
    its end. *)
Lemma drop_loop_short (dl : list nat) :
  forall m k di dst rinfo indices,
    (1 <= m)%nat ->
    ascending_within k (k + m - 1) (drop di dl) ->
    (drop_loop dl (seq k m) di dst rinfo indices).2 = false.
Proof.
  induction m as [|m IH]; intros k di dst rinfo indices Hm Hasc; [lia|].
  simpl. destruct (dl !! di) as [d|] eqn:Ed; [|done].
  rewrite (drop_S dl d di Ed) in Hasc. simpl in Hasc. destruct Hasc as [Hd Hrest].
  destruct (k =? d)%nat eqn:Ekd.
  - apply Nat.eqb_eq in Ekd. subst d. apply IH; [lia|].
    eapply ascending_within_weaken; [| |exact Hrest]; lia.
  - apply Nat.eqb_neq in Ekd.
    assert (ascending_within (S k) (S k + m - 1) (drop di dl)) as Hasc'.
    { rewrite (drop_S dl d di Ed). simpl. split; [lia|].
      eapply ascending_within_weaken; [| |exact Hrest]; lia. }
    destruct (k =? dst)%nat; [apply IH; [lia|done]|].
    destruct (rinfo !! k) as [x|]; [|done].
    destruct (dst <? length rinfo)%nat; [|done].
    destruct (indices !! k) as [y|]; [|done].
    destruct (dst <? length indices)%nat; [|done].
    apply IH; [lia|done].
Qed.

(** [drop] only gets through its loop when the drop list ends with
    the last position of the caller's array. *)
Lemma drop_targets_short (n : nat) (dropList : list nat)
    (rinfo spare : list FileDedupeRangeInfo) (indices ispare : list nat) :
  dropList <> [] ->
  ascending_within 0 (n - 1) dropList ->
  (drop_targets n dropList rinfo spare indices ispare).2 = false.
Proof.
  intros Hne Hasc. unfold drop_targets.
  destruct (length dropList =? 0)%nat eqn:E0.
  { apply Nat.eqb_eq in E0. by destruct dropList. }
  assert (1 <= n)%nat as Hn.
  { destruct dropList as [|d l]; [done|]. simpl in Hasc. lia. }
  pose proof (drop_loop_short dropList n 0 0 0 rinfo indices Hn) as H.
  rewrite drop_0 in H. specialize (H Hasc).
  destruct (drop_loop dropList (seq 0 n) 0 0 rinfo indices) as [[[dst r1] i1] ok].
  simpl in H. by subst ok.
Qed.

Lemma drop_loop_ok (dl : list nat) :
  forall m k di dst rinfo indices,
    (dst <= k)%nat ->
    ascending_within k (k + m) (drop di dl) ->
    ((1 <= m)%nat -> (k + m - 1)%nat ∈ drop di dl) ->
    (k + m <= length rinfo)%nat ->
    length indices = length rinfo ->
    (drop_loop dl (seq k m) di dst rinfo indices).2 = true.
Proof.
  induction m as [|m IH]; intros k di dst rinfo indices Hdst Hasc Hlast Hlen Hli; [done|].
  simpl. specialize (Hlast ltac:(lia)).
  destruct (dl !! di) as [d|] eqn:Ed.
  2:{ apply lookup_ge_None in Ed. rewrite drop_ge in Hlast by lia.
      by apply elem_of_nil in Hlast. }
  rewrite (drop_S dl d di Ed) in Hasc, Hlast. simpl in Hasc. destruct Hasc as [Hd Hrest].
  destruct (k =? d)%nat eqn:Ekd.
  - apply Nat.eqb_eq in Ekd. subst d. apply IH; try lia.
    + eapply ascending_within_weaken; [| |exact Hrest]; lia.
    + intros Hm. apply elem_of_cons in Hlast as [Heq|Hin]; [lia|].
      by replace (S k + m - 1)%nat with (k + S m - 1)%nat by lia.
  - apply Nat.eqb_neq in Ekd.
    assert (ascending_within (S k) (S k + m) (drop di dl)) as Hasc'.
    { rewrite (drop_S dl d di Ed). simpl. split; [lia|].
      eapply ascending_within_weaken; [| |exact Hrest]; lia. }
    assert ((1 <= m)%nat -> (S k + m - 1)%nat ∈ drop di dl) as Hlast'.
    { intros _. rewrite (drop_S dl d di Ed).
      by replace (S k + m - 1)%nat with (k + S m - 1)%nat by lia. }
    destruct (k =? dst)%nat; [apply IH; try done; lia|].
    destruct (lookup_lt_is_Some_2 rinfo k) as [x ->]; [lia|].
    destruct (dst <? length rinfo)%nat eqn:E1; [|apply Nat.ltb_ge in E1; lia].
    destruct (lookup_lt_is_Some_2 indices k) as [y ->]; [lia|].
    destruct (dst <? length indices)%nat eqn:E2; [|apply Nat.ltb_ge in E2; lia].
    apply IH; rewrite ?length_insert; try done; lia.
Qed.

Lemma non_same_from_last (todo : list FileDedupeRangeInfo) :
  forall i info, last todo = Some info -> ~ is_same info ->
    (i + length todo - 1)%nat ∈ non_same_from i todo.
Proof.
  induction todo as [|info0 todo IH]; intros i info Hl Hn; [done|].
  rewrite last_cons in Hl. destruct (last todo) as [info1|] eqn:El.
  - inversion Hl; subst info1. specialize (IH (S i) info eq_refl Hn).
    assert (1 <= length todo)%nat by (destruct todo; [done|simpl; lia]).
    replace (i + length (info0 :: todo) - 1)%nat with (S i + length todo - 1)%nat
      by (simpl; lia).
    cbn [non_same_from].
    destruct (Status info0 =? FILE_DEDUPE_RANGE_SAME); [done|].
    by apply list_elem_of_further.
  - apply last_None in El. subst todo. inversion Hl; subst info0. cbn [non_same_from].
    destruct (Status info =? FILE_DEDUPE_RANGE_SAME) eqn:E.
    { exfalso. apply Hn. unfold is_same. lia. }
    simpl. replace (i + 1 - 1)%nat with i by lia. apply list_elem_of_here.
Qed.

(** X1: when no target has been dropped before and the last target is
    among those that did not report "same", [drop] gets through: it
    leaves in [req.Info] and in [indices], in their order, exactly the
    entries of the targets that reported "same". *)
Theorem drop_keeps_survivors (infos rinfo spare : list FileDedupeRangeInfo)
    (indices ispare : list nat) (info : FileDedupeRangeInfo) :
  length rinfo = length infos -> length indices = length infos ->
  last infos = Some info -> ~ is_same info ->
  exists spare' ispare',
    drop_targets (length infos) (non_same_from 0 infos) rinfo spare indices ispare =
      (survivors infos rinfo, spare', survivors infos indices, ispare', true).
Proof.
  intros Hr Hi Hl Hn.
  pose proof (non_same_from_last infos 0 info Hl Hn) as Hin. simpl in Hin.
  destruct (drop_targets (length infos) (non_same_from 0 infos) rinfo spare indices ispare)
    as [[[[r1 s1] i1] is1] ok] eqn:E.
  assert (ok = true) as ->.
  { unfold drop_targets in E.
    destruct (length (non_same_from 0 infos) =? 0)%nat; [by inversion E|].
    pose proof (drop_loop_ok (non_same_from 0 infos) (length infos) 0 0 0 rinfo indices) as Hok.
    rewrite drop_0 in Hok.
    destruct (drop_loop (non_same_from 0 infos) (seq 0 (length infos)) 0 0 rinfo indices)
      as [[[dst r2] i2] ok2] eqn:Ed.
    simpl in Hok.
    assert (ok2 = true) as ->.
    { apply Hok; [lia|apply (non_same_from_ascending infos 0)|done|lia|lia]. }
    apply drop_loop_spec in Ed as (Hdst & Hlr & Hli & _); [|done| |lia|lia].
    2:{ intros _. pose proof (non_same_from_bound infos 0) as Hb.
        destruct (non_same_from 0 infos) as [|d0 dl]; [by apply elem_of_nil in Hin|].
        apply Forall_cons in Hb as [Hd _]. exists d0. split; [done|]. lia. }
    rewrite !reslice_within in E by lia. by inversion E. }
  apply drop_targets_exact in E as [-> ->]; [|done|done|done].
  by exists s1, is1.
Qed.

Lemma drop_keeps_survivors_witness :
  exists spare' ispare',
    drop_targets 3 [2%nat]
      [mkInfo 7 0 4 0 0; mkInfo 8 0 4 0 0; mkInfo 9 0 0 1 0] [] [0; 1; 2]%nat [] =
      ([mkInfo 7 0 4 0 0; mkInfo 8 0 4 0 0], spare', [0; 1]%nat, ispare', true).
Proof.
  apply (drop_keeps_survivors
           [mkInfo 7 0 4 0 0; mkInfo 8 0 4 0 0; mkInfo 9 0 0 1 0]
           [mkInfo 7 0 4 0 0; mkInfo 8 0 4 0 0; mkInfo 9 0 0 1 0] []
           [0; 1; 2]%nat [] (mkInfo 9 0 0 1 0)); try reflexivity.
  unfold is_same. simpl. discriminate.
Defined.

(** What a round does up to the call of [drop], when the primitive
    reports no error and the checks pass. *)
Lemma round_reaches_drop kernel srcFd progress (s : State) (d : Z) (valid : bool) :
  live s -> primitive_ok kernel srcFd s ->
  check_loop (reports kernel srcFd s) 0 false = Some (d, valid) ->
  d <= Src_length (st_req s) ->
  wrap64 (Src_length (st_req s) - d) <> 0 ->
  exists vinfo rinfo,
    record_loop d (st_indices s) 0 (reports kernel srcFd s) (Info (st_value s))
      (reports kernel srcFd s) [] =
      (vinfo, rinfo, non_same_from 0 (reports kernel srcFd s), true) /\
    length rinfo = length (Info (st_req s)) /\
    (round kernel srcFd progress s).2 =
      let r := drop_targets (length (Info (st_value s)))
                 (non_same_from 0 (reports kernel srcFd s)) rinfo
                 (st_req_spare s) (st_indices s) (st_indices_spare s) in
      if negb r.2 then Some IndexOutOfRange
      else if (length r.1.1.1.1 =? 0)%nat then Some ReturnNil else None.
Proof.
  intros (Hnd & Hlen & Hle & Hin) Hok Hc Hd Hz. unfold primitive_ok in Hok.
  destruct (record_loop d (st_indices s) 0 (reports kernel srcFd s) (Info (st_value s))
              (reports kernel srcFd s) []) as [[[vinfo rinfo] dl] ok] eqn:Hrec.
  assert (ok = true) as ->.
  { pose proof (record_loop_ok d (st_indices s) (reports kernel srcFd s) 0
                  (Info (st_value s)) (reports kernel srcFd s) []) as H.
    rewrite Hrec in H. apply H. intros j Hj. rewrite reports_length, <- Hlen in Hj.
    destruct (lookup_lt_is_Some_2 (st_indices s) j Hj) as [idx Hidx].
    exists idx. split; [done|]. rewrite Forall_forall in Hin. apply Hin.
    by eapply list_elem_of_lookup_2. }
  pose proof (record_loop_dropList _ _ _ _ _ _ _ _ _ _ Hrec) as Hdl. simpl in Hdl. subst dl.
  pose proof (record_loop_length _ _ _ _ _ _ _ _ _ _ _ Hrec) as [_ Hlr].
  rewrite reports_length in Hlr.
  exists vinfo, rinfo. split; [done|]. split; [done|].
  unfold reports in Hc, Hrec |- *. simpl in Hc, Hrec |- *.
  unfold round, IoctlFileDedupeRange. simpl. rewrite Hok, Hc.
  destruct (Src_length (st_req s) <? d) eqn:E; [apply Z.ltb_lt in E; lia|].
  rewrite Hrec. simpl.
  destruct (wrap64 (Src_length (st_req s) - d) =? 0) eqn:E0; [apply Z.eqb_eq in E0; done|].
  destruct (drop_targets (length (Info (st_value s)))
              (non_same_from 0 (imap (read_back (reply_out
                 (kernel (length (st_ioctls s)) srcFd (st_req s)))) (Info (st_req s))))
              rinfo (st_req_spare s) (st_indices s) (st_indices_spare s))
    as [[[[r1 s1] i1] is1] ok1]. simpl.
  destruct ok1; simpl; [|done]. by destruct (length r1 =? 0)%nat.
Qed.

(** The closure [drop] runs past the end of a drop list that does not
    end with the last position of the caller's array. *)
Lemma round_drop_short kernel srcFd progress (s : State) (d : Z) (valid : bool) :
  live s -> primitive_ok kernel srcFd s ->
  check_loop (reports kernel srcFd s) 0 false = Some (d, valid) ->
  d <= Src_length (st_req s) ->
  wrap64 (Src_length (st_req s) - d) <> 0 ->
  non_same_from 0 (reports kernel srcFd s) <> [] ->
  (length (Info (st_value s)) - 1)%nat ∉ non_same_from 0 (reports kernel srcFd s) ->
  (round kernel srcFd progress s).2 = Some IndexOutOfRange.
Proof.
  intros Hlive Hok Hc Hd Hz Hne Hlast.
  destruct (round_reaches_drop kernel srcFd progress s d valid Hlive Hok Hc Hd Hz)
    as (vinfo & rinfo & _ & _ & ->).
  destruct Hlive as (_ & _ & Hle & _).
  cbv zeta. rewrite drop_targets_short; [done|done|].
  pose proof (non_same_from_ascending (reports kernel srcFd s) 0) as Hasc.
  simpl in Hasc. rewrite reports_length in Hasc.
  destruct (decide (length (Info (st_value s)) = 0)%nat) as [E|E].
  { rewrite E in Hle. assert (length (Info (st_req s)) = 0)%nat as E' by lia.
    rewrite E' in Hasc. destruct (non_same_from 0 (reports kernel srcFd s)); [done|].
    simpl in Hasc. lia. }
  apply ascending_within_without; [|done].
  eapply ascending_within_weaken; [| |exact Hasc]; lia.
Qed.

(** X2: a round that is to drop targets, none of them the last of the
    caller's array, ends in an index out of range: the primitive
    reported no error, the checks passed, bytes remain, and some target
    did not report "same". *)
Theorem round_drop_panics kernel srcFd progress (s : State) (d : Z) (valid : bool) :
  live s -> primitive_ok kernel srcFd s ->
  check_loop (reports kernel srcFd s) 0 false = Some (d, valid) ->
  d <= Src_length (st_req s) ->
  wrap64 (Src_length (st_req s) - d) <> 0 ->
  non_same_from 0 (reports kernel srcFd s) <> [] ->
  (length (Info (st_value s)) - 1)%nat ∉ non_same_from 0 (reports kernel srcFd s) ->
  (round kernel srcFd progress s).2 = Some IndexOutOfRange.
Proof. apply round_drop_short. Qed.

Lemma round_drop_panics_witness :
  (round kernel_first_differs 3 true (init (request 10 [target 7; target 8]) true)).2 =
    Some IndexOutOfRange.
Proof.
  apply (round_drop_panics kernel_first_differs 3 true
           (init (request 10 [target 7; target 8]) true) 5 true).
  - apply init_live.
  - reflexivity.
  - reflexivity.
  - simpl. lia.
  - vm_compute. discriminate.
  - vm_compute. discriminate.
  - vm_compute. intros H. apply list_elem_of_singleton in H. discriminate.
Defined.

Lemma sublist_full {A : Type} (l1 l2 : list A) :
  l1 `sublist_of` l2 -> (length l2 <= length l1)%nat -> l1 = l2.
Proof.
  intros H. induction H as [|x l1 l2 H IH|x l1 l2 H IH]; intros Hl; simpl in *.
  - done.
  - f_equal. apply IH. lia.
  - apply sublist_length in H. lia.
Qed.

Lemma non_same_from_elem (todo : list FileDedupeRangeInfo) :
  forall i k, k ∈ non_same_from i todo ->
    exists info, todo !! (k - i)%nat = Some info /\ ~ is_same info /\ (i <= k)%nat.
Proof.
  induction todo as [|info0 todo IH]; intros i k Hk; simpl in Hk.
  - by apply elem_of_nil in Hk.
  - assert (k ∈ non_same_from (S i) todo ->
            exists info, (info0 :: todo) !! (k - i)%nat = Some info /\ ~ is_same info /\
                         (i <= k)%nat) as Hrest.
    { intros H. destruct (IH _ _ H) as (info & Hl & Hn & Hle).
      exists info. replace (k - i)%nat with (S (k - S i)) by lia. simpl.
      split; [done|]. split; [done|lia]. }
    destruct (Status info0 =? FILE_DEDUPE_RANGE_SAME) eqn:E; [by apply Hrest|].
    apply elem_of_cons in Hk as [->|Hk]; [|by apply Hrest].
    exists info0. rewrite Nat.sub_diag. simpl. split; [done|]. split; [|lia].
    unfold is_same. apply Z.eqb_neq in E. done.
Qed.

(** The live positions are positions of the caller's array, in
    ascending order. *)
Definition positions (v : FileDedupeRange) (s : State) : Prop :=
  st_indices s `sublist_of` seq 0 (length (Info v)) /\
  length (Info (st_value s)) = length (Info v).

Lemma init_positions (v : FileDedupeRange) progress : positions v (init v progress).
Proof. by split. Qed.

Lemma round_positions kernel srcFd progress (v : FileDedupeRange) (s s' : State) :
  live s -> positions v s -> round kernel srcFd progress s = (s', None) ->
  positions v s'.
Proof.
  intros Hl [Hsub Hlen] H.
  destruct (round_running _ _ _ _ _ Hl H)
    as (d & valid & vinfo & rinfo & _ & _ & Hrec & Hv & _ & Hi & _).
  pose proof (record_loop_length _ _ _ _ _ _ _ _ _ _ _ Hrec) as [Hlv _].
  split.
  - rewrite Hi. etrans; [apply survivors_sublist|done].
  - rewrite Hv. simpl. lia.
Qed.

Lemma reachable_positions kernel srcFd progress (v : FileDedupeRange) (s : State) :
  reachable kernel srcFd progress v s -> live s /\ positions v s.
Proof.
  intros [n Hn].
  apply (loop_running_invariant kernel srcFd progress
           (fun s => live s /\ positions v s)) with (n := n) (s := init v progress);
    [|split; [apply init_live|apply init_positions]|done].
  intros s0 s1 [Hl Hp] Hr. split; [by eapply round_live|by eapply round_positions].
Qed.

(** X3: in a run, a round after which the loop goes on either drops no
    target, or drops the last target of the caller's array and is the
    first round to drop any; so once a target has been dropped, no
    later round drops a target and goes on. *)
Theorem one_drop_per_run kernel srcFd progress (v : FileDedupeRange) (s s' : State) :
  reachable kernel srcFd progress v s ->
  round kernel srcFd progress s = (s', None) ->
  st_indices s' = st_indices s \/
  (st_indices s = seq 0 (length (Info v)) /\
   (length (Info v) - 1)%nat ∉ st_indices s').
Proof.
  intros Hs Hr. destruct (reachable_positions _ _ _ _ _ Hs) as [Hlive [Hsub Hlv]].
  destruct (round_running _ _ _ _ _ Hlive Hr)
    as (d & valid & vinfo & rinfo & Hc & Hd & Hrec & _ & _ & Hi & Hlen' & Hne0 & _).
  pose proof Hlive as (Hnd & Hli & Hle & _).
  destruct (decide (non_same_from 0 (reports kernel srcFd s) = [])) as [Hnil|Hdl].
  { left. rewrite Hi. apply non_same_from_none in Hnil.
    apply survivors_all_same; [done|]. rewrite reports_length. lia. }
  right.
  destruct (decide ((length (Info (st_value s)) - 1)%nat
                      ∈ non_same_from 0 (reports kernel srcFd s))) as [Hin|Hnin].
  2:{ exfalso.
      assert (primitive_ok kernel srcFd s) as Hok.
      { unfold primitive_ok. unfold round, IoctlFileDedupeRange in Hr. simpl in Hr.
        by destruct (reply_err (kernel (length (st_ioctls s)) srcFd (st_req s))). }
      assert (wrap64 (Src_length (st_req s) - d) <> 0) as Hz by congruence.
      pose proof (round_reaches_drop kernel srcFd progress s d valid Hlive Hok Hc Hd Hz)
        as (vinfo' & rinfo' & _ & _ & He).
      rewrite Hr in He. simpl in He.
      rewrite drop_targets_short in He; [done|done|].
      pose proof (non_same_from_ascending (reports kernel srcFd s) 0) as Hasc.
      simpl in Hasc. rewrite reports_length in Hasc.
      destruct (decide (length (Info (st_value s)) = 0)%nat) as [E|E].
      { assert (length (Info (st_req s)) = 0)%nat as E' by lia.
        rewrite E' in Hasc. destruct (non_same_from 0 (reports kernel srcFd s)); [done|].
        simpl in Hasc. lia. }
      apply ascending_within_without; [|done].
      eapply ascending_within_weaken; [| |exact Hasc]; lia. }
  destruct (non_same_from_elem _ _ _ Hin) as (info & Hinfo & Hns & _).
  rewrite Nat.sub_0_r in Hinfo.
  pose proof (lookup_lt_Some _ _ _ Hinfo) as Hlt. rewrite reports_length in Hlt.
  assert (st_indices s = seq 0 (length (Info v))) as Hseq.
  { apply sublist_full; [done|]. rewrite length_seq. lia. }
  split; [done|]. rewrite Hi, <- Hlv.
  eapply survivors_drops; [done|exact Hinfo| |done].
  rewrite Hseq, <- Hlv. apply lookup_seq. split; [done|lia].
Qed.

Lemma one_drop_per_run_witness :
  let s0 := init (request 10 [target 7; target 8]) true in
  let s1 := (round kernel_second_differs 3 true s0).1 in
  st_indices s1 = st_indices s0 \/
  (st_indices s0 = seq 0 2 /\ 1%nat ∉ st_indices s1).
Proof.
  apply (one_drop_per_run kernel_second_differs 3 true (request 10 [target 7; target 8])).
  - by exists 0%nat.
  - reflexivity.
Defined.

(** * Errors of the primitive *)

(** X4: an error of the primitive is returned as it is, whatever the
    round: the caller's records keep what the rounds before recorded,
    the request in flight is the last one handed to the primitive, and
    no progress call but the final one follows. *)
Theorem primitive_error_returned kernel srcFd progress (v : FileDedupeRange)
    (n fuel : nat) (s : State) (e : Errno) :
  Info v <> [] ->
  loop kernel srcFd progress n (init v progress) = (s, None) ->
  (n < fuel)%nat ->
  reply_err (kernel (length (st_ioctls s)) srcFd (st_req s)) = Some e ->
  FileDedupeRangeFull kernel fuel srcFd (Some v) progress =
    mkOutcome (Some (ReturnErr e)) (Some (st_value s))
      (call_progress progress (0, 0, true) (st_calls s))
      (st_ioctls s ++ [st_req s]).
Proof.
  intros Hne Hn Hlt He. unfold FileDedupeRangeFull.
  destruct (length (Info v) =? 0)%nat eqn:E.
  { apply Nat.eqb_eq in E. by destruct (Info v). }
  destruct (round kernel srcFd progress s) as [s1 x] eqn:Er.
  assert (x = Some (ReturnErr e) /\ st_value s1 = st_value s /\
          st_calls s1 = st_calls s /\ st_ioctls s1 = st_ioctls s ++ [st_req s])
    as (-> & Hv & Hc & Hi).
  { unfold round, IoctlFileDedupeRange in Er. simpl in Er. rewrite He in Er.
    by inversion Er. }
  pose proof (loop_step_exit _ _ _ _ _ _ _ _ Hn Er) as Hs.
  rewrite (loop_exited_stable _ _ _ _ _ _ _ _ Hs Hlt). simpl. by rewrite Hv, Hc, Hi.
Qed.

Lemma primitive_error_returned_witness :
  FileDedupeRangeFull (fun _ _ _ => mkReply (Some 95) (fun _ => (0, 0))) 1 3
    (Some (request 10 [target 7])) true =
    mkOutcome (Some (ReturnErr 95)) (Some (request 10 [target 7]))
      [(0, 10, false); (0, 0, true)] [request 10 [target 7]].
Proof.
  apply (primitive_error_returned (fun _ _ _ => mkReply (Some 95) (fun _ => (0, 0))) 3 true
           (request 10 [target 7]) 0 1 (init (request 10 [target 7]) true) 95);
    [discriminate|reflexivity|lia|reflexivity].
Defined.

(** * The agreement check *)

#[local] Instance is_same_dec (info : FileDedupeRangeInfo) : Decision (is_same info).
Proof. unfold is_same. apply _. Defined.

#[local] Instance agrees_dec (d : Z) (info : FileDedupeRangeInfo) : Decision (agrees d info).
Proof. unfold agrees. apply _. Defined.

Lemma check_loop_none_same (infos : list FileDedupeRangeInfo) (d : Z) :
  Forall (fun info => ~ is_same info) infos -> check_loop infos d false = Some (d, false).
Proof.
  intros H. induction H as [|info infos Hn _ IH]; simpl; [done|].
  destruct (Status info =? FILE_DEDUPE_RANGE_SAME) eqn:E; simpl; [|done].
  exfalso. apply Hn. unfold is_same. lia.
Qed.

(** X5: the check of a round panics exactly when two targets that
    report "same" report different byte counts; otherwise it yields the
    byte count of the targets that report "same", or zero when none
    does. *)
Theorem check_loop_decides (infos : list FileDedupeRangeInfo) :
  (check_loop infos 0 false = None <->
   exists a b, a ∈ infos /\ b ∈ infos /\ is_same a /\ is_same b /\
               Bytes_deduped a <> Bytes_deduped b) /\
  (forall d valid, check_loop infos 0 false = Some (d, valid) ->
     Forall (agrees d) infos /\
     (valid = true <-> Exists is_same infos) /\
     (valid = false -> d = 0)).
Proof.
  split; [split|].
  - intros Hnone.
    destruct (decide (Exists is_same infos)) as [Hex|Hno].
    + apply Exists_exists in Hex as (a & Ha & Sa).
      destruct (decide (Forall (agrees (Bytes_deduped a)) infos)) as [Hall|Hnall].
      { by rewrite (check_loop_agreed infos a 0 Hall Ha Sa) in Hnone. }
      apply not_Forall_Exists in Hnall; [|apply _].
      apply Exists_exists in Hnall as (b & Hb & Hnb). unfold agrees in Hnb. simpl in Hnb.
      destruct (decide (is_same b)) as [Sb|Sb]; [|by exfalso; apply Hnb].
      exists a, b. repeat split; try done. intros Heq. apply Hnb. intros _. done.
    + apply not_Exists_Forall in Hno; [|apply _].
      by rewrite (check_loop_none_same infos 0 Hno) in Hnone.
  - intros (a & b & Ha & Hb & Sa & Sb & Hne). by apply (check_loop_mismatch infos a b).
  - intros d valid H. apply check_loop_spec in H as [Hall Hor]. split; [done|].
    destruct Hor as [(-> & -> & Hn)|(-> & info & Hin & Hs & _)].
    + split; [|done]. split; [done|]. intros Hex.
      apply Exists_exists in Hex as (x & Hx & Sx). rewrite Forall_forall in Hn.
      by destruct (Hn x Hx).
    + split; [|done]. split; [|done]. intros _. apply Exists_exists. by exists info.
Qed.

(** * The progress callback does not steer the run *)

(** A state without its record of progress calls. *)
Definition erase_calls (s : State) : State :=
  mkState (st_value s) (st_req s) (st_req_spare s) (st_indices s) (st_indices_spare s)
    [] (st_ioctls s) (st_rounds s).

Lemma round_erase_calls kernel srcFd progress (s s' : State) e :
  round kernel srcFd progress s = (s', e) ->
  round kernel srcFd false (erase_calls s) = (erase_calls s', e).
Proof.
  unfold round, IoctlFileDedupeRange. simpl. intros H.
  repeat match type of H with
  | context [match ?x with _ => _ end] => destruct x eqn:?
  end; inversion H; subst; reflexivity.
Qed.

Lemma loop_erase_calls kernel srcFd progress :
  forall fuel s s' e,
    loop kernel srcFd progress fuel s = (s', e) ->
    loop kernel srcFd false fuel (erase_calls s) = (erase_calls s', e).
Proof.
  induction fuel as [|fuel IH]; intros s s' e H; simpl in *.
  - by inversion H.
  - destruct (round kernel srcFd progress s) as [s1 [x|]] eqn:E;
      rewrite (round_erase_calls _ _ _ _ _ _ E).
    + by inversion H.
    + by apply IH.
Qed.

(** X6: whether a progress callback is given or not, the function
    ends the same way, leaves the same records to the caller and hands
    the same requests to the primitive; and with no callback no
    progress call is made. *)
Theorem progress_does_not_steer kernel fuel srcFd (value : option FileDedupeRange)
    (progress : bool) :
  let o := FileDedupeRangeFull kernel fuel srcFd value progress in
  let o' := FileDedupeRangeFull kernel fuel srcFd value false in
  out_exit o' = out_exit o /\ out_value o' = out_value o /\
  out_ioctls o' = out_ioctls o /\ out_calls o' = [].
Proof.
  destruct value as [v|]; simpl; [|done].
  destruct (length (Info v) =? 0)%nat; simpl; [done|].
  destruct (loop kernel srcFd progress fuel (init v progress)) as [s e] eqn:E.
  apply loop_erase_calls in E.
  assert (erase_calls (init v progress) = init v false) as Hi by (by destruct progress).
  rewrite Hi in E. rewrite E. simpl. by destruct e.
Qed.

(** * What the progress callback is told *)

(** The calls made so far pass the caller's length as the total and
    no more bytes than the rounds have agreed on. *)
Definition calls_within (v : FileDedupeRange) (s : State) : Prop :=
  Forall (fun c => c.1.2 = Src_length v /\ 0 <= call_bytes c <= total (st_rounds s))
    (st_calls s).

Lemma round_calls_within kernel srcFd progress (v : FileDedupeRange) (s s' : State) e :
  Src_offset v = 0 -> is_uint64 (Src_length v) ->
  accounting v s -> calls_within v s ->
  round kernel srcFd progress s = (s', e) ->
  calls_within v s'.
Proof.
  intros Hoff Hlen (Hr & Ho & Hl & Hp & Hv) Hc H. unfold calls_within in *.
  pose proof (total_nonneg _ Hr) as Ht. unfold is_uint64 in Hlen.
  rewrite Hoff, Z.add_0_l, wrap64_small in Ho by lia.
  round_cases H; simpl; try done.
  all: match goal with Hc : check_loop _ _ _ = Some (?d, _) |- _ =>
         pose proof (agreed_range _ _ _ _ Hc) as Hd end.
  all: match goal with Hc : (_ <? _) = false |- _ => apply Z.ltb_ge in Hc end.
  all: simpl in *.
  all: match goal with |- Forall ?P (call_progress _ (wrap64 (_ + ?d), _, _) ?l) =>
         assert (Forall P l) as Hc'
           by (eapply Forall_impl; [exact Hc|]; simpl; intros ? [? ?];
               rewrite total_snoc; split; [done|lia]) end.
  all: destruct progress; simpl; [|done].
  all: apply Forall_app; split; [done|]; constructor; [|constructor].
  all: unfold call_bytes; simpl; rewrite total_snoc, Ho, wrap64_small by lia.
  all: split; [done|lia].
Qed.

(** For a request that starts at offset zero, no call before the
    final one passes more bytes than the caller's length. *)
Lemma calls_within_total kernel fuel srcFd (v : FileDedupeRange) (c : ProgressCall) :
  Src_offset v = 0 -> is_uint64 (Src_length v) ->
  c ∈ out_calls (FileDedupeRangeFull kernel fuel srcFd (Some v) true) ->
  call_final c = false ->
  c.1.2 = Src_length v /\ 0 <= call_bytes c <= Src_length v.
Proof.
  intros Hoff Hlen Hc Hnf. unfold FileDedupeRangeFull in Hc.
  destruct (length (Info v) =? 0)%nat; simpl in Hc.
  { apply list_elem_of_singleton in Hc. by subst c. }
  assert (is_uint64 (Src_offset v)) as Hoff' by (rewrite Hoff; unfold is_uint64; lia).
  pose proof (loop_invariant kernel srcFd true
    (fun s => accounting v s /\ calls_within v s)) as Hinv.
  destruct (Hinv ltac:(intros s s' e [Ha Hw] Hr; split;
                        [by eapply round_accounting|by eapply round_calls_within])
              fuel (init v true)) as [Ha Hcalls].
  { split; [by apply init_accounting|]. unfold calls_within. simpl.
    constructor; [|constructor]. unfold call_bytes. by simpl. }
  destruct (loop kernel srcFd true fuel (init v true)) as [s e] eqn:E. simpl in *.
  destruct Ha as (Hr0 & Ho & Hl & Hp & Hv). pose proof (total_nonneg _ Hr0).
  unfold calls_within in Hcalls. rewrite Forall_forall in Hcalls.
  destruct e as [x|]; simpl in Hc.
  - apply elem_of_app in Hc as [Hc|Hc].
    + destruct (Hcalls c Hc). split; [done|lia].
    + apply list_elem_of_singleton in Hc. by subst c.
  - destruct (Hcalls c Hc). split; [done|lia].
Qed.



(** * Source and targets advance together *)

(** What the recording loop leaves in [req.Info]: the entry of a
    target that reported "same" has its destination offset advanced,
    any other entry is as it was. *)
Lemma record_loop_rinfo (d : Z) (indices : list nat) (todo : list FileDedupeRangeInfo) :
  forall i vinfo rinfo dl vinfo' rinfo' dl',
    record_loop d indices i todo vinfo rinfo dl = (vinfo', rinfo', dl', true) ->
    forall k,
      rinfo' !! k =
        match todo !! (k - i)%nat with
        | Some info =>
          if bool_decide (i <= k)%nat && (Status info =? FILE_DEDUPE_RANGE_SAME)
          then advance d <$> rinfo !! k else rinfo !! k
        | None => rinfo !! k
        end.
Proof.
  induction todo as [|info todo IH]; intros i vinfo rinfo dl vinfo' rinfo' dl' H k;
    simpl in H.
  - inversion H; subst. by rewrite lookup_nil.
  - destruct (indices !! i) as [idx|]; [|done].
    destruct (vinfo !! idx) as [t|]; [|done].
    destruct (decide (k < i)%nat) as [Hlt|Hge].
    { replace (k - i)%nat with 0%nat by lia. simpl.
      replace (bool_decide (i <= k)%nat) with false
        by (symmetry; apply bool_decide_eq_false; lia).
      simpl. destruct (Status info =? FILE_DEDUPE_RANGE_SAME); apply IH with (k := k) in H;
        rewrite H; replace (k - S i)%nat with 0%nat by lia;
        replace (bool_decide (S i <= k)%nat) with false
          by (symmetry; apply bool_decide_eq_false; lia); simpl.
      - rewrite list_lookup_alter_ne by lia. by destruct (todo !! 0%nat).
      - by destruct (todo !! 0%nat). }
    destruct (decide (k = i)) as [->|Hne].
    { rewrite Nat.sub_diag. simpl.
      replace (bool_decide (i <= i)%nat) with true
        by (symmetry; apply bool_decide_eq_true; lia).
      simpl. destruct (Status info =? FILE_DEDUPE_RANGE_SAME); apply IH with (k := i) in H;
        rewrite H; replace (i - S i)%nat with 0%nat by lia;
        replace (bool_decide (S i <= i)%nat) with false
          by (symmetry; apply bool_decide_eq_false; lia); simpl.
      - rewrite list_lookup_alter_eq. by destruct (todo !! 0%nat).
      - by destruct (todo !! 0%nat). }
    replace (k - i)%nat with (S (k - S i)) by lia. simpl.
    replace (bool_decide (i <= k)%nat) with true
      by (symmetry; apply bool_decide_eq_true; lia).
    destruct (Status info =? FILE_DEDUPE_RANGE_SAME); apply IH with (k := k) in H;
      rewrite H;
      replace (bool_decide (S i <= k)%nat) with true
        by (symmetry; apply bool_decide_eq_true; lia).
    + rewrite list_lookup_alter_ne by lia. done.
    + done.
Qed.

(** What survives a drop in two slices at the same position came from
    the same position, whose target reported "same". *)
Lemma survivors_lookup_pair {A B : Type} (infos : list FileDedupeRangeInfo) :
  forall (l1 : list A) (l2 : list B) k x y,
    survivors infos l1 !! k = Some x -> survivors infos l2 !! k = Some y ->
    exists i info, l1 !! i = Some x /\ l2 !! i = Some y /\
                   infos !! i = Some info /\ is_same info.
Proof.
  induction infos as [|info infos IH]; intros l1 l2 k x y H1 H2; simpl in *.
  - by destruct l1.
  - destruct l1 as [|a l1]; [done|]. destruct l2 as [|b l2]; [done|].
    destruct (Status info =? FILE_DEDUPE_RANGE_SAME) eqn:E.
    + destruct k as [|k]; simpl in *.
      * inversion H1; inversion H2; subst. exists 0%nat, info. repeat split; try done.
        unfold is_same. lia.
      * destruct (IH _ _ _ _ _ H1 H2) as (i & info' & ? & ? & ? & ?).
        by exists (S i), info'.
    + destruct (IH _ _ _ _ _ H1 H2) as (i & info' & ? & ? & ? & ?).
      by exists (S i), info'.
Qed.

(** Every live entry of the request belongs to the caller's record at
    the position [indices] gives, with the destination offset advanced
    by the bytes agreed so far. *)
Definition lockstep (v : FileDedupeRange) (s : State) : Prop :=
  forall i idx r, st_indices s !! i = Some idx -> Info (st_req s) !! i = Some r ->
    exists t0, Info v !! idx = Some t0 /\
      Dest_fd r = Dest_fd t0 /\ Reserved r = Reserved t0 /\
      Dest_offset r = wrap64 (Dest_offset t0 + total (st_rounds s)).

Lemma init_lockstep (v : FileDedupeRange) progress :
  Forall (fun t => is_uint64 (Dest_offset t)) (Info v) -> lockstep v (init v progress).
Proof.
  intros Hd i idx r Hi Hr. simpl in *. apply lookup_seq in Hi as [-> _]. simpl.
  exists r. split; [done|]. split; [done|]. split; [done|].
  rewrite Forall_forall in Hd. rewrite Z.add_0_r, wrap64_small; [done|].
  apply Hd. by eapply list_elem_of_lookup_2.
Qed.

Lemma round_lockstep kernel srcFd progress (v : FileDedupeRange) (s s' : State) :
  live s -> lockstep v s -> round kernel srcFd progress s = (s', None) -> lockstep v s'.
Proof.
  intros Hlive Hlock H.
  destruct (round_running _ _ _ _ _ Hlive H)
    as (d & valid & vinfo & rinfo & _ & _ & Hrec & _ & Hr & Hi & _ & _ & _ & Hrounds).
  intros k idx r' Hk Hr'. rewrite Hi in Hk. rewrite Hr in Hr'.
  destruct (survivors_lookup_pair _ _ _ _ _ _ Hk Hr') as (i & info & Hidx & Hri & Hinfo & Hs).
  pose proof (record_loop_rinfo _ _ _ _ _ _ _ _ _ _ Hrec i) as Hlk.
  rewrite Nat.sub_0_r, Hinfo in Hlk. unfold is_same in Hs.
  rewrite Hs, Z.eqb_refl in Hlk. simpl in Hlk.
  rewrite Hri in Hlk. inversion Hlk; subst r'.
  unfold reports in Hinfo. simpl in Hinfo.
  apply list_lookup_imap_Some in Hinfo as (r0 & Hr0 & ->).
  destruct (Hlock i idx r0 Hidx Hr0) as (t0 & Ht0 & Hfd & Hres & Hoff).
  exists t0. split; [done|]. simpl. split; [done|]. split; [done|].
  rewrite Hrounds, total_snoc, Hoff, wrap64_add_l. f_equal. lia.
Qed.

(** X8: at the head of every round, each live entry of the request
    carries the descriptor of the caller's record at its original
    position and that record's destination offset plus the bytes agreed
    so far, the very amount the source offset has advanced by. *)
Theorem targets_advance_with_source kernel srcFd progress (v : FileDedupeRange)
    (s : State) :
  is_uint64 (Src_offset v) -> is_uint64 (Src_length v) ->
  Forall (fun t => is_uint64 (Dest_offset t)) (Info v) ->
  reachable kernel srcFd progress v s ->
  Src_offset (st_req s) = wrap64 (Src_offset v + total (st_rounds s)) /\
  forall i idx r, st_indices s !! i = Some idx -> Info (st_req s) !! i = Some r ->
    exists t0, Info v !! idx = Some t0 /\
      Dest_fd r = Dest_fd t0 /\ Reserved r = Reserved t0 /\
      Dest_offset r = wrap64 (Dest_offset t0 + total (st_rounds s)).
Proof.
  intros Hoff Hlen Hd Hs.
  pose proof (reachable_sound _ _ _ _ Hoff Hlen s Hs) as [_ (_ & Ho & _)].
  split; [done|]. destruct Hs as [n Hn].
  apply (loop_running_invariant kernel srcFd progress
           (fun s => live s /\ lockstep v s)) with (n := n) (s := init v progress);
    [|split; [apply init_live|by apply init_lockstep]|done].
  intros s0 s1 [Hl Hk] Hr. split; [by eapply round_live|by eapply round_lockstep].
Qed.

Lemma targets_advance_with_source_witness :
  let v := mkRange 100 10 0 0 [mkInfo 7 200 0 0 0; mkInfo 8 300 0 0 0] in
  let s := (loop kernel_second_differs 3 true 1 (init v true)).1 in
  Src_offset (st_req s) = wrap64 (100 + total (st_rounds s)) /\
  forall i idx r, st_indices s !! i = Some idx -> Info (st_req s) !! i = Some r ->
    exists t0, Info v !! idx = Some t0 /\
      Dest_fd r = Dest_fd t0 /\ Reserved r = Reserved t0 /\
      Dest_offset r = wrap64 (Dest_offset t0 + total (st_rounds s)).
Proof.
  apply (targets_advance_with_source kernel_second_differs 3 true
           (mkRange 100 10 0 0 [mkInfo 7 200 0 0 0; mkInfo 8 300 0 0 0])).
  - unfold is_uint64. simpl. lia.
  - unfold is_uint64. simpl. lia.
  - repeat constructor; simpl; lia.
  - by exists 1%nat.
Defined.

(** * The requests handed to the primitive *)

(** The [k]-th request starts where the bytes agreed in the first [k]
    rounds end and asks for what is left; the reserved fields are the
    caller's. *)
Definition windows (v : FileDedupeRange) (s : State) : Prop :=
  forall k r, st_ioctls s !! k = Some r ->
    Src_offset r = wrap64 (Src_offset v + total (take k (st_rounds s))) /\
    Src_length r = Src_length v - total (take k (st_rounds s)) /\
    Reserved1 r = Reserved1 v /\ Reserved2 r = Reserved2 v.

Definition at_head (v : FileDedupeRange) (s : State) : Prop :=
  accounting v s /\ length (st_ioctls s) = length (st_rounds s) /\
  Reserved1 (st_req s) = Reserved1 v /\ Reserved2 (st_req s) = Reserved2 v.

Lemma round_at_head kernel srcFd progress (v : FileDedupeRange) (s s' : State) :
  is_uint64 (Src_length v) -> at_head v s ->
  round kernel srcFd progress s = (s', None) -> at_head v s'.
Proof.
  intros Hlen (Ha & Hl & H1 & H2) H.
  split; [by eapply round_accounting|].
  round_cases H; simpl. rewrite !length_app. simpl. by rewrite Hl.
Qed.

Lemma windows_snoc (v : FileDedupeRange) (s : State) ioctls rounds :
  at_head v s -> windows v s ->
  ioctls = st_ioctls s ++ [st_req s] ->
  (rounds = st_rounds s \/ exists d, rounds = st_rounds s ++ [d]) ->
  forall k r, ioctls !! k = Some r ->
    Src_offset r = wrap64 (Src_offset v + total (take k rounds)) /\
    Src_length r = Src_length v - total (take k rounds) /\
    Reserved1 r = Reserved1 v /\ Reserved2 r = Reserved2 v.
Proof.
  intros ((_ & Ho & Hlen & _) & Hl & H1 & H2) Hw -> Hrounds k r Hk.
  assert (take k rounds = take k (st_rounds s)) as ->.
  { pose proof (lookup_lt_Some _ _ _ Hk) as Hlt. rewrite length_app in Hlt. simpl in Hlt.
    destruct Hrounds as [->|[d ->]]; [done|]. rewrite take_app_le; [done|lia]. }
  destruct (decide (k < length (st_ioctls s))%nat) as [Hlt|Hge].
  - rewrite lookup_app_l in Hk by done. by apply Hw.
  - rewrite lookup_app_r in Hk by lia.
    destruct (k - length (st_ioctls s))%nat as [|j] eqn:Ej; simpl in Hk; [|done].
    inversion Hk; subst r. rewrite take_ge by lia. done.
Qed.

Lemma round_windows kernel srcFd progress (v : FileDedupeRange) (s s' : State) e :
  at_head v s -> windows v s ->
  round kernel srcFd progress s = (s', e) -> windows v s'.
Proof.
  intros Hh Hw H. unfold windows.
  round_cases H; simpl; eapply windows_snoc; eauto.
Qed.

(** X9: in every run, the [k]-th request handed to the primitive has
    the caller's reserved fields, starts at the caller's source offset
    plus the bytes agreed in the first [k] rounds, and asks for the
    caller's length minus those bytes. *)
Theorem requests_cover_the_rest kernel srcFd progress (v : FileDedupeRange)
    (fuel k : nat) (r : FileDedupeRange) :
  is_uint64 (Src_offset v) -> is_uint64 (Src_length v) ->
  let s := (loop kernel srcFd progress fuel (init v progress)).1 in
  st_ioctls s !! k = Some r ->
  Src_offset r = wrap64 (Src_offset v + total (take k (st_rounds s))) /\
  Src_length r = Src_length v - total (take k (st_rounds s)) /\
  Reserved1 r = Reserved1 v /\ Reserved2 r = Reserved2 v.
Proof.
  intros Hoff Hlen s. subst s.
  apply (loop_invariant_with kernel srcFd progress (at_head v) (windows v)).
  - intros s s' Hs Hr. by eapply round_at_head.
  - intros s s' e Hs Hw Hr. by eapply round_windows.
  - split; [by apply init_accounting|done].
  - intros j x Hj. simpl in Hj. by rewrite lookup_nil in Hj.
Qed.

Lemma requests_cover_the_rest_witness :
  Src_offset (mkRange 104 6 0 0 [mkInfo 7 4 4 0 0]) =
    wrap64 (100 + total (take 1 [4; 4; 2])) /\
  Src_length (mkRange 104 6 0 0 [mkInfo 7 4 4 0 0]) = 10 - total (take 1 [4; 4; 2]) /\
  Reserved1 (mkRange 104 6 0 0 [mkInfo 7 4 4 0 0]) = 0 /\
  Reserved2 (mkRange 104 6 0 0 [mkInfo 7 4 4 0 0]) = 0.
Proof.
  apply (requests_cover_the_rest (kernel_capped 4) 3 true
           (mkRange 100 10 0 0 [target 7]) 5 1 (mkRange 104 6 0 0 [mkInfo 7 4 4 0 0])).
  - unfold is_uint64. simpl. lia.
  - unfold is_uint64. simpl. lia.
  - reflexivity.
Defined.

(** * When every target matches *)

(** The primitive reports no error, and every target reports "same"
    with one positive byte count that does not exceed what is asked. *)
Definition cooperative (kernel : DedupeKernel) (srcFd : Z) (s : State) : Prop :=
  primitive_ok kernel srcFd s /\
  exists d, 0 < d <= Src_length (st_req s) /\
    Forall (fun info => is_same info /\ Bytes_deduped info = d) (reports kernel srcFd s).

Lemma non_same_from_same (todo : list FileDedupeRangeInfo) (i : nat) :
  Forall is_same todo -> non_same_from i todo = [].
Proof.
  intros H. revert i. induction H as [|info todo Hs _ IH]; intros i; simpl; [done|].
  unfold is_same in Hs. by rewrite Hs, Z.eqb_refl.
Qed.

(** No target has been dropped, and every record holds the bytes
    agreed so far. *)
Definition all_live (s : State) : Prop :=
  st_indices s = seq 0 (length (Info (st_value s))) /\
  Info (st_value s) <> [] /\
  Forall (fun t => Bytes_deduped t = total (st_rounds s)) (Info (st_value s)).

Lemma round_cooperative kernel srcFd progress (v : FileDedupeRange) (s s' : State) e :
  is_uint64 (Src_length v) ->
  sound v s -> all_live s -> cooperative kernel srcFd s ->
  round kernel srcFd progress s = (s', e) ->
  (e = None \/ (e = Some ReturnNil /\ Src_length (st_req s') = 0)) /\
  all_live s' /\
  Forall (fun t => Status t = FILE_DEDUPE_RANGE_SAME) (Info (st_value s')).
Proof.
  intros Hlen [Hlive Hacc] (Hseq & Hne & Hbytes) (Hok & d & Hd & Hall) H.
  pose proof Hlive as (Hnd & Hli & Hle & Hin).
  pose proof Hacc as (Hr & _ & Hl & Hp & _). pose proof (total_nonneg _ Hr) as Ht.
  unfold is_uint64 in Hlen.
  assert (Forall is_same (reports kernel srcFd s)) as Hsame
    by (eapply Forall_impl; [exact Hall|]; by intros ? [? ?]).
  assert (length (Info (st_req s)) = length (Info (st_value s))) as Hn
    by (by rewrite <- Hli, Hseq, length_seq).
  assert (exists a, a ∈ reports kernel srcFd s) as [a Ha].
  { destruct (reports kernel srcFd s) as [|a l] eqn:E.
    - pose proof (reports_length kernel srcFd s) as Hrl. rewrite E, Hn in Hrl.
      simpl in Hrl. by destruct (Info (st_value s)).
    - exists a. apply list_elem_of_here. }
  rewrite Forall_forall in Hall. destruct (Hall a Ha) as [Sa Ba].
  assert (check_loop (reports kernel srcFd s) 0 false = Some (d, true)) as Hc.
  { rewrite <- Ba. apply check_loop_agreed; [|done|done].
    apply Forall_forall. intros x Hx _. destruct (Hall x Hx) as [_ ->]. done. }
  assert (forall vinfo rinfo dl ok,
            record_loop d (st_indices s) 0 (reports kernel srcFd s) (Info (st_value s))
              (reports kernel srcFd s) [] = (vinfo, rinfo, dl, ok) ->
            ok = true /\ dl = [] /\ length rinfo = length (Info (st_req s)) /\
            length vinfo = length (Info (st_value s)) /\
            Forall (fun t => Bytes_deduped t = total (st_rounds s) + d /\
                             Status t = FILE_DEDUPE_RANGE_SAME) vinfo) as Hrecord.
  { intros vinfo rinfo dl ok Hrec.
    assert (ok = true) as ->.
    { pose proof (record_loop_ok d (st_indices s) (reports kernel srcFd s) 0
                    (Info (st_value s)) (reports kernel srcFd s) []) as Hk.
      rewrite Hrec in Hk. apply Hk. intros j Hj.
      rewrite reports_length, Hn in Hj. exists j. rewrite Hseq.
      split; [by apply lookup_seq_lt|done]. }
    pose proof (record_loop_dropList _ _ _ _ _ _ _ _ _ _ Hrec) as Hdl.
    simpl in Hdl. rewrite non_same_from_same in Hdl by done.
    pose proof (record_loop_length _ _ _ _ _ _ _ _ _ _ _ Hrec) as [Hlv Hlr].
    rewrite reports_length in Hlr.
    split; [done|]. split; [done|]. split; [done|]. split; [done|].
    apply Forall_forall. intros t' [j Hj]%list_elem_of_lookup.
    assert (j < length (reports kernel srcFd s))%nat as Hjl.
    { rewrite reports_length, Hn, <- Hlv. by eapply lookup_lt_Some. }
    destruct (lookup_lt_is_Some_2 _ _ Hjl) as [info Hinfo].
    destruct (record_loop_lookup _ _ _ Hnd _ _ _ _ _ _ _ _ _ Hrec Hinfo)
      as (idx & t & Hidx & Htv & Hres).
    simpl in Hidx. rewrite Hseq in Hidx. apply lookup_seq in Hidx as [-> _]. simpl in Hres.
    rewrite Hj in Hres. inversion Hres; subst t'. simpl.
    destruct (Hall info (list_elem_of_lookup_2 _ _ _ Hinfo)) as [Si Bi].
    rewrite Forall_forall in Hbytes.
    rewrite (Hbytes t (list_elem_of_lookup_2 _ _ _ Htv)), Bi.
    split; [rewrite wrap64_small; lia|done]. }
  unfold primitive_ok in Hok. unfold reports in Hc, Hrecord. simpl in Hc, Hrecord.
  unfold round, IoctlFileDedupeRange in H. simpl in H. rewrite Hok, Hc in H.
  destruct (Src_length (st_req s) <? d) eqn:E; [apply Z.ltb_lt in E; lia|].
  destruct (record_loop d (st_indices s) 0 _ (Info (st_value s)) _ [])
    as [[[vinfo rinfo] dl] ok] eqn:Hrec in H.
  destruct (Hrecord _ _ _ _ Hrec) as (-> & -> & Hlr & Hlv & Hv).
  simpl in H.
  assert (vinfo <> []) as Hvne by (intros ->; simpl in Hlv; by destruct (Info (st_value s))).
  assert (all_live (mkState (set_Info vinfo (st_value s))
                      (set_Info rinfo (set_Src (wrap64 (Src_offset (st_req s) + d))
                                         (wrap64 (Src_length (st_req s) - d)) (st_req s)))
                      (st_req_spare s) (st_indices s) (st_indices_spare s)
                      (call_progress progress
                         (wrap64 (Src_offset (st_req s) + d), Src_length (st_value s), false)
                         (st_calls s))
                      (st_ioctls s ++ [st_req s]) (st_rounds s ++ [d]))) as Hnext.
  { split; [|split]; simpl.
    - by rewrite Hlv.
    - done.
    - rewrite total_snoc. eapply Forall_impl; [exact Hv|]. by intros ? [? ?]. }
  assert (Forall (fun t => Status t = FILE_DEDUPE_RANGE_SAME) vinfo) as Hst
    by (eapply Forall_impl; [exact Hv|]; by intros ? [? ?]).
  destruct (wrap64 (Src_length (st_req s) - d) =? 0) eqn:E0.
  { inversion H; subst. apply Z.eqb_eq in E0. split; [right; by split|]. by split. }
  unfold drop_targets in H. simpl in H.
  destruct (length rinfo =? 0)%nat eqn:El.
  { apply Nat.eqb_eq in El. rewrite Hlr, Hn, <- Hlv in El. by destruct vinfo. }
  inversion H; subst. split; [by left|]. by split.
Qed.

(** A run in which every round is cooperative. *)
Lemma cooperative_run kernel srcFd progress (v : FileDedupeRange) :
  is_uint64 (Src_offset v) -> is_uint64 (Src_length v) ->
  Info v <> [] ->
  Forall (fun t => Bytes_deduped t = 0) (Info v) ->
  (forall s, reachable kernel srcFd progress v s -> cooperative kernel srcFd s) ->
  let o := FileDedupeRangeFull kernel (S (Z.to_nat (Src_length v))) srcFd (Some v)
             progress in
  out_exit o = Some ReturnNil /\
  exists v', out_value o = Some v' /\
    Forall (fun t => Bytes_deduped t = Src_length v /\ Status t = FILE_DEDUPE_RANGE_SAME)
      (Info v').
Proof.
  intros Hoff Hlen Hne Hzero Hcoop. unfold FileDedupeRangeFull.
  destruct (length (Info v) =? 0)%nat eqn:E.
  { apply Nat.eqb_eq in E. by destruct (Info v). }
  assert (forall s, reachable kernel srcFd progress v s -> no_stalled_report kernel srcFd s)
    as Hns.
  { intros s Hs. destruct (Hcoop s Hs) as (_ & d & Hd & Hall).
    eapply Forall_impl; [exact Hall|]. simpl. intros info [_ ->] _. lia. }
  destruct (loop_terminates kernel srcFd progress v Hoff Hlen
              (S (Z.to_nat (Src_length v))) Hns (init v progress)) as (s' & x & Hrun).
  { by exists 0%nat. }
  { simpl. unfold is_uint64 in Hlen. lia. }
  rewrite Hrun. simpl.
  apply loop_exit_inv in Hrun as (n & s0 & _ & Hn & Hr).
  assert (sound v s0 /\ all_live s0 /\ reachable kernel srcFd progress v s0)
    as (Hsound & Hlive & Hreach).
  { assert (forall m s, loop kernel srcFd progress m (init v progress) = (s, None) ->
              sound v s /\ all_live s) as Hinv.
    { induction m as [|m IH]; intros s Hm.
      - simpl in Hm. inversion Hm; subst. split; [by apply init_sound|].
        split; [done|]. split; [done|]. simpl.
        eapply Forall_impl; [exact Hzero|]. by intros ? ->.
      - apply loop_running_inv in Hm as (s1 & Hm & Hr1).
        destruct (IH _ Hm) as [Hs1 Hl1].
        split; [by eapply round_sound|].
        destruct (round_cooperative kernel srcFd progress v s1 s None Hlen Hs1 Hl1) as (_ & ? & _);
          [|done|done].
        apply Hcoop. by exists m. }
    destruct (Hinv n s0 Hn) as [? ?]. split; [done|]. split; [done|]. by exists n. }
  destruct (round_cooperative kernel srcFd progress v s0 s' (Some x) Hlen Hsound Hlive
              (Hcoop s0 Hreach) Hr) as ([Hx|[Hx Hz]] & (_ & _ & Hb) & Hst); [done|].
  inversion Hx; subst x. split; [done|]. exists (st_value s'). split; [done|].
  destruct Hsound as [_ Hacc].
  pose proof (round_accounting _ _ _ _ _ _ _ Hlen Hacc Hr) as (_ & _ & Hl & _).
  rewrite Forall_forall in Hb, Hst |- *. intros t Ht.
  split; [rewrite (Hb t Ht); lia|by apply Hst].
Qed.

(** X10: when, throughout the run, the primitive reports no error and
    every target reports "same" with one positive byte count within
    what was asked, FileDedupeRangeFull returns nil within (requested
    length + 1) rounds, and every record of the caller, having started
    at zero bytes, ends with the requested length as its byte count and
    "same" as its status. *)
Theorem matching_targets_deduped_in_full kernel srcFd progress (v : FileDedupeRange) :
  is_uint64 (Src_offset v) -> is_uint64 (Src_length v) ->
  Info v <> [] ->
  Forall (fun t => Bytes_deduped t = 0) (Info v) ->
  (forall s, reachable kernel srcFd progress v s -> cooperative kernel srcFd s) ->
  let o := FileDedupeRangeFull kernel (S (Z.to_nat (Src_length v))) srcFd (Some v)
             progress in
  out_exit o = Some ReturnNil /\
  exists v', out_value o = Some v' /\
    Forall (fun t => Bytes_deduped t = Src_length v /\ Status t = FILE_DEDUPE_RANGE_SAME)
      (Info v').
Proof. apply cooperative_run. Qed.

Lemma kernel_capped_cooperative (cap srcFd : Z) (progress : bool) (v : FileDedupeRange) :
  0 < cap -> is_uint64 (Src_offset v) -> is_uint64 (Src_length v) ->
  0 < Src_length v ->
  forall s, reachable (kernel_capped cap) srcFd progress v s ->
    cooperative (kernel_capped cap) srcFd s.
Proof.
  intros Hcap Hoff Hlen Hpos s Hs.
  pose proof (reachable_sound _ _ _ _ Hoff Hlen s Hs) as Hsound.
  pose proof (sound_length_range _ Hlen s Hsound) as Hrange.
  assert (Src_length (st_req s) <> 0) as Hne.
  { destruct (reachable_goes_on _ _ _ _ _ Hs) as [->|[? _]]; [simpl; lia|done]. }
  split; [done|]. exists (Z.min cap (Src_length (st_req s))). split; [lia|].
  unfold reports. simpl. apply Forall_forall.
  intros info [i Hi]%list_elem_of_lookup.
  apply list_lookup_imap_Some in Hi as (t & _ & ->). split; [done|]. simpl.
  rewrite wrap64_small; lia.
Qed.

Lemma matching_targets_deduped_in_full_witness :
  let o := FileDedupeRangeFull (kernel_capped 4) 11 3
             (Some (request 10 [target 7; target 8])) true in
  out_exit o = Some ReturnNil /\
  exists v', out_value o = Some v' /\
    Forall (fun t => Bytes_deduped t = 10 /\ Status t = FILE_DEDUPE_RANGE_SAME) (Info v').
Proof.
  apply (matching_targets_deduped_in_full (kernel_capped 4) 3 true
           (request 10 [target 7; target 8])).
  - unfold is_uint64. simpl. lia.
  - unfold is_uint64. simpl. lia.
  - discriminate.
  - repeat constructor.
  - apply kernel_capped_cooperative; unfold is_uint64; simpl; lia.
Defined.

(** * More on FileDedupeRangeStatusToString *)

(** X11: a negative status is rendered with the error number that is
    its negation, except for the least int32, whose negation wraps and
    is converted to 2^64 - 2^31; a status of two or more is rendered as
    "unknown status(n)" with [n] in decimal. *)
Theorem StatusToString_other_codes (Errno_Error : Errno -> string) (status : Z) :
  - 2 ^ 31 <= status < 2 ^ 31 ->
  (status < 0 ->
     exists e, FileDedupeRangeStatusToString Errno_Error status =
                 String.append "errno " (Errno_Error e) /\
       (- 2 ^ 31 < status -> e = - status) /\
       (status = - 2 ^ 31 -> e = 2 ^ 64 - 2 ^ 31)) /\
  (2 <= status ->
     FileDedupeRangeStatusToString Errno_Error status =
       String.append "unknown status(" (String.append (pretty status) ")")).
Proof.
  intros Hr. split.
  - intros Hneg. exists (wrap64 (wrap_int32 (- status))).
    unfold FileDedupeRangeStatusToString. apply Z.ltb_lt in Hneg as Hb. rewrite Hb.
    split; [done|]. split.
    + intros Hmin. unfold wrap_int32, wrap64.
      rewrite (Z.mod_small (- status + 2 ^ 31)) by lia. rewrite Z.mod_small; lia.
    + intros ->. reflexivity.
  - intros H2. unfold FileDedupeRangeStatusToString.
    destruct (status <? 0) eqn:E1; [apply Z.ltb_lt in E1; lia|].
    destruct (status =? FILE_DEDUPE_RANGE_SAME) eqn:E2;
      [apply Z.eqb_eq in E2; unfold FILE_DEDUPE_RANGE_SAME in E2; lia|].
    destruct (status =? FILE_DEDUPE_RANGE_DIFFERS) eqn:E3;
      [apply Z.eqb_eq in E3; unfold FILE_DEDUPE_RANGE_DIFFERS in E3; lia|].
    done.
Qed.

Lemma StatusToString_other_codes_witness :
  FileDedupeRangeStatusToString Errno_decimal 7 = "unknown status(7)"%string /\
  FileDedupeRangeStatusToString Errno_decimal (- 2 ^ 31) =
    "errno 18446744071562067968"%string.
Proof.
  split.
  - destruct (StatusToString_other_codes Errno_decimal 7) as [_ H]; [lia|].
    rewrite H by lia. reflexivity.
  - destruct (StatusToString_other_codes Errno_decimal (- 2 ^ 31)) as [H _]; [lia|].
    destruct H as (e & -> & _ & He); [lia|]. rewrite He by reflexivity. reflexivity.
Defined.

(** * More on IoctlFiemap *)

(** The request a round starting in state [s] hands to the primitive. *)
Definition query_of (flags : Z) (s : WalkState) : rawFiemap.t :=
  rawFiemap.mk (nextLogicalStart s) FIEMAP_MAX_OFFSET flags 0
    (wrap32 (Z.of_nat (length (fmExtents s)))) 0.

(** The state of a walk with other records in its extent buffer. *)
Definition with_extents (extents : list FiemapExtent.t) (s : WalkState) : WalkState :=
  mkWalk (nextExtentIndexOffset s) (nextLogicalStart s) extents (w_queries s) (w_trace s).

(** Two results of a walk that differ at most in what the extent buffer
    holds. *)
Definition same_walk (r r' : WalkState * option Exit) : Prop :=
  r.2 = r'.2 /\ w_trace r.1 = w_trace r'.1 /\ w_queries r.1 = w_queries r'.1 /\
  nextExtentIndexOffset r.1 = nextExtentIndexOffset r'.1 /\
  nextLogicalStart r.1 = nextLogicalStart r'.1 /\
  length (fmExtents r.1) = length (fmExtents r'.1).

Lemma same_walk_refl (r : WalkState * option Exit) : same_walk r r.
Proof. by repeat split. Qed.

Lemma IoctlFiemap_output_only (bufPtr : Z) (kernel : FiemapKernel) (nth_call : nat)
    (fd : Z) (value : Fiemap.t) (extents : list FiemapExtent.t) :
  length extents = length (Fiemap.Extents value) ->
  IoctlFiemap bufPtr kernel nth_call fd
    (Fiemap.mk (Fiemap.Start value) (Fiemap.Length value) (Fiemap.Flags value)
       (Fiemap.Mapped_extents value) (Fiemap.Reserved value) extents) =
  IoctlFiemap bufPtr kernel nth_call fd value.
Proof. intros Hl. unfold IoctlFiemap. simpl. by rewrite Hl. Qed.

(** A round does the same whatever the buffer holds when it starts;
    only a round that panics on the alignment leaves the buffer as it
    found it. *)
Lemma walk_round_output_only alloc kernel fd flags callback (s : WalkState)
    (extents : list FiemapExtent.t) :
  length extents = length (fmExtents s) ->
  walk_round alloc kernel fd flags callback (with_extents extents s) =
    walk_round alloc kernel fd flags callback s \/
  (walk_round alloc kernel fd flags callback s = (s, Some (Panic msg_unaligned)) /\
   walk_round alloc kernel fd flags callback (with_extents extents s) =
     (with_extents extents s, Some (Panic msg_unaligned))).
Proof.
  intros Hl. unfold walk_round.
  pose proof (IoctlFiemap_output_only (alloc (w_queries s)) kernel (w_queries s) fd
                (Fiemap.mk (nextLogicalStart s) FIEMAP_MAX_OFFSET flags 0 0 (fmExtents s))
                extents Hl) as Hio.
  simpl in Hio. unfold with_extents at 1 2 3 4. simpl. rewrite Hio.
  destruct (IoctlFiemap (alloc (w_queries s)) kernel (w_queries s) fd
              (Fiemap.mk (nextLogicalStart s) FIEMAP_MAX_OFFSET flags 0 0 (fmExtents s)))
    as [[[fm' err]|] issued]; [by left|by right].
Qed.

Lemma walk_loop_output_only alloc kernel fd flags callback (fuel : nat) :
  forall (s : WalkState) (extents : list FiemapExtent.t),
    length extents = length (fmExtents s) ->
    same_walk (walk_loop alloc kernel fd flags callback fuel (with_extents extents s))
              (walk_loop alloc kernel fd flags callback fuel s).
Proof.
  induction fuel as [|fuel IH]; intros s extents Hl; simpl.
  - by repeat split.
  - destruct (walk_round_output_only alloc kernel fd flags callback s extents Hl)
      as [->|[-> ->]]; [apply same_walk_refl|by repeat split].
Qed.

(** Every visit of the trace is of a record that the reply to the
    query just before it wrote, or of a zero record; [n] is the number
    of queries made before the trace and [reply] what the last of them
    was answered with. *)
Fixpoint fresh (kernel : FiemapKernel) (fd : Z) (n : nat) (reply : list FiemapExtent.t)
    (trace : list WalkEvent) : Prop :=
  match trace with
  | [] => True
  | Query q :: t => fresh kernel fd (S n) (fr_extents (kernel n fd q)) t
  | Visit _ e :: t => (e ∈ reply \/ e = FiemapExtent.zero) /\ fresh kernel fd n reply t
  end.

Lemma fresh_visits kernel fd (n : nat) (reply : list FiemapExtent.t)
    (trace : list WalkEvent) :
  queries trace = [] ->
  Forall (fun v => v.2 ∈ reply \/ v.2 = FiemapExtent.zero) (visits trace) ->
  fresh kernel fd n reply trace.
Proof.
  induction trace as [|[q|i e] t IH]; simpl; [done|done|].
  intros Hq Hv. inversion Hv; subst. split; [done|]. by apply IH.
Qed.

Lemma fresh_round kernel fd (t1 ev : list WalkEvent) (q : rawFiemap.t) :
  forall n reply,
    fresh kernel fd n reply t1 ->
    fresh kernel fd (S (n + length (queries t1)))
      (fr_extents (kernel (n + length (queries t1))%nat fd q)) ev ->
    fresh kernel fd n reply (t1 ++ Query q :: ev).
Proof.
  induction t1 as [|[q1|i e] t1 IH]; intros n reply H1 H2; simpl in *.
  - by rewrite Nat.add_0_r in H2.
  - apply IH; [done|]. by replace (S n + length (queries t1))%nat
      with (n + S (length (queries t1)))%nat by lia.
  - destruct H1 as [He H1]. split; [done|]. by apply IH.
Qed.

Lemma scan_visits_in callback offset (chunk : list FiemapExtent.t) :
  forall i, Forall (fun v => v.2 ∈ chunk) (visits (scan callback offset i chunk).1).
Proof.
  induction chunk as [|e rest IH]; intros i; simpl; [constructor|].
  destruct (stop_at callback (wrap_int (offset + Z.of_nat i)) e); simpl.
  - constructor; [apply list_elem_of_here|constructor].
  - constructor; [apply list_elem_of_here|].
    eapply Forall_impl; [apply IH|]. intros v Hv. by apply list_elem_of_further.
Qed.

Lemma buffer_extents_elem (n : nat) (written : list FiemapExtent.t) e :
  e ∈ buffer_extents n written -> e ∈ written \/ e = FiemapExtent.zero.
Proof.
  unfold buffer_extents. intros H. apply elem_of_take in H as (i & H & _).
  apply list_elem_of_lookup_2, elem_of_app in H as [H|H]; [by left|right].
  by apply elem_of_replicate in H as [-> _].
Qed.

(** What a round adds to the trace: nothing, or one query and visits
    of records of the reply to it. *)
Lemma walk_round_fresh alloc kernel fd flags callback (s s' : WalkState) exit :
  walk_round alloc kernel fd flags callback s = (s', exit) ->
  s' = s \/
  exists ev,
    w_trace s' = w_trace s ++ Query (query_of flags s) :: ev /\
    queries ev = [] /\ w_queries s' = S (w_queries s) /\
    Forall (fun v => v.2 ∈ fr_extents (kernel (w_queries s) fd (query_of flags s)) \/
                     v.2 = FiemapExtent.zero) (visits ev).
Proof.
  unfold walk_round, IoctlFiemap, query_of. simpl.
  destruct (alloc (w_queries s) mod 8 =? 0); simpl.
  2:{ intros H. inversion H; subst. by left. }
  intros H. right.
  set (q := rawFiemap.mk (nextLogicalStart s) FIEMAP_MAX_OFFSET flags 0
              (wrap32 (Z.of_nat (length (fmExtents s)))) 0) in *.
  set (reply := kernel (w_queries s) fd q) in *.
  set (exts := buffer_extents (length (fmExtents s)) (fr_extents reply)) in *.
  destruct (fr_err reply) as [err|].
  { inversion H; subst. exists []. simpl. by repeat split. }
  destruct (wrap32 (fr_Mapped_extents reply) =? 0).
  { inversion H; subst. exists []. simpl. by repeat split. }
  rewrite visit_loop_scan in H by lia. rewrite drop_0 in H. simpl in H.
  set (todo := Z.to_nat (wrap32 (fr_Mapped_extents reply))) in *.
  pose proof (scan_queries callback (nextExtentIndexOffset s) (take todo exts) 0) as Hq.
  pose proof (scan_visits_in callback (nextExtentIndexOffset s) (take todo exts) 0) as Hv.
  assert (Forall (fun v : Z * FiemapExtent.t =>
                    v.2 ∈ fr_extents reply \/ v.2 = FiemapExtent.zero)
            (visits (scan callback (nextExtentIndexOffset s) 0 (take todo exts)).1)) as Hv'.
  { eapply Forall_impl; [exact Hv|]. intros v Hin. simpl in Hin.
    apply elem_of_take in Hin as (i & Hin & _).
    apply list_elem_of_lookup_2 in Hin. by apply buffer_extents_elem in Hin. }
  destruct (scan callback (nextExtentIndexOffset s) 0 (take todo exts)) as [events ex].
  simpl in H, Hq, Hv'. exists events.
  destruct ex as [x|].
  { inversion H; subst. simpl. by rewrite <- app_assoc. }
  destruct (todo <=? length exts)%nat.
  2:{ inversion H; subst. simpl. by rewrite <- app_assoc. }
  destruct (exts !! Z.to_nat (wrap32 (fr_Mapped_extents reply) - 1));
    inversion H; subst; simpl; by rewrite <- app_assoc.
Qed.

Lemma walk_loop_fresh alloc kernel fd flags callback (fuel : nat) :
  forall s : WalkState,
    w_queries s = length (queries (w_trace s)) ->
    fresh kernel fd 0 [] (w_trace s) ->
    fresh kernel fd 0 [] (w_trace (walk_loop alloc kernel fd flags callback fuel s).1).
Proof.
  induction fuel as [|fuel IH]; intros s Hn Hf; simpl; [done|].
  destruct (walk_round alloc kernel fd flags callback s) as [s' e] eqn:E.
  assert (w_queries s' = length (queries (w_trace s')) /\
          fresh kernel fd 0 [] (w_trace s')) as [Hn' Hf'].
  { destruct (walk_round_fresh _ _ _ _ _ _ _ _ E) as [->|(ev & Ht & Hq & Hw & Hv)];
      [done|].
    rewrite Ht, Hw, queries_app. simpl. rewrite Hq, length_app. simpl.
    split; [lia|]. apply fresh_round; [done|]. simpl. rewrite <- Hn.
    by apply fresh_visits. }
  destruct e as [x|]; simpl; [done|]. by apply IH.
Qed.

(** X12: IoctlFiemap uses the caller's extent array as output only, as
    its comment says.  Given the length of the array, what it held
    before the call changes neither the request handed to the
    primitive nor the error nor the value the caller is left with.  So
    a walk, which hands one array to every round, does not depend on
    the records a round before left in it: from any state and with any
    records in the buffer it ends the same way, with the same queries
    and visits in the same order.  And every extent that FiemapWalk
    passes to the callback is a record that the primitive wrote in its
    reply to the query just before, or a zero record: never one of an
    earlier reply. *)
Theorem IoctlFiemap_extents_output_only alloc (kernel : FiemapKernel) (fd flags : Z)
    callback (fuel : nat) (s : WalkState) (value : Fiemap.t)
    (extents : list FiemapExtent.t) (bufPtr : Z) (nth_call : nat) :
  length extents = length (Fiemap.Extents value) ->
  length extents = length (fmExtents s) ->
  IoctlFiemap bufPtr kernel nth_call fd
    (Fiemap.mk (Fiemap.Start value) (Fiemap.Length value) (Fiemap.Flags value)
       (Fiemap.Mapped_extents value) (Fiemap.Reserved value) extents) =
    IoctlFiemap bufPtr kernel nth_call fd value /\
  same_walk (walk_loop alloc kernel fd flags callback fuel (with_extents extents s))
            (walk_loop alloc kernel fd flags callback fuel s) /\
  fresh kernel fd 0 [] (w_trace (FiemapWalk alloc kernel fuel fd flags callback).1).
Proof.
  intros Hv Hs. split; [|split].
  - by apply IoctlFiemap_output_only.
  - by apply walk_loop_output_only.
  - unfold FiemapWalk, FiemapWalkSized. by apply walk_loop_fresh.
Qed.

Lemma IoctlFiemap_extents_output_only_witness :
  IoctlFiemap 16 (file_kernel file10) 0 3
    (Fiemap.mk 0 FIEMAP_MAX_OFFSET 0 0 0 (take 4 file10)) =
    IoctlFiemap 16 (file_kernel file10) 0 3
      (Fiemap.mk 0 FIEMAP_MAX_OFFSET 0 0 0 (replicate 4 FiemapExtent.zero)) /\
  same_walk
    (walk_loop alloc_aligned (file_kernel file10) 3 0 visit_all 11
       (with_extents (take 4 file10) (mkWalk 0 0 (replicate 4 FiemapExtent.zero) 0 [])))
    (walk_loop alloc_aligned (file_kernel file10) 3 0 visit_all 11
       (mkWalk 0 0 (replicate 4 FiemapExtent.zero) 0 [])) /\
  fresh (file_kernel file10) 3 0 []
    (w_trace (FiemapWalk alloc_aligned (file_kernel file10) 11 3 0 visit_all).1).
Proof.
  apply (IoctlFiemap_extents_output_only alloc_aligned (file_kernel file10) 3 0 visit_all
           11 (mkWalk 0 0 (replicate 4 FiemapExtent.zero) 0 [])
           (Fiemap.mk 0 FIEMAP_MAX_OFFSET 0 0 0 (replicate 4 FiemapExtent.zero))
           (take 4 file10) 16 0); reflexivity.
Defined.

(** * More on FiemapWalk *)

Lemma indices_from_map (vs : list (Z * FiemapExtent.t)) :
  forall k, indices_from k vs ->
    map fst vs = map (fun j => wrap_int (Z.of_nat j)) (seq k (length vs)).
Proof.
  induction vs as [|[i e] vs IH]; intros k H; simpl in *; [done|].
  destruct H as [-> H]. f_equal. by apply IH.
Qed.

Lemma walk_round_queries alloc kernel fd flags callback (s s' : WalkState) exit :
  walk_round alloc kernel fd flags callback s = (s', exit) ->
  length (fmExtents s') = length (fmExtents s) /\
  (queries (w_trace s') = queries (w_trace s) \/
   queries (w_trace s') = queries (w_trace s) ++ [query_of flags s]).
Proof.
  intros H. destruct (walk_round_shape _ _ _ _ _ _ _ _ H)
    as [(-> & _ & _)|(q & chunk & _ & _ & Ht & _ & Hl & _)]; [by split; [|left]|].
  split; [done|]. right.
  assert (q = query_of flags s) as ->.
  { unfold walk_round, IoctlFiemap in H. simpl in H.
    destruct (alloc (w_queries s) mod 8 =? 0); simpl in H.
    2:{ inversion H; subst. apply (f_equal length) in Ht.
        rewrite length_app in Ht. simpl in Ht. lia. }
    assert (exists t, w_trace s' = (w_trace s ++ [Query (query_of flags s)]) ++ t) as [t Ht'].
    { unfold query_of.
      destruct (fr_err _); [inversion H; subst; exists []; by rewrite app_nil_r|].
      destruct (_ =? 0); [inversion H; subst; exists []; by rewrite app_nil_r|].
      rewrite visit_loop_scan in H by lia. simpl in H.
      match type of H with context [scan ?a ?b ?c ?d] =>
        destruct (scan a b c d) as [ev ex] end. simpl in H.
      destruct ex; [inversion H; subst; by exists ev|].
      destruct (_ <=? _)%nat; [|inversion H; subst; by exists ev].
      destruct (_ !! _); inversion H; subst; by exists ev. }
    rewrite Ht, <- app_assoc in Ht'. apply app_inv_head in Ht'. simpl in Ht'.
    by inversion Ht'. }
  rewrite Ht, queries_app. simpl. by rewrite scan_queries.
Qed.

Lemma walk_loop_queries alloc kernel fd flags callback (capacity : nat) :
  forall fuel s,
    length (fmExtents s) = capacity ->
    Forall (fun q => exists start, q = rawFiemap.mk start FIEMAP_MAX_OFFSET flags 0
                                         (wrap32 (Z.of_nat capacity)) 0)
      (queries (w_trace s)) ->
    Forall (fun q => exists start, q = rawFiemap.mk start FIEMAP_MAX_OFFSET flags 0
                                         (wrap32 (Z.of_nat capacity)) 0)
      (queries (w_trace (walk_loop alloc kernel fd flags callback fuel s).1)).
Proof.
  induction fuel as [|fuel IH]; intros s Hc Hq; simpl; [done|].
  destruct (walk_round alloc kernel fd flags callback s) as [s' e] eqn:E.
  destruct (walk_round_queries _ _ _ _ _ _ _ _ E) as [Hl Hqs].
  assert (Forall (fun q => exists start, q = rawFiemap.mk start FIEMAP_MAX_OFFSET flags 0
                                              (wrap32 (Z.of_nat capacity)) 0)
            (queries (w_trace s'))) as Hq'.
  { destruct Hqs as [->| ->]; [done|]. apply Forall_app. split; [done|].
    constructor; [|constructor]. exists (nextLogicalStart s). unfold query_of. by rewrite Hc. }
  destruct e as [x|]; simpl; [done|]. apply IH; [lia|done].
Qed.

(** X13: whatever the primitive answers, the calls of the callback
    carry the indices 0, 1, 2, ... in this order (as an [int], so
    modulo 2^64), and every request handed to the primitive asks for the
    whole remaining range with the caller's flags and the capacity of
    the extent buffer, and starts at 0 or at the logical start plus the
    length of the extent visited last before it. *)
Theorem FiemapWalk_trace (capacity : nat) (alloc : nat -> Z) (kernel : FiemapKernel)
    (fuel : nat) (fd flags : Z) (callback : FiemapWalkCallback) :
  let s := (FiemapWalkSized capacity alloc kernel fuel fd flags callback).1 in
  map fst (visits (w_trace s)) =
    map (fun k => wrap_int (Z.of_nat k)) (seq 0 (length (visits (w_trace s)))) /\
  starts_ok 0 (w_trace s) /\
  Forall (fun q => rawFiemap.Length q = FIEMAP_MAX_OFFSET /\ rawFiemap.Flags q = flags /\
                   rawFiemap.Extent_count q = wrap32 (Z.of_nat capacity) /\
                   rawFiemap.Mapped_extents q = 0 /\ rawFiemap.Reserved q = 0)
    (queries (w_trace s)) /\
  w_queries s = length (queries (w_trace s)).
Proof.
  unfold FiemapWalkSized.
  set (s0 := mkWalk 0 0 (replicate capacity FiemapExtent.zero) 0 []).
  pose proof (walk_loop_post alloc kernel fd flags callback fuel s0
                (walk_inv_init callback capacity)) as (Hst & Hidx & Hq & _).
  simpl. split; [by apply indices_from_map|]. split; [done|]. split; [|done].
  pose proof (walk_loop_queries alloc kernel fd flags callback capacity fuel s0) as Hqs.
  eapply Forall_impl; [apply Hqs|].
  - simpl. apply length_replicate.
  - constructor.
  - simpl. intros q [start ->]. done.
Qed.

(** X14: a call of the callback that returns true, and a visit of an
    extent that carries the "last" flag, is the last thing the walk
    does, and the walk returns nil. *)
Theorem FiemapWalk_stop_is_final (capacity : nat) (alloc : nat -> Z)
    (kernel : FiemapKernel) (fuel : nat) (fd flags : Z) (callback : FiemapWalkCallback)
    (k : nat) (index : Z) (e : FiemapExtent.t) :
  let r := FiemapWalkSized capacity alloc kernel fuel fd flags callback in
  w_trace r.1 !! k = Some (Visit index e) ->
  callback index e = true \/ is_last e = true ->
  S k = length (w_trace r.1) /\ r.2 = Some ReturnNil.
Proof.
  intros r Hk Hstop. subst r. unfold FiemapWalkSized in *.
  set (s0 := mkWalk 0 0 (replicate capacity FiemapExtent.zero) 0 []) in *.
  pose proof (walk_loop_post alloc kernel fd flags callback fuel s0
                (walk_inv_init callback capacity)) as (_ & _ & _ & H).
  apply (H k index e Hk). unfold stop_at.
  destruct Hstop as [-> | ->]; [done|]. by rewrite orb_true_r.
Qed.

Lemma FiemapWalk_stop_is_final_witness :
  let r := FiemapWalkSized 4 alloc_aligned (file_kernel file10) 11 3 0 visit_all in
  S 12 = length (w_trace r.1) /\ r.2 = Some ReturnNil.
Proof.
  apply (FiemapWalk_stop_is_final 4 alloc_aligned (file_kernel file10) 11 3 0 visit_all
           12 9 (extent_at 9 9)).
  - reflexivity.
  - right. reflexivity.
Defined.

Section WalkEnds.

Variables (alloc : nat -> Z) (kernel : FiemapKernel) (fd flags : Z).
Variable callback : FiemapWalkCallback.

Lemma walk_loop_exits (n fuel : nat) (s0 s s' : WalkState) (x : Exit) :
  walk_loop alloc kernel fd flags callback n s0 = (s, None) ->
  walk_round alloc kernel fd flags callback s = (s', Some x) ->
  (n < fuel)%nat ->
  walk_loop alloc kernel fd flags callback fuel s0 = (s', Some x).
Proof.
  revert fuel s0. induction n as [|n IH]; intros fuel s0 Hn Hr Hlt.
  - simpl in Hn. inversion Hn; subst. destruct fuel as [|fuel]; [lia|]. simpl. by rewrite Hr.
  - destruct fuel as [|fuel]; [lia|]. simpl in Hn |- *.
    destruct (walk_round alloc kernel fd flags callback s0) as [s1 [y|]]; [done|].
    apply IH; [done|done|lia].
Qed.

Lemma walk_loop_goes_on (n : nat) (s0 s s' : WalkState) :
  walk_loop alloc kernel fd flags callback n s0 = (s, None) ->
  walk_round alloc kernel fd flags callback s = (s', None) ->
  walk_loop alloc kernel fd flags callback (S n) s0 = (s', None).
Proof.
  revert s0. induction n as [|n IH]; intros s0 Hn Hr.
  - simpl in Hn. inversion Hn; subst. simpl. by rewrite Hr.
  - simpl in Hn. change (walk_loop alloc kernel fd flags callback (S (S n)) s0)
      with (match walk_round alloc kernel fd flags callback s0 with
            | (s1, None) => walk_loop alloc kernel fd flags callback (S n) s1
            | done => done
            end).
    destruct (walk_round alloc kernel fd flags callback s0) as [s1 [y|]]; [done|].
    by apply IH.
Qed.

End WalkEnds.

(** X15: at any round of a walk, a buffer that is not aligned makes
    the walk panic with nothing handed to the primitive; an error of the
    primitive is returned as it is, right after the request; and a
    reply that maps no extent makes the walk return nil, right after
    the request. *)
Theorem FiemapWalk_ends_without_visit (capacity : nat) (alloc : nat -> Z)
    (kernel : FiemapKernel) (n fuel : nat) (fd flags : Z) (callback : FiemapWalkCallback)
    (s : WalkState) :
  FiemapWalkSized capacity alloc kernel n fd flags callback = (s, None) ->
  (n < fuel)%nat ->
  let reply := kernel (w_queries s) fd (query_of flags s) in
  let r := FiemapWalkSized capacity alloc kernel fuel fd flags callback in
  (alloc (w_queries s) mod 8 <> 0 -> r = (s, Some (Panic msg_unaligned))) /\
  (alloc (w_queries s) mod 8 = 0 ->
   forall err, fr_err reply = Some err ->
     r.2 = Some (ReturnErr err) /\ w_trace r.1 = w_trace s ++ [Query (query_of flags s)]) /\
  (alloc (w_queries s) mod 8 = 0 -> fr_err reply = None ->
   wrap32 (fr_Mapped_extents reply) = 0 ->
     r.2 = Some ReturnNil /\ w_trace r.1 = w_trace s ++ [Query (query_of flags s)]).
Proof.
  intros Hn Hlt. cbv zeta. unfold FiemapWalkSized in *.
  split; [|split].
  - intros Ha. eapply walk_loop_exits; [exact Hn| |done].
    unfold walk_round, IoctlFiemap. apply Z.eqb_neq in Ha. by rewrite Ha.
  - intros Ha err He.
    erewrite walk_loop_exits; [|exact Hn| |done].
    2:{ unfold walk_round, IoctlFiemap. apply Z.eqb_eq in Ha. rewrite Ha. simpl.
        unfold query_of in He. rewrite He. reflexivity. }
    by simpl.
  - intros Ha He Hm.
    erewrite walk_loop_exits; [|exact Hn| |done].
    2:{ unfold walk_round, IoctlFiemap. apply Z.eqb_eq in Ha. rewrite Ha. simpl.
        unfold query_of in He, Hm. rewrite He, Hm. reflexivity. }
    by simpl.
Qed.

Lemma FiemapWalk_ends_without_visit_witness :
  FiemapWalkSized 4 (fun _ => 4) (file_kernel file10) 1 3 0 visit_all =
    (mkWalk 0 0 (replicate 4 FiemapExtent.zero) 0 [], Some (Panic msg_unaligned)) /\
  (FiemapWalkSized 4 alloc_aligned (file_kernel []) 1 3 0 visit_all).2 = Some ReturnNil.
Proof.
  split.
  - destruct (FiemapWalk_ends_without_visit 4 (fun _ => 4) (file_kernel file10) 0 1 3 0
                visit_all (mkWalk 0 0 (replicate 4 FiemapExtent.zero) 0 []))
      as (H & _ & _); [reflexivity|lia|].
    apply H. simpl. discriminate.
  - destruct (FiemapWalk_ends_without_visit 4 alloc_aligned (file_kernel []) 0 1 3 0
                visit_all (mkWalk 0 0 (replicate 4 FiemapExtent.zero) 0 []))
      as (_ & _ & H); [reflexivity|lia|].
    apply H; reflexivity.
Defined.

Lemma scan_no_stop callback offset (chunk : list FiemapExtent.t) :
  forall i,
    (forall j e, chunk !! j = Some e ->
       stop_at callback (wrap_int (offset + Z.of_nat (i + j))) e = false) ->
    (scan callback offset i chunk).2 = None.
Proof.
  induction chunk as [|e rest IH]; intros i H; simpl; [done|].
  pose proof (H 0%nat e eq_refl) as H0. rewrite Nat.add_0_r in H0. rewrite H0. simpl.
  apply IH. intros j e' Hj. specialize (H (S j) e' Hj).
  by replace (S i + j)%nat with (i + S j)%nat by lia.
Qed.

(** X16: a reply that claims more mapped extents than the extent
    buffer holds makes the walk index the buffer out of range, once
    every record of the buffer has been visited without one of them
    stopping the walk. *)
Theorem FiemapWalk_overrun (capacity : nat) (alloc : nat -> Z) (kernel : FiemapKernel)
    (n fuel : nat) (fd flags : Z) (callback : FiemapWalkCallback) (s : WalkState) :
  FiemapWalkSized capacity alloc kernel n fd flags callback = (s, None) ->
  (n < fuel)%nat ->
  alloc (w_queries s) mod 8 = 0 ->
  let reply := kernel (w_queries s) fd (query_of flags s) in
  fr_err reply = None ->
  Z.of_nat (length (fmExtents s)) < wrap32 (fr_Mapped_extents reply) ->
  (forall j e, buffer_extents (length (fmExtents s)) (fr_extents reply) !! j = Some e ->
     stop_at callback (wrap_int (nextExtentIndexOffset s + Z.of_nat j)) e = false) ->
  let r := FiemapWalkSized capacity alloc kernel fuel fd flags callback in
  r.2 = Some IndexOutOfRange /\
  length (visits (w_trace r.1)) =
    (length (visits (w_trace s)) + length (fmExtents s))%nat.
Proof.
  intros Hn Hlt Ha. cbv zeta. intros He Hm Hns. unfold FiemapWalkSized, query_of in *.
  pose proof (scan_no_stop callback (nextExtentIndexOffset s) _ 0 Hns) as Hscan.
  pose proof (scan_through callback (nextExtentIndexOffset s) _ 0 0 Hscan)
    as (_ & Hlen & _).
  rewrite buffer_extents_length in Hlen.
  erewrite walk_loop_exits; [|exact Hn| |done].
  2:{ unfold walk_round, IoctlFiemap. apply Z.eqb_eq in Ha. rewrite Ha. simpl.
      rewrite He.
      destruct (wrap32 _ =? 0) eqn:E0; [apply Z.eqb_eq in E0; lia|].
      rewrite visit_loop_scan by lia. rewrite drop_0. simpl.
      rewrite take_ge by (rewrite buffer_extents_length; lia).
      rewrite Hscan.
      destruct (_ <=? _)%nat eqn:E1;
        [apply Nat.leb_le in E1; rewrite buffer_extents_length in E1; lia|].
      reflexivity. }
  simpl. split; [done|]. rewrite !visits_app, !length_app. simpl. rewrite Hlen. lia.
Qed.

Lemma FiemapWalk_overrun_witness :
  let r := FiemapWalkSized 2 alloc_aligned
             (fun _ _ _ => mkFiemapReply None 0 3 0 []) 1 3 0 visit_all in
  r.2 = Some IndexOutOfRange /\ length (visits (w_trace r.1)) = (0 + 2)%nat.
Proof.
  apply (FiemapWalk_overrun 2 alloc_aligned (fun _ _ _ => mkFiemapReply None 0 3 0 [])
           0 1 3 0 visit_all (mkWalk 0 0 (replicate 2 FiemapExtent.zero) 0 []));
    try reflexivity; try lia.
  intros j e He. apply lookup_take_Some in He as [He _].
  destruct j as [|[|j]]; simpl in He; inversion He; subst; reflexivity.
Defined.

(** X17: the extent buffer of FiemapWalk holds 292 records: with the
    header they fill the 2048 * 8 bytes taken from filefrag as nearly
    as whole records can, in a number of bytes that is a multiple of
    eight. *)
Theorem numExtents_fills_buffer :
  numExtents = 292 /\
  SizeofRawFiemap + numExtents * SizeofRawFiemapExtent <= fiemapIoctlBufferSize /\
  fiemapIoctlBufferSize < SizeofRawFiemap + (numExtents + 1) * SizeofRawFiemapExtent /\
  (SizeofRawFiemap + numExtents * SizeofRawFiemapExtent) mod 8 = 0 /\
  wrap32 (Z.of_nat (Z.to_nat numExtents)) = 292.
Proof. vm_compute. repeat split; congruence. Qed.

Lemma alloc_aligned_mod (n : nat) : alloc_aligned n mod 8 = 0.
Proof. unfold alloc_aligned. by rewrite Z.mul_comm, Z.mod_mul. Qed.

Lemma endless_round (capacity : nat) (fd flags : Z) (s : WalkState) :
  (0 < capacity)%nat -> length (fmExtents s) = capacity ->
  exists s',
    walk_round alloc_aligned kernel_endless fd flags visit_all s = (s', None) /\
    length (fmExtents s') = capacity /\
    length (visits (w_trace s')) = S (length (visits (w_trace s))) /\
    w_queries s' = S (w_queries s).
Proof.
  intros Hc Hl. unfold walk_round, IoctlFiemap. rewrite alloc_aligned_mod. simpl.
  rewrite Hl. destruct capacity as [|c]; [lia|]. simpl.
  eexists. split; [reflexivity|]. simpl.
  rewrite !visits_app, !length_app. simpl.
  split; [|split; [lia|done]].
  rewrite length_take. simpl. rewrite length_replicate. lia.
Qed.

(** X18: the walk has no bound of its own: against a primitive that
    answers every query with one more extent not flagged "last", and a
    callback that never returns true, it is still running after any
    number of rounds, one visit in each. *)
Theorem FiemapWalk_unbounded (capacity fuel : nat) (fd flags : Z) :
  (0 < capacity)%nat ->
  let r := FiemapWalkSized capacity alloc_aligned kernel_endless fuel fd flags visit_all in
  r.2 = None /\ length (visits (w_trace r.1)) = fuel /\ w_queries r.1 = fuel.
Proof.
  intros Hc. cbv zeta. unfold FiemapWalkSized.
  assert (forall fuel s, length (fmExtents s) = capacity ->
            let r := walk_loop alloc_aligned kernel_endless fd flags visit_all fuel s in
            r.2 = None /\
            length (visits (w_trace r.1)) = (length (visits (w_trace s)) + fuel)%nat /\
            w_queries r.1 = (w_queries s + fuel)%nat) as H.
  { clear fuel. induction fuel as [|fuel IH]; intros s Hl; simpl.
    { split; [done|]. split; lia. }
    destruct (endless_round capacity fd flags s Hc Hl) as (s' & -> & Hl' & Hv & Hq).
    destruct (IH s' Hl') as (H1 & H2 & H3). split; [exact H1|].
    split; [rewrite H2|rewrite H3]; lia. }
  destruct (H fuel (mkWalk 0 0 (replicate capacity FiemapExtent.zero) 0 []))
    as (H1 & H2 & H3); [apply length_replicate|]. by simpl in *.
Qed.

Lemma FiemapWalk_unbounded_witness :
  let r := FiemapWalkSized 4 alloc_aligned kernel_endless 50 3 0 visit_all in
  r.2 = None /\ length (visits (w_trace r.1)) = 50%nat /\ w_queries r.1 = 50%nat.
Proof. apply (FiemapWalk_unbounded 4 50 3 0). lia. Defined.

(** X19: FiemapWalk itself, with its buffer of 292 records, on a file
    whose extents are in ascending order and do not overlap and of
    which only the final one stops the walk: every extent is visited
    once, in order, with its position as index, and the primitive is
    queried once for every 292 extents or part of that. *)
Theorem FiemapWalk_reads_whole_file (alloc : nat -> Z) (file : list FiemapExtent.t)
    (fd flags : Z) (callback : FiemapWalkCallback) (fuel : nat) :
  (forall n, alloc n mod 8 = 0) ->
  ascending 0 file ->
  Z.of_nat (length file) < 2 ^ 63 ->
  (length file < fuel)%nat ->
  file <> [] ->
  (forall k e, file !! k = Some e -> stops callback k e = true <-> S k = length file) ->
  exists s,
    FiemapWalk alloc (file_kernel file) fuel fd flags callback = (s, Some ReturnNil) /\
    visits (w_trace s) = imap (fun k e => (Z.of_nat k, e)) file /\
    length (queries (w_trace s)) = ((length file + 291) / 292)%nat.
Proof.
  intros Halloc Hasc Hlen Hfuel Hne Hall. unfold FiemapWalk, FiemapWalkSized.
  change (Z.to_nat numExtents) with 292%nat.
  set (s0 := mkWalk 0 0 (replicate 292 FiemapExtent.zero) 0 []).
  destruct (file_walk_loop 292 alloc file fd flags callback) with
    (fuel := fuel) (s := s0) (pre := @nil FiemapExtent.t) (rest := file)
    as (s & Hrun & Hv & Hq); try done.
  { split; [lia|]. simpl. lia. }
  { simpl. eapply extents_from_all; [exact Hasc|lia]. }
  exists s. split; [done|]. simpl in Hv, Hq.
  destruct (visited_all callback file 0 Hall) as [Hva Hsa].
  split; [by rewrite Hv, Hva|].
  rewrite Hq. unfold queries_needed. rewrite (Hsa Hne), Hva, length_imap.
  replace (length file + 292 - 1)%nat with (length file + 291)%nat by lia. lia.
Qed.

Lemma FiemapWalk_reads_whole_file_witness :
  exists s,
    FiemapWalk alloc_aligned (file_kernel file10) 11 3 0 visit_all = (s, Some ReturnNil) /\
    visits (w_trace s) = imap (fun k e => (Z.of_nat k, e)) file10 /\
    length (queries (w_trace s)) = ((length file10 + 291) / 292)%nat.
Proof.
  apply (FiemapWalk_reads_whole_file alloc_aligned file10 3 0 visit_all 11).
  - apply alloc_aligned_mod.
  - vm_compute. repeat split; congruence.
  - simpl. lia.
  - simpl. lia.
  - discriminate.
  - intros k e Hk. unfold stops, stop_at, visit_all. simpl.
    do 10 (destruct k as [|k]; [inversion Hk; subst; vm_compute; split; congruence|]).
    done.
Defined.

(** * FiemapExtentFlagsToStrings *)

(** The names of the flags of a table that are set in [flags], in the
    order of the table. *)
Fixpoint names_of (flags : Z) (defs : list (Z * string)) : list string :=
  match defs with
  | [] => []
  | (flag, name) :: defs' =>
    if negb (Z.land flags flag =? 0) then name :: names_of flags defs'
    else names_of flags defs'
  end.

(** The bits a table has a name for. *)
Fixpoint known (defs : list (Z * string)) : Z :=
  match defs with
  | [] => 0
  | (flag, _) :: defs' => Z.lor flag (known defs')
  end.

(** The flags of a table are 32-bit words, no two with a bit in
    common. *)
Fixpoint disjoint_flags (defs : list (Z * string)) : Prop :=
  match defs with
  | [] => True
  | (flag, _) :: defs' =>
    0 <= flag < 2 ^ 32 /\ Forall (fun d => Z.land flag d.1 = 0) defs' /\
    disjoint_flags defs'
  end.

Lemma wrap32_testbit (x : Z) (n : Z) :
  0 <= n -> Z.testbit (wrap32 x) n = (n <? 32) && Z.testbit x n.
Proof.
  intros Hn. unfold wrap32. destruct (n <? 32) eqn:E.
  - apply Z.ltb_lt in E. by rewrite Z.mod_pow2_bits_low.
  - apply Z.ltb_ge in E. by rewrite Z.mod_pow2_bits_high.
Qed.

Lemma uint32_testbit_high (x : Z) (n : Z) :
  0 <= x < 2 ^ 32 -> 32 <= n -> Z.testbit x n = false.
Proof.
  intros Hx Hn. rewrite <- (Z.mod_small x (2 ^ 32)) by done.
  apply Z.mod_pow2_bits_high. lia.
Qed.

Lemma land_clear_other (f g : Z) :
  0 <= g < 2 ^ 32 -> Z.land f g = 0 -> Z.land (wrap32 (Z.lnot f)) g = g.
Proof.
  intros Hg Hfg. apply Z.bits_inj'. intros n Hn.
  rewrite Z.land_spec, wrap32_testbit, Z.lnot_spec by done.
  assert (Z.testbit f n && Z.testbit g n = false) as Hd.
  { rewrite <- Z.land_spec, Hfg. apply Z.bits_0. }
  destruct (n <? 32) eqn:E; simpl.
  - destruct (Z.testbit f n), (Z.testbit g n); simpl in *; congruence.
  - apply Z.ltb_ge in E. by rewrite (uint32_testbit_high g n).
Qed.

Lemma land_clear_both (f k : Z) :
  Z.land (wrap32 (Z.lnot f)) (wrap32 (Z.lnot k)) = wrap32 (Z.lnot (Z.lor f k)).
Proof.
  apply Z.bits_inj'. intros n Hn.
  rewrite Z.land_spec, !wrap32_testbit, !Z.lnot_spec, Z.lor_spec by done.
  destruct (n <? 32), (Z.testbit f n), (Z.testbit k n); done.
Qed.

Lemma land_all_ones (flags : Z) :
  0 <= flags < 2 ^ 32 -> Z.land flags (wrap32 (Z.lnot 0)) = flags.
Proof.
  intros H. apply Z.bits_inj'. intros n Hn.
  rewrite Z.land_spec, wrap32_testbit, Z.lnot_spec, Z.bits_0 by done. simpl.
  destruct (n <? 32) eqn:E; simpl; [by rewrite andb_true_r|].
  apply Z.ltb_ge in E. by rewrite (uint32_testbit_high flags n), andb_false_r.
Qed.

Lemma land_uint32 (a b : Z) : 0 <= a < 2 ^ 32 -> 0 <= b -> 0 <= Z.land a b < 2 ^ 32.
Proof.
  intros Ha Hb.
  assert (Z.land a b = Z.land a b mod 2 ^ 32) as ->.
  { apply Z.bits_inj'. intros n Hn. fold (wrap32 (Z.land a b)).
    rewrite wrap32_testbit, Z.land_spec by done.
    destruct (n <? 32) eqn:E; simpl; [done|].
    apply Z.ltb_ge in E. by rewrite (uint32_testbit_high a n). }
  apply Z.mod_pos_bound. lia.
Qed.

Lemma names_of_cleared (defs : list (Z * string)) (flags f : Z) :
  Forall (fun d => Z.land f d.1 = 0) defs -> disjoint_flags defs ->
  names_of (Z.land flags (wrap32 (Z.lnot f))) defs = names_of flags defs.
Proof.
  induction defs as [|[g name] defs IH]; intros Hf Hd; simpl; [done|].
  apply Forall_cons in Hf as [Hfg Hf]. simpl in Hfg, Hd. destruct Hd as (Hg & _ & Hd).
  rewrite <- Z.land_assoc, (land_clear_other f g Hg Hfg), IH by done. done.
Qed.

(** The loop with its running [flags &= ^fd.flag] collects the names
    of the flags set in the word it started from, and leaves the bits
    the table has no name for. *)
Lemma flags_loop_spec (defs : list (Z * string)) :
  forall flags result, disjoint_flags defs -> 0 <= flags < 2 ^ 32 ->
    flags_loop defs flags result =
      (result ++ names_of flags defs, Z.land flags (wrap32 (Z.lnot (known defs)))).
Proof.
  induction defs as [|[f name] defs IH]; intros flags result Hd Hr; simpl.
  - by rewrite app_nil_r, land_all_ones.
  - destruct Hd as (Hf & Hdis & Hd).
    assert (0 <= Z.land flags (wrap32 (Z.lnot f)) < 2 ^ 32) as Hr'.
    { apply land_uint32; [done|]. apply wrap32_range. }
    rewrite IH by done. rewrite names_of_cleared by done.
    rewrite <- Z.land_assoc, land_clear_both.
    destruct (Z.land flags f =? 0); simpl; [done|]. by rewrite <- app_assoc.
Qed.

Lemma flagDefs_disjoint : disjoint_flags flagDefs.
Proof.
  unfold flagDefs. cbn [disjoint_flags].
  repeat (split; [vm_compute; split; congruence|]; split; [by repeat constructor|]).
  done.
Qed.

(** The bits of a 32-bit word that [flagDefs] has no name for. *)
Definition undocumented : Z := 0xFFFFC070.

Lemma flagDefs_loop (flags : Z) (result : list string) :
  0 <= flags < 2 ^ 32 ->
  flags_loop flagDefs flags result =
    (result ++ names_of flags flagDefs, Z.land flags undocumented).
Proof.
  intros H. rewrite (flags_loop_spec flagDefs flags result flagDefs_disjoint H).
  reflexivity.
Qed.

(** X20: for a 32-bit word, FiemapExtentFlagsToStrings yields the
    names of the documented flags that are set, in the order of the
    table, followed, when a bit without a name is set, by the bits
    without a name in hexadecimal; clearing each flag from the word as
    the loop goes does not change which names are found. *)
Theorem FiemapExtentFlagsToStrings_names (flags : Z) :
  0 <= flags < 2 ^ 32 ->
  FiemapExtentFlagsToStrings flags =
    names_of flags flagDefs ++
    (if Z.land flags undocumented =? 0 then []
     else [Sprintf_0xX (Z.land flags undocumented)]).
Proof.
  intros H. unfold FiemapExtentFlagsToStrings. rewrite (flagDefs_loop flags [] H). simpl.
  destruct (Z.land flags undocumented =? 0); simpl; [by rewrite app_nil_r|done].
Qed.

Lemma FiemapExtentFlagsToStrings_names_witness :
  FiemapExtentFlagsToStrings 0x2811 = ["last"; "unwritten"; "shared"; "0x10"]%string.
Proof.
  rewrite (FiemapExtentFlagsToStrings_names 0x2811) by lia. reflexivity.
Defined.

Lemma names_of_elem (flags : Z) (defs : list (Z * string)) (name : string) :
  name ∈ names_of flags defs ->
  exists flag, (flag, name) ∈ defs /\ Z.land flags flag <> 0.
Proof.
  induction defs as [|[f n] defs IH]; simpl; intros H.
  - by apply elem_of_nil in H.
  - destruct (Z.land flags f =? 0) eqn:E; simpl in H.
    + destruct (IH H) as (flag & Hin & Hne). exists flag. split; [by right|done].
    + apply elem_of_cons in H as [->|H].
      * exists f. split; [left|]. by apply Z.eqb_neq in E.
      * destruct (IH H) as (flag & Hin & Hne). exists flag. split; [by right|done].
Qed.



(** * FileFragDumpExtents *)

(** The lines of the extents as a function of the calls of the
    callback. *)
Definition extent_lines (blkSize : Z) (vs : list (Z * FiemapExtent.t)) : list Line :=
  concat (map (fun v => dump_line blkSize v.1 v.2) vs).

Lemma dump_lines_visits (blkSize : Z) (trace : list WalkEvent) :
  dump_lines blkSize trace = extent_lines blkSize (visits trace).
Proof.
  unfold extent_lines. induction trace as [|[q|i e] trace IH]; simpl; [done|done|].
  by rewrite IH.
Qed.

Lemma visits_lookup (trace : list WalkEvent) (i : Z) (e : FiemapExtent.t) :
  (i, e) ∈ visits trace -> exists k, trace !! k = Some (Visit i e).
Proof.
  induction trace as [|[q|i' e'] trace IH]; simpl; intros H.
  - by apply elem_of_nil in H.
  - destruct (IH H) as [k Hk]. by exists (S k).
  - apply elem_of_cons in H as [H|H].
    + inversion H; subst. by exists 0%nat.
    + destruct (IH H) as [k Hk]. by exists (S k).
Qed.

Lemma last_visit (trace : list WalkEvent) (i : Z) (e : FiemapExtent.t) :
  last trace = Some (Visit i e) -> last (visits trace) = Some (i, e).
Proof.
  induction trace as [|ev trace IH]; [done|]. rewrite last_cons.
  destruct (last trace) as [ev'|] eqn:El.
  - intros H. specialize (IH H). destruct ev as [q|i' e']; simpl; [done|].
    by rewrite last_cons, IH.
  - apply last_None in El. subst trace. intros H. inversion H; subst. done.
Qed.

(** How the dump ends, told from the calls of the callback: with the
    panic of the last call, if it panicked. *)
Definition dump_outcome (blkSize : Z) (vs : list (Z * FiemapExtent.t)) : option DumpExit :=
  match last vs with
  | Some (_, e) =>
    match dump_panics blkSize e with Some p => Some p | None => Some DumpReturnNil end
  | None => Some DumpReturnNil
  end.

Lemma dump_exit_outcome (blkSize : Z) (capacity : nat) alloc kernel fuel fd flags
    (s : WalkState) :
  FiemapWalkSized capacity alloc kernel fuel fd flags (dump_callback blkSize) =
    (s, Some ReturnNil) ->
  dump_exit blkSize (w_trace s) (Some ReturnNil) = dump_outcome blkSize (visits (w_trace s)).
Proof.
  intros Hrun. unfold FiemapWalkSized in Hrun.
  pose proof (walk_loop_post alloc kernel fd flags (dump_callback blkSize) fuel
                (mkWalk 0 0 (replicate capacity FiemapExtent.zero) 0 [])
                (walk_inv_init _ capacity)) as (_ & _ & _ & Hstop).
  rewrite Hrun in Hstop. simpl in Hstop.
  unfold dump_exit, last_visit_panics, dump_outcome.
  destruct (last (w_trace s)) as [[q|i e]|] eqn:El.
  - destruct (last (visits (w_trace s))) as [[i e]|] eqn:Ev; [|done].
    destruct (dump_panics blkSize e) as [p|] eqn:Ep; [|done]. exfalso.
    assert ((i, e) ∈ visits (w_trace s)) as Hin.
    { rewrite last_lookup in Ev. by eapply list_elem_of_lookup_2. }
    apply visits_lookup in Hin as [k Hk].
    destruct (Hstop k i e Hk) as [Hlen _].
    { unfold stop_at, dump_callback. by rewrite Ep. }
    rewrite last_lookup, <- Hlen in El. simpl in El. congruence.
  - rewrite (last_visit _ _ _ El). by destruct (dump_panics blkSize e).
  - apply last_None in El. by rewrite El.
Qed.

Section DumpFile.

Variables (alloc : nat -> Z) (file : list FiemapExtent.t) (fuel : nat).
Variables (fd size blksize : Z) (filePath : string) (syncFirst useBytes faster : bool).

Hypothesis Halloc : forall n, alloc n mod 8 = 0.
Hypothesis Hasc : ascending 0 file.
Hypothesis Hlen : Z.of_nat (length file) < 2 ^ 63.
Hypothesis Hfuel : (length file < fuel)%nat.

Local Abbreviation blk := (if useBytes then 1 else wrap64 blksize).

(** On a file, the dump prints the five heading lines and then the
    lines of the extents up to the first that carries the "last" flag
    or makes the callback panic. *)
Lemma dump_over_file :
  FileFragDumpExtents alloc (file_kernel file) fuel (inr fd) (inr (size, blksize))
    filePath syncFirst useBytes faster =
    ([LineFile filePath; LineFileSize size; LineBlockSize (wrap64 blksize);
      LineUnits (if useBytes then "Bytes" else "Blocks"); LineHeader] ++
     extent_lines blk (visited (dump_callback blk) 0 file),
     dump_outcome blk (visited (dump_callback blk) 0 file)).
Proof.
  unfold FileFragDumpExtents, FiemapWalk.
  set (flags := if syncFirst then Z.lor 0 FIEMAP_FLAG_SYNC else 0).
  change (Z.to_nat numExtents) with 292%nat.
  destruct (file_walk_loop 292 alloc file fd flags (dump_callback blk)) with
    (fuel := fuel) (s := mkWalk 0 0 (replicate 292 FiemapExtent.zero) 0 [])
    (pre := @nil FiemapExtent.t) (rest := file)
    as (s & Hrun & Hv & _); try done.
  { split; [lia|]. simpl. lia. }
  { simpl. eapply extents_from_all; [exact Hasc|lia]. }
  simpl in Hv.
  assert (FiemapWalkSized 292 alloc (file_kernel file) fuel fd flags (dump_callback blk) =
          (s, Some ReturnNil)) as Hw by exact Hrun.
  rewrite Hw. rewrite (dump_exit_outcome _ _ _ _ _ _ _ _ Hw), dump_lines_visits, Hv.
  done.
Qed.

End DumpFile.

(** The line of an extent that is printed in full. *)
Definition full_line (blkSize : Z) (k : nat) (e : FiemapExtent.t) : Line :=
  LineExtent (Z.of_nat k) (FiemapExtent.Logical e / blkSize)
    (FiemapExtent.Physical e / blkSize) (FiemapExtent.Length e / blkSize)
    (Some (String.concat "," (FiemapExtentFlagsToStrings (FiemapExtent.Flags e)))).

Lemma extent_lines_full (blkSize : Z) (l : list FiemapExtent.t) :
  blkSize <> 0 -> Forall (fun e => not_block_aligned blkSize e = false) l ->
  forall k0, extent_lines blkSize (imap (fun j e => (Z.of_nat (k0 + j), e)) l) =
             imap (fun j e => full_line blkSize (k0 + j) e) l.
Proof.
  intros Hb Hall. unfold extent_lines.
  induction Hall as [|e l He _ IH]; intros k0; simpl; [done|].
  unfold dump_line at 1. simpl. apply Z.eqb_neq in Hb. rewrite Hb, He.
  unfold full_line at 1. f_equal.
  rewrite (imap_ext _ (fun j e => (Z.of_nat (S k0 + j), e))), IH.
  - apply imap_ext. intros j e' _. simpl. f_equal. lia.
  - intros j e' _. simpl. f_equal. lia.
Qed.

Lemma dump_callback_aligned (blkSize : Z) (k : nat) (e : FiemapExtent.t) :
  blkSize <> 0 -> not_block_aligned blkSize e = false ->
  dump_panics blkSize e = None /\ stops (dump_callback blkSize) k e = is_last e.
Proof.
  intros Hb He. unfold stops, stop_at, dump_callback, dump_panics.
  apply Z.eqb_neq in Hb. by rewrite Hb, He.
Qed.

(** X22: on a file opened and statted without error, whose extents
    are in ascending order, do not overlap and are all multiples of the
    unit in start, physical start and length, and of which only the
    final one carries the "last" flag, FileFragDumpExtents prints the
    five heading lines and one line per extent, in order, with its
    position, its three numbers divided by the unit and the names of
    its flags, and returns nil. *)
Theorem FileFragDumpExtents_lists_file (alloc : nat -> Z) (file : list FiemapExtent.t)
    (fuel : nat) (fd size blksize : Z) (filePath : string)
    (syncFirst useBytes faster : bool) :
  (forall n, alloc n mod 8 = 0) ->
  ascending 0 file -> Z.of_nat (length file) < 2 ^ 63 -> (length file < fuel)%nat ->
  let blkSize := if useBytes then 1 else wrap64 blksize in
  blkSize <> 0 ->
  Forall (fun e => not_block_aligned blkSize e = false) file ->
  (forall k e, file !! k = Some e -> is_last e = true <-> S k = length file) ->
  FileFragDumpExtents alloc (file_kernel file) fuel (inr fd) (inr (size, blksize))
    filePath syncFirst useBytes faster =
    ([LineFile filePath; LineFileSize size; LineBlockSize (wrap64 blksize);
      LineUnits (if useBytes then "Bytes" else "Blocks"); LineHeader] ++
     imap (full_line blkSize) file,
     Some DumpReturnNil).
Proof.
  intros Halloc Hasc Hlen Hfuel blkSize Hb Hall Hlast. subst blkSize.
  rewrite (dump_over_file alloc file fuel fd size blksize filePath syncFirst useBytes faster
             Halloc Hasc Hlen Hfuel).
  set (blkSize := if useBytes then 1 else wrap64 blksize) in *.
  rewrite Forall_forall in Hall.
  destruct (visited_all (dump_callback blkSize) file 0) as [Hv _].
  { intros j e Hj. simpl.
    destruct (dump_callback_aligned blkSize j e Hb) as [_ ->]; [|by apply Hlast].
    apply Hall. by eapply list_elem_of_lookup_2. }
  rewrite Hv. f_equal.
  - f_equal. rewrite (extent_lines_full blkSize file Hb) by (by apply Forall_forall). done.
  - unfold dump_outcome.
    destruct (last (imap (fun j e => (Z.of_nat (0 + j), e)) file)) as [[i e]|] eqn:El; [|done].
    rewrite last_lookup in El. apply list_lookup_imap_Some in El as (e' & He' & Heq).
    inversion Heq; subst.
    destruct (dump_callback_aligned blkSize 0 e' Hb) as [-> _]; [|done].
    apply Hall. by eapply list_elem_of_lookup_2.
Qed.

Lemma FileFragDumpExtents_lists_file_witness :
  FileFragDumpExtents alloc_aligned (file_kernel file10) 11 (inr 3) (inr (40960, 4096))
    "a.img" false false false =
    ([LineFile "a.img"; LineFileSize 40960; LineBlockSize 4096; LineUnits "Blocks";
      LineHeader] ++ imap (full_line 4096) file10,
     Some DumpReturnNil).
Proof.
  apply (FileFragDumpExtents_lists_file alloc_aligned file10 11 3 40960 4096 "a.img"
           false false false).
  - apply alloc_aligned_mod.
  - vm_compute. repeat split; congruence.
  - simpl. lia.
  - simpl. lia.
  - discriminate.
  - by repeat constructor.
  - intros k e Hk.
    do 10 (destruct k as [|k]; [inversion Hk; subst; vm_compute; split; congruence|]).
    done.
Defined.

Lemma visited_until (callback : FiemapWalkCallback) (file : list FiemapExtent.t)
    (k : nat) (e : FiemapExtent.t) :
  file !! k = Some e ->
  stops callback k e = true ->
  (forall j e', (j < k)%nat -> file !! j = Some e' -> stops callback j e' = false) ->
  visited callback 0 file = imap (fun j e' => (Z.of_nat j, e')) (take (S k) file).
Proof.
  intros Hk Hs Hbefore.
  pose proof (lookup_lt_Some _ _ _ Hk) as Hlt.
  destruct (visited_all callback (take (S k) file) 0) as [Hv Hst].
  { intros j e' Hj. apply lookup_take_Some in Hj as [Hj Hjk]. simpl.
    rewrite length_take. replace (S k `min` length file)%nat with (S k) by lia.
    split.
    - intros Hstop. destruct (decide (j < k)%nat) as [Hlt'|]; [|lia].
      by rewrite (Hbefore j e' Hlt' Hj) in Hstop.
    - intros Heq. assert (j = k) as -> by lia. rewrite Hk in Hj. by inversion Hj; subst. }
  rewrite <- (take_drop (S k) file) at 1. rewrite visited_app, Hst; [done|].
  intros Hnil. destruct file; [simpl in Hlt; lia|done].
Qed.

(** X23: when the first extent that is not a multiple of the block
    size in start, physical start or length comes before any extent
    flagged "last", FileFragDumpExtents prints the lines of the extents
    before it in full, then the four numbers of that extent without its
    flags, and panics. *)
Theorem FileFragDumpExtents_unaligned_extent (alloc : nat -> Z)
    (file : list FiemapExtent.t) (fuel : nat) (fd size blksize : Z) (filePath : string)
    (syncFirst faster : bool) (k : nat) (e : FiemapExtent.t) :
  (forall n, alloc n mod 8 = 0) ->
  ascending 0 file -> Z.of_nat (length file) < 2 ^ 63 -> (length file < fuel)%nat ->
  wrap64 blksize <> 0 ->
  file !! k = Some e ->
  not_block_aligned (wrap64 blksize) e = true ->
  (forall j e', (j < k)%nat -> file !! j = Some e' ->
     not_block_aligned (wrap64 blksize) e' = false /\ is_last e' = false) ->
  FileFragDumpExtents alloc (file_kernel file) fuel (inr fd) (inr (size, blksize))
    filePath syncFirst false faster =
    ([LineFile filePath; LineFileSize size; LineBlockSize (wrap64 blksize);
      LineUnits "Blocks"; LineHeader] ++
     imap (full_line (wrap64 blksize)) (take k file) ++
     [LineExtent (Z.of_nat k) (FiemapExtent.Logical e / wrap64 blksize)
        (FiemapExtent.Physical e / wrap64 blksize)
        (FiemapExtent.Length e / wrap64 blksize) None],
     Some (DumpPanic msg_not_block_aligned)).
Proof.
  intros Halloc Hasc Hlen Hfuel Hb Hk He Hbefore.
  rewrite (dump_over_file alloc file fuel fd size blksize filePath syncFirst false faster
             Halloc Hasc Hlen Hfuel).
  set (blkSize := wrap64 blksize) in *.
  assert (dump_panics blkSize e = Some (DumpPanic msg_not_block_aligned)) as Hp.
  { unfold dump_panics. apply Z.eqb_neq in Hb. by rewrite Hb, He. }
  rewrite (visited_until (dump_callback blkSize) file k e Hk).
  2:{ unfold stops, stop_at, dump_callback. by rewrite Hp. }
  2:{ intros j e' Hj Hje. destruct (Hbefore j e' Hj Hje) as [Ha Hl].
      destruct (dump_callback_aligned blkSize j e' Hb Ha) as [_ ->]. done. }
  rewrite (take_S_r _ _ _ Hk).
  assert (Forall (fun e' => not_block_aligned blkSize e' = false) (take k file)) as Hal.
  { apply Forall_forall. intros x [j Hj]%list_elem_of_lookup.
    apply lookup_take_Some in Hj as [Hj Hjk]. by destruct (Hbefore j x Hjk Hj). }
  assert (length (take k file) = k) as Hlk.
  { rewrite length_take. pose proof (lookup_lt_Some _ _ _ Hk). lia. }
  assert (extent_lines blkSize
            (imap (fun j e' => (Z.of_nat j, e')) (take k file ++ [e])) =
          imap (full_line blkSize) (take k file) ++
          [LineExtent (Z.of_nat k) (FiemapExtent.Logical e / blkSize)
             (FiemapExtent.Physical e / blkSize) (FiemapExtent.Length e / blkSize) None])
    as ->.
  { unfold extent_lines. rewrite imap_app, map_app, concat_app. f_equal.
    - exact (extent_lines_full blkSize (take k file) Hb Hal 0%nat).
    - simpl. unfold dump_line. apply Z.eqb_neq in Hb. rewrite Hb, He, Hlk, Nat.add_0_r. done. }
  f_equal. unfold dump_outcome. rewrite imap_app. simpl. rewrite last_snoc. by rewrite Hp.
Qed.

Lemma FileFragDumpExtents_unaligned_extent_witness :
  FileFragDumpExtents alloc_aligned (file_kernel file10) 11 (inr 3) (inr (40960, 8192))
    "a.img" false false false =
    ([LineFile "a.img"; LineFileSize 40960; LineBlockSize 8192; LineUnits "Blocks";
      LineHeader] ++
     imap (full_line 8192) (take 0 file10) ++ [LineExtent 0 0 128 0 None],
     Some (DumpPanic msg_not_block_aligned)).
Proof.
  apply (FileFragDumpExtents_unaligned_extent alloc_aligned file10 11 3 40960 8192 "a.img"
           false false 0 (extent_at 9 0)).
  - apply alloc_aligned_mod.
  - vm_compute. repeat split; congruence.
  - simpl. lia.
  - simpl. lia.
  - discriminate.
  - reflexivity.
  - reflexivity.
  - intros j e' Hj. lia.
Defined.

(** X24: a block size of zero makes the callback divide by zero on the
    first extent, before it has printed anything for it. *)
Theorem FileFragDumpExtents_zero_block_size (alloc : nat -> Z)
    (file : list FiemapExtent.t) (fuel : nat) (fd size blksize : Z) (filePath : string)
    (syncFirst faster : bool) :
  (forall n, alloc n mod 8 = 0) ->
  ascending 0 file -> Z.of_nat (length file) < 2 ^ 63 -> (length file < fuel)%nat ->
  file <> [] -> wrap64 blksize = 0 ->
  FileFragDumpExtents alloc (file_kernel file) fuel (inr fd) (inr (size, blksize))
    filePath syncFirst false faster =
    ([LineFile filePath; LineFileSize size; LineBlockSize 0; LineUnits "Blocks";
      LineHeader],
     Some DumpDivideByZero).
Proof.
  intros Halloc Hasc Hlen Hfuel Hne Hz.
  rewrite (dump_over_file alloc file fuel fd size blksize filePath syncFirst false faster
             Halloc Hasc Hlen Hfuel).
  rewrite Hz. by destruct file as [|e file].
Qed.

Lemma FileFragDumpExtents_zero_block_size_witness :
  FileFragDumpExtents alloc_aligned (file_kernel file10) 11 (inr 3) (inr (40960, 0))
    "a.img" false false false =
    ([LineFile "a.img"; LineFileSize 40960; LineBlockSize 0; LineUnits "Blocks";
      LineHeader],
     Some DumpDivideByZero).
Proof.
  apply (FileFragDumpExtents_zero_block_size alloc_aligned file10 11 3 40960 0 "a.img"
           false false).
  - apply alloc_aligned_mod.
  - vm_compute. repeat split; congruence.
  - simpl. lia.
  - simpl. lia.
  - discriminate.
  - reflexivity.
Defined.

(** * The dedupe command *)

(** Destination files that all open, each with its descriptor. *)
Definition opened_all (files : list (string * Z)) : list (string * (Errno + Z)) :=
  map (fun p => (p.1, inr p.2)) files.

(** The records lines 103-115 fill in for them. *)
Definition targets_of (files : list (string * Z)) : list FileDedupeRangeInfo :=
  map (fun p => mkInfo (wrap_int p.2) 0 0 0 0) files.

(** The request of lines 97-101. *)
Definition command_value (size : Z) (files : list (string * Z)) : FileDedupeRange :=
  mkRange 0 (wrap64 size) 0 0 (targets_of files).

Lemma open_destinations_all (files : list (string * Z)) :
  open_destinations (opened_all files) = inr (targets_of files).
Proof.
  induction files as [|[f fd] files IH]; simpl; [done|]. by rewrite IH.
Qed.

Lemma open_destinations_inr (dests : list (string * (Errno + Z)))
    (infos : list FileDedupeRangeInfo) :
  open_destinations dests = inr infos ->
  exists files, dests = opened_all files /\ infos = targets_of files.
Proof.
  revert infos. induction dests as [|[f [err|fd]] dests IH]; intros infos H; simpl in H.
  - inversion H. by exists [].
  - done.
  - destruct (open_destinations dests) as [failed|infos'] eqn:E; [done|].
    inversion H; subst. destruct (IH infos' eq_refl) as (files & -> & ->).
    by exists ((f, fd) :: files).
Qed.

Lemma open_destinations_first_failure (pre : list (string * Z)) (f : string) (err : Errno)
    (post : list (string * (Errno + Z))) :
  open_destinations (opened_all pre ++ (f, inl err) :: post) = inl (f, err).
Proof.
  induction pre as [|[g fd] pre IH]; simpl; [done|]. by rewrite IH.
Qed.

Lemma targets_of_length (files : list (string * Z)) :
  length (targets_of files) = length files.
Proof. unfold targets_of. by rewrite length_map. Qed.

Lemma command_value_uint64 (size : Z) (files : list (string * Z)) :
  is_uint64 (Src_offset (command_value size files)) /\
  is_uint64 (Src_length (command_value size files)).
Proof.
  unfold is_uint64. simpl. split; [lia|]. apply wrap64_range.
Qed.

(** What the command does once every file is open. *)
Lemma runDedupe_opened Errno_Error kernel fuel (srcFd size : Z) (files : list (string * Z)) :
  runDedupe Errno_Error kernel fuel (inr srcFd) (inr size) (opened_all files) =
    let o := FileDedupeRangeFull kernel fuel srcFd (Some (command_value size files)) true in
    let bar := map bar_event (out_calls o) in
    match out_exit o, out_value o with
    | Some (ReturnErr err), _ =>
      mkRun [if err =? EOPNOTSUPP then MsgNotSupported
             else if err =? EINVAL then MsgIncompatible
             else MsgDedupeFailed err] bar (Some ReturnNil) (out_ioctls o)
    | Some ReturnNil, Some value' =>
      mkRun (report Errno_Error (map fst (opened_all files)) (Info value')) bar
        (Some ReturnNil) (out_ioctls o)
    | exit, _ => mkRun [] bar exit (out_ioctls o)
    end.
Proof. unfold runDedupe. by rewrite open_destinations_all. Qed.

Lemma opened_all_names (files : list (string * Z)) :
  map fst (opened_all files) = map fst files.
Proof. unfold opened_all. rewrite map_map. by apply map_ext. Qed.

(** The run of FileDedupeRangeFull that leaves the loop in the round
    after [n] rounds. *)
Lemma FileDedupeRangeFull_leaves kernel srcFd progress (v : FileDedupeRange)
    (n fuel : nat) (s s' : State) (x : Exit) :
  Info v <> [] ->
  loop kernel srcFd progress n (init v progress) = (s, None) ->
  round kernel srcFd progress s = (s', Some x) ->
  (n < fuel)%nat ->
  FileDedupeRangeFull kernel fuel srcFd (Some v) progress =
    mkOutcome (Some x) (Some (st_value s'))
      (call_progress progress (0, 0, true) (st_calls s')) (st_ioctls s').
Proof.
  intros Hne Hn Hr Hlt. unfold FileDedupeRangeFull.
  destruct (length (Info v) =? 0)%nat eqn:E.
  { apply Nat.eqb_eq in E. by destruct (Info v). }
  pose proof (loop_step_exit _ _ _ _ _ _ _ _ Hn Hr) as Hs.
  by rewrite (loop_exited_stable _ _ _ _ _ _ _ _ Hs Hlt).
Qed.

Lemma loop_value_length kernel srcFd progress (v : FileDedupeRange) (fuel : nat) :
  length (Info (st_value (loop kernel srcFd progress fuel (init v progress)).1)) =
    length (Info v).
Proof.
  pose proof (loop_invariant kernel srcFd progress (fun s => frame v (st_value s))
    (fun s s' e Hs Hr => round_frame kernel srcFd progress v s s' e Hs Hr)
    fuel (init v progress) (init_frame v progress)) as (_ & _ & _ & _ & H).
  symmetry. by eapply Forall2_length.
Qed.

(** ** The primitive is called only when every file is open *)

(** X25: the command calls the dedup primitive only after the source
    has been opened and statted and every destination has been opened,
    and only with at least one destination. *)
Theorem runDedupe_needs_every_file Errno_Error kernel fuel (open_source : Errno + Z)
    (stat_source : Errno + Z) (destinations : list (string * (Errno + Z))) :
  run_ioctls (runDedupe Errno_Error kernel fuel open_source stat_source destinations)
    <> [] ->
  (exists srcFd, open_source = inr srcFd) /\
  (exists size, stat_source = inr size) /\
  destinations <> [] /\
  Forall (fun d => exists destFd, d.2 = inr destFd) destinations.
Proof.
  intros H. unfold runDedupe in H.
  destruct open_source as [err|srcFd]; [done|].
  destruct stat_source as [err|size]; [done|].
  destruct (open_destinations destinations) as [[f err]|infos] eqn:E; [done|].
  apply open_destinations_inr in E as (files & -> & ->).
  split; [by eexists|]. split; [by eexists|]. split.
  - destruct files; [|done]. by simpl in H.
  - unfold opened_all. apply Forall_map, Forall_forall. intros p _. by eexists.
Qed.

Lemma runDedupe_needs_every_file_witness :
  (exists srcFd, @inr Errno Z 3 = inr srcFd) /\
  (exists size, @inr Errno Z 10 = inr size) /\
  opened_all [("b"%string, 7); ("c"%string, 8)] <> [] /\
  Forall (fun d : string * (Errno + Z) => exists destFd, d.2 = inr destFd)
    (opened_all [("b"%string, 7); ("c"%string, 8)]).
Proof.
  apply (runDedupe_needs_every_file Errno_decimal (kernel_capped 4) 5 (inr 3) (inr 10)
           (opened_all [("b"%string, 7); ("c"%string, 8)])).
  vm_compute. discriminate.
Defined.

(** ** The report *)

Lemma report_loop_nil Errno_Error (files : list string) (infos : list FileDedupeRangeInfo) :
  length files = length infos ->
  report_loop Errno_Error files infos = [] <->
  Forall (fun t => Status t = FILE_DEDUPE_RANGE_SAME) infos.
Proof.
  revert infos. induction files as [|f files IH]; intros [|t infos] Hlen; simpl in *;
    try done.
  inversion Hlen as [Hlen']. specialize (IH infos Hlen').
  destruct (Status t =? FILE_DEDUPE_RANGE_SAME) eqn:E; simpl.
  - apply Z.eqb_eq in E. rewrite IH. split; [by constructor|by inversion 1].
  - apply Z.eqb_neq in E. split; [done|by inversion 1].
Qed.

Lemma report_loop_no_completed Errno_Error (files : list string)
    (infos : list FileDedupeRangeInfo) :
  MsgCompleted ∉ report_loop Errno_Error files infos.
Proof.
  revert infos. induction files as [|f files IH]; intros [|t infos]; simpl;
    try apply not_elem_of_nil.
  intros [H|H]%elem_of_app; [|by eapply IH].
  destruct (Status t =? FILE_DEDUPE_RANGE_SAME); simpl in H.
  - by apply not_elem_of_nil in H.
  - apply list_elem_of_singleton in H. discriminate.
Qed.

Lemma report_loop_length Errno_Error (files : list string)
    (infos : list FileDedupeRangeInfo) :
  length files = length infos ->
  length (report_loop Errno_Error files infos) =
    length (filter (fun t => Status t <> FILE_DEDUPE_RANGE_SAME) infos).
Proof.
  revert infos. induction files as [|f files IH]; intros [|t infos] Hlen;
    simpl in *; try done.
  inversion Hlen as [Hlen']. rewrite length_app, (IH infos Hlen').
  rewrite filter_cons.
  destruct (Status t =? FILE_DEDUPE_RANGE_SAME) eqn:E.
  - apply Z.eqb_eq in E. by rewrite decide_False by (by intros ?).
  - apply Z.eqb_neq in E. by rewrite decide_True.
Qed.

(** The report prints the completion line exactly when every status is
    "same"; otherwise it prints as many lines as there are statuses
    that are not "same", none of them the completion line. *)
Lemma report_completed_iff Errno_Error (files : list string)
    (infos : list FileDedupeRangeInfo) :
  length files = length infos ->
  (MsgCompleted ∈ report Errno_Error files infos <->
   Forall (fun t => Status t = FILE_DEDUPE_RANGE_SAME) infos) /\
  (MsgCompleted ∉ report Errno_Error files infos ->
   length (report Errno_Error files infos) =
     length (filter (fun t => Status t <> FILE_DEDUPE_RANGE_SAME) infos)).
Proof.
  intros Hlen. unfold report.
  pose proof (report_loop_nil Errno_Error files infos Hlen) as Hnil.
  pose proof (report_loop_no_completed Errno_Error files infos) as Hno.
  pose proof (report_loop_length Errno_Error files infos Hlen) as Hl.
  destruct (report_loop Errno_Error files infos) as [|m l] eqn:E.
  - split.
    + split; [intros _; by apply Hnil|intros _; apply list_elem_of_here].
    + intros H. exfalso. apply H, list_elem_of_here.
  - change (length (m :: l) =? 0)%nat with false. cbv iota. split; [|done].
    split; [done|]. intros H. by apply Hnil in H.
Qed.

(** The caller's array keeps its length. *)
Lemma out_value_length kernel fuel srcFd progress (v v' : FileDedupeRange) :
  out_value (FileDedupeRangeFull kernel fuel srcFd (Some v) progress) = Some v' ->
  length (Info v') = length (Info v).
Proof.
  unfold FileDedupeRangeFull. destruct (length (Info v) =? 0)%nat.
  { simpl. intros H. by inversion H. }
  pose proof (loop_value_length kernel srcFd progress v fuel) as Hl.
  destruct (loop kernel srcFd progress fuel (init v progress)) as [s e].
  simpl in *. intros H. by inversion H; subst.
Qed.

(** X26: the command prints that deduplication completed exactly when
    the source was opened and statted, every destination was opened,
    FileDedupeRangeFull returned nil and every destination's final
    status is "same".  When FileDedupeRangeFull returned nil and some
    final status is not "same", the command prints as many lines as
    there are destinations whose status is not "same", none of them
    the completion line. *)
Theorem runDedupe_completed_iff Errno_Error kernel fuel (open_source : Errno + Z)
    (stat_source : Errno + Z) (destinations : list (string * (Errno + Z))) :
  (MsgCompleted ∈
     run_messages (runDedupe Errno_Error kernel fuel open_source stat_source destinations)
   <->
   exists srcFd size files v',
     open_source = inr srcFd /\ stat_source = inr size /\
     destinations = opened_all files /\
     out_exit (FileDedupeRangeFull kernel fuel srcFd
                 (Some (command_value size files)) true) = Some ReturnNil /\
     out_value (FileDedupeRangeFull kernel fuel srcFd
                  (Some (command_value size files)) true) = Some v' /\
     Forall (fun t => Status t = FILE_DEDUPE_RANGE_SAME) (Info v')) /\
  (forall srcFd size files v',
     open_source = inr srcFd -> stat_source = inr size ->
     destinations = opened_all files ->
     out_exit (FileDedupeRangeFull kernel fuel srcFd
                 (Some (command_value size files)) true) = Some ReturnNil ->
     out_value (FileDedupeRangeFull kernel fuel srcFd
                  (Some (command_value size files)) true) = Some v' ->
     ~ Forall (fun t => Status t = FILE_DEDUPE_RANGE_SAME) (Info v') ->
     (MsgCompleted ∉
        run_messages (runDedupe Errno_Error kernel fuel open_source stat_source
                        destinations)) /\
     length (run_messages (runDedupe Errno_Error kernel fuel open_source stat_source
                             destinations)) =
       length (filter (fun t => Status t <> FILE_DEDUPE_RANGE_SAME) (Info v'))).
Proof.
  assert (forall srcFd size files v',
            out_value (FileDedupeRangeFull kernel fuel srcFd
                         (Some (command_value size files)) true) = Some v' ->
            length (map fst (opened_all files)) = length (Info v')) as Hlen.
  { intros srcFd size files v' Hv. apply out_value_length in Hv.
    rewrite Hv, opened_all_names, length_map. simpl. by rewrite targets_of_length. }
  split.
  - split.
    + intros H. unfold runDedupe in H.
      destruct open_source as [err|srcFd];
        [apply list_elem_of_singleton in H; discriminate|].
      destruct stat_source as [err|size];
        [apply list_elem_of_singleton in H; discriminate|].
      destruct (open_destinations destinations) as [[f err]|infos] eqn:E;
        [apply list_elem_of_singleton in H; discriminate|].
      apply open_destinations_inr in E as (files & -> & ->).
      fold (command_value size files) in H. cbv zeta in H.
      destruct (out_exit (FileDedupeRangeFull kernel fuel srcFd
                            (Some (command_value size files)) true)) as [x|] eqn:Ee.
      2:{ simpl in H. by apply not_elem_of_nil in H. }
      destruct x as [|err|msg|].
      * destruct (out_value (FileDedupeRangeFull kernel fuel srcFd
                               (Some (command_value size files)) true)) as [v'|] eqn:Ev.
        2:{ simpl in H. by apply not_elem_of_nil in H. }
        simpl in H. exists srcFd, size, files, v'.
        split; [done|]. split; [done|]. split; [done|]. split; [done|]. split; [done|].
        by apply (report_completed_iff Errno_Error (map fst (opened_all files)) (Info v')
                    (Hlen srcFd size files v' Ev)).
      * simpl in H. apply list_elem_of_singleton in H.
        destruct (err =? EOPNOTSUPP); [discriminate|].
        destruct (err =? EINVAL); discriminate.
      * simpl in H. by apply not_elem_of_nil in H.
      * simpl in H. by apply not_elem_of_nil in H.
    + intros (srcFd & size & files & v' & -> & -> & -> & Ee & Ev & Hall).
      rewrite runDedupe_opened. cbv zeta. rewrite Ee, Ev. simpl.
      by apply (report_completed_iff Errno_Error (map fst (opened_all files)) (Info v')
                  (Hlen srcFd size files v' Ev)).
  - intros srcFd size files v' -> -> -> Ee Ev Hnot.
    rewrite runDedupe_opened. cbv zeta. rewrite Ee, Ev. simpl.
    destruct (report_completed_iff Errno_Error (map fst (opened_all files)) (Info v')
                (Hlen srcFd size files v' Ev)) as [Hiff Hcount].
    assert (MsgCompleted ∉ report Errno_Error (map fst (opened_all files)) (Info v'))
      as Hno by (intros Hin; by apply Hnot, Hiff).
    split; [done|]. by apply Hcount.
Qed.

(** ** Matching destinations *)

(** X27: when every file opens and, throughout the run, the primitive
    reports no error and every destination reports "same" with one
    positive byte count within what was asked, the command prints that
    deduplication completed, and nothing else; the progress bar is
    closed last. *)
Theorem runDedupe_completes Errno_Error kernel (srcFd size : Z)
    (files : list (string * Z)) :
  files <> [] ->
  (forall s, reachable kernel srcFd true (command_value size files) s ->
     cooperative kernel srcFd s) ->
  let r := runDedupe Errno_Error kernel (S (Z.to_nat (wrap64 size))) (inr srcFd)
             (inr size) (opened_all files) in
  run_messages r = [MsgCompleted] /\ run_exit r = Some ReturnNil /\
  last (run_bar r) = Some BarExit.
Proof.
  intros Hne Hcoop. cbv zeta. rewrite runDedupe_opened. cbv zeta.
  destruct (command_value_uint64 size files) as [Hoff Hlen].
  assert (Forall (fun t => Bytes_deduped t = 0) (Info (command_value size files)))
    as Hzero.
  { simpl. unfold targets_of. apply Forall_map, Forall_forall. by intros. }
  pose proof (cooperative_run kernel srcFd true (command_value size files) Hoff Hlen
                ltac:(by destruct files) Hzero Hcoop) as Hrun.
  cbv zeta in Hrun.
  change (Src_length (command_value size files)) with (wrap64 size) in Hrun.
  destruct Hrun as (Hexit & v' & Hv' & Hall).
  rewrite Hexit, Hv'. cbv beta iota.
  assert (length (Info v') = length files) as Hlv.
  { unfold FileDedupeRangeFull in Hv'.
    destruct (length (Info (command_value size files)) =? 0)%nat eqn:E.
    { simpl in Hv'. inversion Hv'; subst. simpl. apply targets_of_length. }
    pose proof (loop_value_length kernel srcFd true (command_value size files)
                  (S (Z.to_nat (wrap64 size)))) as Hinv.
    destruct (loop kernel srcFd true (S (Z.to_nat (wrap64 size)))
                (init (command_value size files) true)) as [s e].
    simpl in Hv', Hinv. inversion Hv'; subst. by rewrite Hinv, targets_of_length. }
  split; [|split; [done|]].
  - pose proof (report_loop_nil Errno_Error (map fst (opened_all files)) (Info v')) as Hnil.
    unfold report. rewrite (proj2 (Hnil ltac:(by rewrite opened_all_names, length_map))).
    + done.
    + eapply Forall_impl; [exact Hall|]. by intros t [_ ?].
  - unfold FileDedupeRangeFull in Hexit |- *.
    destruct (length (Info (command_value size files)) =? 0)%nat; [done|].
    destruct (loop kernel srcFd true (S (Z.to_nat (wrap64 size)))
                (init (command_value size files) true)) as [s e].
    simpl in Hexit |- *. subst e. simpl. rewrite map_app. simpl. by rewrite last_snoc.
Qed.

Lemma runDedupe_completes_witness :
  let r := runDedupe Errno_decimal (kernel_capped 4) (S (Z.to_nat (wrap64 10))) (inr 3)
             (inr 10) (opened_all [("b"%string, 7); ("c"%string, 8)]) in
  run_messages r = [MsgCompleted] /\ run_exit r = Some ReturnNil /\
  last (run_bar r) = Some BarExit.
Proof.
  apply (runDedupe_completes Errno_decimal (kernel_capped 4) 3 10
           [("b"%string, 7); ("c"%string, 8)]).
  - discriminate.
  - apply kernel_capped_cooperative; unfold is_uint64; vm_compute;
      first [reflexivity | split; [discriminate|reflexivity]].
Defined.

(** ** A destination that differs *)

(** X28: when, in some round, the primitive reports no error, the
    checks pass, bytes remain, and some entries of the request do not
    report "same", none of them at the position of the last destination
    of the command line, the command stops in an index out of range:
    it prints neither a failure line for a destination nor the
    completion line, and the progress bar is closed last. *)
Theorem runDedupe_crashes_on_differing_destination Errno_Error kernel (srcFd size : Z)
    (files : list (string * Z)) (n fuel : nat) (s : State) (d : Z) (valid : bool) :
  loop kernel srcFd true n (init (command_value size files) true) = (s, None) ->
  (n < fuel)%nat ->
  primitive_ok kernel srcFd s ->
  check_loop (reports kernel srcFd s) 0 false = Some (d, valid) ->
  d <= Src_length (st_req s) ->
  wrap64 (Src_length (st_req s) - d) <> 0 ->
  non_same_from 0 (reports kernel srcFd s) <> [] ->
  (length files - 1)%nat ∉ non_same_from 0 (reports kernel srcFd s) ->
  let r := runDedupe Errno_Error kernel fuel (inr srcFd) (inr size) (opened_all files) in
  run_messages r = [] /\ run_exit r = Some IndexOutOfRange /\
  last (run_bar r) = Some BarExit.
Proof.
  intros Hn Hlt Hok Hc Hd Hz Hne Hlast. cbv zeta. rewrite runDedupe_opened. cbv zeta.
  destruct (command_value_uint64 size files) as [Hoff Hlen].
  assert (reachable kernel srcFd true (command_value size files) s) as Hreach
    by (by exists n).
  destruct (reachable_sound _ _ _ _ Hoff Hlen s Hreach) as [Hlive _].
  assert (length (Info (st_value s)) = length files) as Hlv.
  { pose proof (loop_value_length kernel srcFd true (command_value size files) n) as Hinv.
    rewrite Hn in Hinv. simpl in Hinv. by rewrite Hinv, targets_of_length. }
  pose proof (round_drop_short kernel srcFd true s d valid Hlive Hok Hc Hd Hz Hne) as Hr.
  rewrite Hlv in Hr. specialize (Hr Hlast).
  destruct (round kernel srcFd true s) as [s' x] eqn:Er. simpl in Hr. subst x.
  rewrite (FileDedupeRangeFull_leaves kernel srcFd true (command_value size files)
             n fuel s s' IndexOutOfRange); [| |done|done|done].
  - simpl. split; [done|]. split; [done|]. rewrite map_app. simpl. by rewrite last_snoc.
  - destruct files; [|done]. exfalso.
    destruct Hlive as (_ & _ & Hle & _). rewrite Hlv in Hle. simpl in Hle.
    pose proof (reports_length kernel srcFd s) as Hrl.
    destruct (reports kernel srcFd s); [done|]. simpl in Hrl. lia.
Qed.

Lemma runDedupe_crashes_on_differing_destination_witness :
  let r := runDedupe Errno_decimal kernel_first_differs 5 (inr 3) (inr 10)
             (opened_all [("b"%string, 7); ("c"%string, 8)]) in
  run_messages r = [] /\ run_exit r = Some IndexOutOfRange /\
  last (run_bar r) = Some BarExit.
Proof.
  apply (runDedupe_crashes_on_differing_destination Errno_decimal kernel_first_differs 3 10
           [("b"%string, 7); ("c"%string, 8)] 0 5
           (init (command_value 10 [("b"%string, 7); ("c"%string, 8)]) true) 5 true).
  - reflexivity.
  - lia.
  - reflexivity.
  - reflexivity.
  - vm_compute. discriminate.
  - vm_compute. discriminate.
  - vm_compute. discriminate.
  - vm_compute. intros H. apply list_elem_of_singleton in H. discriminate.
Defined.

(** ** An error of the primitive *)

(** The line the command prints for an error of FileDedupeRangeFull. *)
Definition error_message (err : Errno) : Message :=
  if err =? EOPNOTSUPP then MsgNotSupported
  else if err =? EINVAL then MsgIncompatible
  else MsgDedupeFailed err.

(** X29: when the primitive reports an error in some round, the command
    prints one line chosen by the error number and returns: it prints
    no line for any destination, whatever the rounds before recorded,
    and the requests made are those of the rounds up to the failing
    one. *)
Theorem runDedupe_error_message Errno_Error kernel (srcFd size : Z)
    (files : list (string * Z)) (n fuel : nat) (s : State) (e : Errno) :
  files <> [] ->
  loop kernel srcFd true n (init (command_value size files) true) = (s, None) ->
  (n < fuel)%nat ->
  reply_err (kernel (length (st_ioctls s)) srcFd (st_req s)) = Some e ->
  runDedupe Errno_Error kernel fuel (inr srcFd) (inr size) (opened_all files) =
    mkRun [error_message e] (map bar_event (st_calls s) ++ [BarExit]) (Some ReturnNil)
      (st_ioctls s ++ [st_req s]).
Proof.
  intros Hne Hn Hlt He. rewrite runDedupe_opened. cbv zeta.
  destruct (round kernel srcFd true s) as [s1 x] eqn:Er.
  assert (x = Some (ReturnErr e) /\ st_calls s1 = st_calls s /\
          st_ioctls s1 = st_ioctls s ++ [st_req s]) as (-> & Hc & Hi).
  { unfold round, IoctlFileDedupeRange in Er. simpl in Er. rewrite He in Er.
    by inversion Er. }
  rewrite (FileDedupeRangeFull_leaves kernel srcFd true (command_value size files)
             n fuel s s1 (ReturnErr e)); [|by destruct files|done|done|done].
  simpl. rewrite Hc, Hi, map_app. done.
Qed.

Lemma runDedupe_error_message_witness :
  runDedupe Errno_decimal (fun _ _ _ => mkReply (Some 95) (fun _ => (0, 0))) 1 (inr 3)
    (inr 10) (opened_all [("b"%string, 7)]) =
    mkRun [error_message 95]
      (map bar_event (st_calls (init (command_value 10 [("b"%string, 7)]) true)) ++
       [BarExit])
      (Some ReturnNil)
      (st_ioctls (init (command_value 10 [("b"%string, 7)]) true) ++
       [st_req (init (command_value 10 [("b"%string, 7)]) true)]).
Proof.
  apply (runDedupe_error_message Errno_decimal
           (fun _ _ _ => mkReply (Some 95) (fun _ => (0, 0))) 3 10 [("b"%string, 7)] 0 1
           (init (command_value 10 [("b"%string, 7)]) true) 95);
    [discriminate|reflexivity|lia|reflexivity].
Defined.

(** ** The progress bar *)

(** The values the bar is set to. *)
Fixpoint bar_values (bar : list BarEvent) : list Z :=
  match bar with
  | [] => []
  | BarSet64 x :: bar' => x :: bar_values bar'
  | BarExit :: bar' => bar_values bar'
  end.

Lemma bar_running (calls : list ProgressCall) (bound : Z) :
  bound < 2 ^ 63 ->
  Forall (fun c => call_final c = false /\ 0 <= call_bytes c <= bound) calls ->
  map bar_event calls = map BarSet64 (map call_bytes calls).
Proof.
  intros Hb H. induction H as [|[[b t] x] calls [Hf Hc] _ IH]; simpl; [done|].
  unfold call_final, call_bytes in *. simpl in *. subst x.
  rewrite wrap_int_small by lia. by rewrite IH.
Qed.

Lemma bar_values_set (l : list Z) : bar_values (map BarSet64 l) = l.
Proof. induction l as [|x l IH]; simpl; [done|]. by rewrite IH. Qed.

(** X30: for a source file of at most 2^63 - 1 bytes whose destinations
    all open, the progress bar is set to values that never decrease and
    never exceed the file size, then closed once, as the last thing
    done to it, when FileDedupeRangeFull is left. *)
Theorem runDedupe_progress_bar Errno_Error kernel fuel (srcFd size : Z)
    (files : list (string * Z)) :
  0 <= size < 2 ^ 63 -> files <> [] ->
  let r := runDedupe Errno_Error kernel fuel (inr srcFd) (inr size) (opened_all files) in
  exists values,
    run_bar r = map BarSet64 values ++
                match run_exit r with Some _ => [BarExit] | None => [] end /\
    nondecreasing values /\
    Forall (fun x => 0 <= x <= size) values.
Proof.
  intros Hsize Hne. cbv zeta. rewrite runDedupe_opened. cbv zeta.
  set (v := command_value size files).
  assert (Src_length v = size) as Hsl by (simpl; apply wrap64_small; lia).
  assert (no_wrap v) as Hnw by (unfold no_wrap; rewrite Hsl; simpl; lia).
  destruct (no_wrap_uint64 v Hnw) as [Hoff Hlen].
  unfold FileDedupeRangeFull.
  destruct (length (Info v) =? 0)%nat eqn:E.
  { apply Nat.eqb_eq in E. simpl in E. rewrite targets_of_length in E.
    by destruct files. }
  pose proof (loop_calls kernel srcFd true v fuel Hnw) as [Hfin Hnd].
  pose proof (loop_invariant kernel srcFd true
    (fun s => accounting v s /\ calls_within v s)) as Hinv.
  destruct (Hinv ltac:(intros s s' e [Ha Hw] Hr; split;
                        [by eapply round_accounting|by eapply round_calls_within])
              fuel (init v true)) as [Ha Hcalls].
  { split; [by apply init_accounting|]. unfold calls_within. simpl.
    constructor; [|constructor]. unfold call_bytes. simpl. split; [done|lia]. }
  destruct (loop kernel srcFd true fuel (init v true)) as [s e]. simpl in *.
  destruct Ha as (Hr0 & Ho & Hl & Hp & Hv).
  change (Src_length v) with (wrap64 size) in Hl. rewrite Hsl in Hl.
  pose proof (total_nonneg _ Hr0) as Ht.
  assert (Forall (fun c => call_final c = false /\ 0 <= call_bytes c <= size) (st_calls s))
    as Hall.
  { unfold calls_within in Hcalls. rewrite Forall_forall in Hfin, Hcalls |- *.
    intros c Hc. destruct (Hfin c Hc) as [? _]. destruct (Hcalls c Hc) as [_ ?].
    split; [done|]. lia. }
  exists (map call_bytes (st_calls s)). split; [|split; [done|]].
  - destruct e as [x|]; simpl.
    + rewrite map_app, (bar_running _ size) by (done || lia). simpl.
      by destruct x.
    + by rewrite (bar_running _ size), app_nil_r by (done || lia).
  - apply Forall_map. eapply Forall_impl; [exact Hall|]. by intros c [_ ?].
Qed.

Lemma runDedupe_progress_bar_witness :
  let r := runDedupe Errno_decimal (kernel_capped 4) 5 (inr 3) (inr 10)
             (opened_all [("b"%string, 7); ("c"%string, 8)]) in
  exists values,
    run_bar r = map BarSet64 values ++
                match run_exit r with Some _ => [BarExit] | None => [] end /\
    nondecreasing values /\
    Forall (fun x => 0 <= x <= 10) values.
Proof.
  apply (runDedupe_progress_bar Errno_decimal (kernel_capped 4) 5 3 10
           [("b"%string, 7); ("c"%string, 8)]).
  - lia.
  - discriminate.
Defined.
